(** * Wake-on-LAN magic packets: a shallow embedding of [pkg/magic/magic.go]

    The Go package builds the 102-byte magic packet (six bytes [0xFF] and
    sixteen copies of the target MAC address) and sends it over UDP/IPv4.
    This development embeds the package's functions as Rocq functions,
    together with the functions of Go's standard library they call
    ([net.ParseMAC], [net.ParseIP], [strconv.Atoi]), and proves the
    properties of the specification about them.

    Conventions of the embedding:
    - a Go [string] is a [string] (a sequence of 8-bit characters);
    - a Go [byte] is a [Z] in [0, 256), a Go [int] a [Z];
    - a Go [[]byte] (and [net.IP], [net.HardwareAddr]) is a [list Z], the
      [nil] slice being the empty list;
    - a Go result [(v, err)] is a pair whose second component is an
      [option error], [None] standing for the [nil] error;
    - a method with a pointer receiver [p *Packet] takes the packet and
      returns the updated packet;
    - network input and output is a trace of events over an abstract
      network, see [Network] and [IO]; the error that [conn.Close()]
      returns is dropped by the [defer] of the source and is not modelled.

    The library functions follow the sources of Go 1.22, the first release
    that has the [for range 6] of the package. *)

From Stdlib Require Import ZArith List String Ascii Bool Lia Arith.
Import ListNotations.

Local Open Scope string_scope.
Local Open Scope list_scope.
Local Open Scope Z_scope.

(** ** Go values *)

Definition byte := Z.

(** The numeric value of a character of a Go string. *)
Definition code (c : ascii) : Z := Z.of_N (N_of_ascii c).

(** [len(s)] *)
Definition len (s : string) : nat := String.length s.

(** [s[i]]; Go panics out of range, every use below is guarded by a test on
    [len(s)], so that the default is never read. *)
Definition at_ (s : string) (i : nat) : ascii :=
  match String.get i s with
  | Some c => c
  | None => zero
  end.

(** [s[i:]] *)
Definition from (s : string) (i : nat) : string :=
  String.substring i (len s - i) s.

(** [s[i:j]] *)
Definition slice (s : string) (i j : nat) : string :=
  String.substring i (j - i) s.

(** [c1 == c2] on bytes of a string. *)
Definition ceq (c1 c2 : ascii) : bool := Ascii.eqb c1 c2.

(** ** Errors

    The error values that the package and the library functions it calls
    build.  [Errorf format args] and [Wrapf format args err] are the values
    of [fmt.Errorf(format, args...)] without and with the verb [%w]: the
    arguments are kept, and [Unwrap] gives the wrapped error back. *)

Inductive numerr : Type := ErrSyntax | ErrRange.

(** An argument of a format other than the error of [%w]. *)
Inductive fmtval : Type :=
| ArgS (s : string)      (* a string, for %q, %s, %v *)
| ArgD (n : Z).          (* an int, for %d *)

Inductive error : Type :=
| AddrError (Err Addr : string)                  (* *net.AddrError *)
| NumError (Func Num : string) (Err : numerr)    (* *strconv.NumError *)
| OpError (Op : string) (errno : Z)              (* *net.OpError, from the OS *)
| Errorf (format : string) (args : list fmtval)  (* fmt.Errorf without %w *)
| Wrapf (format : string) (args : list fmtval) (err : error).
                                                 (* fmt.Errorf, err under %w *)

(** [errors.Unwrap]: the error under [%w]. *)
Definition Unwrap (e : error) : option error :=
  match e with
  | Wrapf _ _ err => Some err
  | _ => None
  end.

(** [wraps e cause]: [cause] is in the [Unwrap] chain of [e] (as [errors.Is]
    follows it). *)
Inductive wraps : error -> error -> Prop :=
| wraps_refl e : wraps e e
| wraps_step e e' cause : Unwrap e = Some e' -> wraps e' cause -> wraps e cause.

(** ** Package [net]: [ParseMAC] ([net/mac.go], [net/parse.go]) *)

Module net.

(** [const big = 0xFFFFFF] *)
Definition big : Z := 0xFFFFFF.

(** The three branches of the loop of [xtoi] that recognise a hexadecimal
    digit: its value, or [None] where the loop breaks. *)
Definition hexdigit (c : ascii) : option Z :=
  if (code "0"%char <=? code c) && (code c <=? code "9"%char) then
    Some (code c - code "0"%char)
  else if (code "a"%char <=? code c) && (code c <=? code "f"%char) then
    Some (code c - code "a"%char + 10)
  else if (code "A"%char <=? code c) && (code c <=? code "F"%char) then
    Some (code c - code "A"%char + 10)
  else None.

(** [xtoi]: hexadecimal to integer; returns number, characters consumed,
    success.  [s] is what remains to read, [n] and [i] the loop variables. *)
Fixpoint xtoi_loop (s : string) (n : Z) (i : nat) : Z * nat * bool :=
  match s with
  | EmptyString => if (i =? 0)%nat then (0, i, false) else (n, i, true)
  | String c s' =>
      match hexdigit c with
      | Some d =>
          let n := n * 16 + d in
          if big <=? n then (0, i, false) else xtoi_loop s' n (S i)
      | None => if (i =? 0)%nat then (0, i, false) else (n, i, true)
      end
  end.

Definition xtoi (s : string) : Z * nat * bool := xtoi_loop s 0 0%nat.

(** [xtoi2] converts the next two hex digits of [s] into a byte.  If [s] is
    longer than 2 bytes then the third byte must be [e]. *)
Definition xtoi2 (s : string) (e : ascii) : byte * bool :=
  if (2 <? len s)%nat && negb (ceq (at_ s 2) e) then (0, false)
  else
    let '(n, ei, ok) := xtoi (slice s 0 2) in
    (n mod 256, ok && (ei =? 2)%nat).

(** The loop of the colon and hyphen forms:
    [for x, i := 0, 0; i < n; i++ { hw[i], ok = xtoi2(s[x:], s[2]); x += 3 }],
    [k] iterations remaining. *)
Fixpoint mac_loop3 (s : string) (k : nat) (x : nat) : option (list byte) :=
  match k with
  | O => Some []
  | S k' =>
      let '(b, ok) := xtoi2 (from s x) (at_ s 2) in
      if ok then
        match mac_loop3 s k' (x + 3) with
        | Some hw => Some (b :: hw)
        | None => None
        end
      else None
  end.

(** The loop of the dotted form, two bytes per iteration:
    [hw[i], ok = xtoi2(s[x:x+2], 0); hw[i+1], ok = xtoi2(s[x+2:], s[4]); x += 5]. *)
Fixpoint mac_loop5 (s : string) (k : nat) (x : nat) : option (list byte) :=
  match k with
  | O => Some []
  | S k' =>
      let '(b0, ok0) := xtoi2 (slice s x (x + 2)) zero in
      if ok0 then
        let '(b1, ok1) := xtoi2 (from s (x + 2)) (at_ s 4) in
        if ok1 then
          match mac_loop5 s k' (x + 5) with
          | Some hw => Some (b0 :: b1 :: hw)
          | None => None
          end
        else None
      else None
  end.

Definition wrong_size (n : nat) : bool :=
  negb (n =? 6)%nat && negb (n =? 8)%nat && negb (n =? 20)%nat.

(** [ParseMAC] parses an IEEE 802 MAC-48, EUI-48, EUI-64, or a 20-octet IP
    over InfiniBand link-layer address, in the colon, hyphen or dot form. *)
Definition ParseMAC (s : string) : list byte * option error :=
  let fail := ([], Some (AddrError "invalid MAC address" s)) in
  if (len s <? 14)%nat then fail
  else if ceq (at_ s 2) ":"%char || ceq (at_ s 2) "-"%char then
    if negb (((len s + 1) mod 3 =? 0)%nat) then fail
    else
      let n := ((len s + 1) / 3)%nat in
      if wrong_size n then fail
      else
        match mac_loop3 s n 0 with
        | Some hw => (hw, None)
        | None => fail
        end
  else if ceq (at_ s 4) "."%char then
    if negb (((len s + 1) mod 5 =? 0)%nat) then fail
    else
      let n := (2 * (len s + 1) / 5)%nat in
      if wrong_size n then fail
      else
        match mac_loop5 s (n / 2) 0 with
        | Some hw => (hw, None)
        | None => fail
        end
  else fail.

(** *** [ParseIP] ([net/ip.go], [net/netip/netip.go]) *)

(** [a[i] = v] on a fixed-size array; the indices written below are within
    the array. *)
Fixpoint store (a : list byte) (i : nat) (v : byte) : list byte :=
  match a, i with
  | [], _ => []
  | _ :: a', O => v :: a'
  | x :: a', S i' => x :: store a' i' v
  end.

(** [netip.Addr]: an IPv4 address of four bytes, or an IPv6 address of
    sixteen bytes with its zone. *)
Inductive Addr : Type :=
| Addr4 (fields : list byte)
| Addr6 (ip : list byte) (zone : string).

Definition isdigit (c : ascii) : bool :=
  (code "0"%char <=? code c) && (code c <=? code "9"%char).

(** The loop of [netip.parseIPv4] over [s], whose part still to read is
    [rest = s[i:]]; [n] is [len(s)] and [prev] is [s[i-1]]. *)
Fixpoint parseIPv4_loop (rest : string) (i n : nat) (prev : ascii)
    (val pos digLen : Z) (fields : list byte) : option (list byte) :=
  match rest with
  | EmptyString =>
      if pos <? 3 then None                      (* IPv4 address too short *)
      else Some (store fields 3 (val mod 256))
  | String c rest' =>
      if isdigit c then
        if (digLen =? 1) && (val =? 0) then None (* octet with leading zero *)
        else
          let val := val * 10 + code c - code "0"%char in
          let digLen := digLen + 1 in
          if 255 <? val then None                (* field has value >255 *)
          else parseIPv4_loop rest' (S i) n c val pos digLen fields
      else if ceq c "."%char then
        if (i =? 0)%nat || (i =? n - 1)%nat || ceq prev "."%char then None
                                                 (* field without a digit *)
        else if pos =? 3 then None               (* IPv4 address too long *)
        else
          parseIPv4_loop rest' (S i) n c 0 (pos + 1) 0
            (store fields (Z.to_nat pos) (val mod 256))
      else None                                  (* unexpected character *)
  end.

Definition parseIPv4 (s : string) : option (list byte) :=
  parseIPv4_loop s 0 (len s) zero 0 0 0 [0; 0; 0; 0].

(** The inner loop of [netip.parseIPv6] reading one group of hexadecimal
    digits of [s]: the offset [off] where it stops and the value [acc], or
    [None] for a group of more than four digits. *)
Fixpoint hexgroup (rest : string) (off : nat) (acc : Z) : option (nat * Z) :=
  match rest with
  | EmptyString => Some (off, acc)
  | String c rest' =>
      match hexdigit c with
      | Some d =>
          let acc := acc * 16 + d in
          if (3 <? off)%nat then None
          else if 0xFFFF <? acc then None
          else hexgroup rest' (S off) acc
      | None => Some (off, acc)
      end
  end.

(** The state of the outer loop of [parseIPv6] when it is left. *)
Record v6state : Type := mkV6 {
  v6_s : string;          (* what remains of the input *)
  v6_ip : list byte;      (* the sixteen bytes *)
  v6_i : nat;             (* bytes of [ip] filled *)
  v6_ellipsis : Z         (* position of the ellipsis in [ip], or -1 *)
}.

(** The outer loop [for i < 16 { ... }]: each turn adds 2 to [i] or leaves
    the loop, so that [k = (16 - i) / 2] turns remain. *)
Fixpoint parseIPv6_loop (k : nat) (s : string) (ip : list byte) (i : nat)
    (ellipsis : Z) : option v6state :=
  match k with
  | O => Some (mkV6 s ip i ellipsis)
  | S k' =>
      match hexgroup s 0 0 with
      | None => None
      | Some (off, acc) =>
          if (off =? 0)%nat then None            (* no digit in the field *)
          else if (off <? len s)%nat && ceq (at_ s off) "."%char then
            (* trailing IPv4 *)
            if (ellipsis <? 0) && negb (i =? 12)%nat then None
            else if (16 <? i + 4)%nat then None
            else
              match parseIPv4 s with
              | None => None
              | Some ip4 =>
                  let ip := store ip i (nth 0 ip4 0) in
                  let ip := store ip (i + 1) (nth 1 ip4 0) in
                  let ip := store ip (i + 2) (nth 2 ip4 0) in
                  let ip := store ip (i + 3) (nth 3 ip4 0) in
                  Some (mkV6 "" ip (i + 4) ellipsis)
              end
          else
            let ip := store ip i (Z.shiftr acc 8 mod 256) in
            let ip := store ip (i + 1) (acc mod 256) in
            let i := (i + 2)%nat in
            let s := from s off in
            if (len s =? 0)%nat then Some (mkV6 s ip i ellipsis)
            else if negb (ceq (at_ s 0) ":"%char) then None
            else if (len s =? 1)%nat then None
            else
              let s := from s 1 in
              if ceq (at_ s 0) ":"%char then
                if 0 <=? ellipsis then None      (* multiple :: *)
                else
                  let ellipsis := Z.of_nat i in
                  let s := from s 1 in
                  if (len s =? 0)%nat then Some (mkV6 s ip i ellipsis)
                  else parseIPv6_loop k' s ip i ellipsis
              else parseIPv6_loop k' s ip i ellipsis
      end
  end.

(** [bytealg.IndexByteString(s, c)], [None] for -1. *)
Fixpoint IndexByteString (s : string) (c : ascii) : option nat :=
  match s with
  | EmptyString => None
  | String c' s' =>
      if ceq c' c then Some O
      else match IndexByteString s' c with
           | Some i => Some (S i)
           | None => None
           end
  end.

(** What [parseIPv6] does after the zone is split off. *)
Definition parseIPv6_body (s zone : string) : option Addr :=
  let zeros := repeat 0 16 in
  let '(s, ellipsis, only) :=
    if (2 <=? len s)%nat && ceq (at_ s 0) ":"%char && ceq (at_ s 1) ":"%char
    then (from s 2, 0, (len (from s 2) =? 0)%nat)
    else (s, -1, false) in
  if only then Some (Addr6 zeros zone)           (* only the ellipsis *)
  else
    match parseIPv6_loop 8 s zeros 0 ellipsis with
    | None => None
    | Some st =>
        if negb (len (v6_s st) =? 0)%nat then None   (* trailing garbage *)
        else if (v6_i st <? 16)%nat then
          if v6_ellipsis st <? 0 then None           (* address too short *)
          else
            (* the bytes after the ellipsis move to the end, zeros between *)
            let e := Z.to_nat (v6_ellipsis st) in
            let n := (16 - v6_i st)%nat in
            Some (Addr6 (firstn e (v6_ip st) ++ repeat 0 n
                           ++ firstn (v6_i st - e) (skipn e (v6_ip st))) zone)
        else if 0 <=? v6_ellipsis st then None       (* :: expands to nothing *)
        else Some (Addr6 (v6_ip st) zone)
    end.

Definition parseIPv6 (s : string) : option Addr :=
  match IndexByteString s "%"%char with
  | Some i =>
      let zone := from s (i + 1) in
      if (len zone =? 0)%nat then None
      else parseIPv6_body (slice s 0 i) zone
  | None => parseIPv6_body s ""
  end.

(** [netip.ParseAddr]: the first of ['.'], [':'] and ['%'] in [s] decides.
    [rest] is the part of [s] still to scan. *)
Fixpoint ParseAddr_scan (s rest : string) : option Addr :=
  match rest with
  | EmptyString => None                          (* unable to parse IP *)
  | String c rest' =>
      if ceq c "."%char then
        match parseIPv4 s with
        | Some fields => Some (Addr4 fields)
        | None => None
        end
      else if ceq c ":"%char then parseIPv6 s
      else if ceq c "%"%char then None           (* missing IPv6 address *)
      else ParseAddr_scan s rest'
  end.

Definition ParseAddr (s : string) : option Addr := ParseAddr_scan s s.

Definition Zone (ip : Addr) : string :=
  match ip with
  | Addr4 _ => ""
  | Addr6 _ zone => zone
  end.

Definition v4InV6Prefix : list byte := [0; 0; 0; 0; 0; 0; 0; 0; 0; 0; 0xff; 0xff].

Definition As16 (ip : Addr) : list byte :=
  match ip with
  | Addr4 fields => v4InV6Prefix ++ fields
  | Addr6 ip _ => ip
  end.

(** [net.IP], the [nil] slice being [[]]. *)
Definition IP := list byte.

(** [net.IPv4(a, b, c, d)]: the address in its 16-byte form. *)
Definition IPv4 (a b c d : byte) : IP := v4InV6Prefix ++ [a; b; c; d].

(** [net.ParseIP]: [nil] if [s] is not a valid textual representation of an
    IP address (or has a zone); the address is always 16 bytes. *)
Definition ParseIP (s : string) : IP :=
  match ParseAddr s with
  | Some addr => if negb (len (Zone addr) =? 0)%nat then [] else As16 addr
  | None => []
  end.

End net.

(** ** Package [strconv]: [Atoi] ([strconv/atoi.go]), with [intSize = 64] *)

Module strconv.

Definition intSize : Z := 64.
Definition maxUint64 : Z := 2 ^ 64 - 1.

Definition syntaxError (fn str : string) : error := NumError fn str ErrSyntax.
Definition rangeError (fn str : string) : error := NumError fn str ErrRange.

(** [lower(c)]: [c | ('x' - 'X')] *)
Definition lower (c : Z) : Z := Z.lor c 32.

(** The [switch] of the loop of [ParseUint] that gives the digit [d] of the
    byte [c] (the underscore is a digit separator in base 0 only); [None]
    is its [default], a syntax error. *)
Definition digit_of (c : Z) : option Z :=
  if (code "0"%char <=? c) && (c <=? code "9"%char) then
    Some (c - code "0"%char)
  else if (code "a"%char <=? lower c) && (lower c <=? code "z"%char) then
    Some (lower c - code "a"%char + 10)
  else None.

(** The loop of [ParseUint(s, 10, 0)] over the bytes of [s]; [n] is a
    [uint64], [cutoff = maxUint64/10 + 1] and [maxVal = 1<<64 - 1]. *)
Fixpoint ParseUint_loop (rest : string) (s0 : string) (n : Z) : Z * option error :=
  let cutoff := maxUint64 / 10 + 1 in
  let maxVal := maxUint64 in
  match rest with
  | EmptyString => (n, None)
  | String c rest' =>
      match digit_of (code c) with
      | None => (0, Some (syntaxError "ParseUint" s0))
      | Some d =>
          if 10 <=? d then (0, Some (syntaxError "ParseUint" s0))
          else if cutoff <=? n then (maxVal, Some (rangeError "ParseUint" s0))
          else
            let n := n * 10 in
            let n1 := (n + d) mod 2 ^ 64 in
            if (n1 <? n) || (maxVal <? n1) then
              (maxVal, Some (rangeError "ParseUint" s0))
            else ParseUint_loop rest' s0 n1
      end
  end.

Definition ParseUint (s : string) : Z * option error :=
  if (s =? "")%string then (0, Some (syntaxError "ParseUint" s))
  else ParseUint_loop s s 0.

Definition is_range (e : option error) : bool :=
  match e with
  | Some (NumError _ _ ErrRange) => true
  | _ => false
  end.

(** [ParseInt(s, 10, 0)] *)
Definition ParseInt (s : string) : Z * option error :=
  if (s =? "")%string then (0, Some (syntaxError "ParseInt" s))
  else
    let s0 := s in
    let '(s, neg) :=
      if ceq (at_ s 0) "+"%char then (from s 1, false)
      else if ceq (at_ s 0) "-"%char then (from s 1, true)
      else (s, false) in
    let '(un, err) := ParseUint s in
    match err with
    | Some _ =>
        if negb (is_range err) then (0, Some (syntaxError "ParseInt" s0))
        else
          (* un = maxVal is beyond both cutoffs *)
          if neg then (- 2 ^ (intSize - 1), Some (rangeError "ParseInt" s0))
          else (2 ^ (intSize - 1) - 1, Some (rangeError "ParseInt" s0))
    | None =>
        let cutoff := 2 ^ (intSize - 1) in
        if negb neg && (cutoff <=? un) then
          (cutoff - 1, Some (rangeError "ParseInt" s0))
        else if neg && (cutoff <? un) then
          (- cutoff, Some (rangeError "ParseInt" s0))
        else (if neg then - un else un, None)
    end.

(** The loop of the fast path of [Atoi]:
    [ch -= '0'; if ch > 9 { syntax error }; n = n*10 + int(ch)], the
    subtraction being on bytes. *)
Fixpoint Atoi_loop (rest : string) (n : Z) : option Z :=
  match rest with
  | EmptyString => Some n
  | String ch rest' =>
      let ch := (code ch - code "0"%char) mod 256 in
      if 9 <? ch then None else Atoi_loop rest' (n * 10 + ch)
  end.

(** [Atoi] is equivalent to [ParseInt(s, 10, 0)], converted to type int. *)
Definition Atoi (s : string) : Z * option error :=
  let sLen := len s in
  if (0 <? sLen)%nat && (sLen <? 19)%nat then
    (* fast path for small integers that fit int type *)
    let s0 := s in
    let s' :=
      if ceq (at_ s 0) "-"%char || ceq (at_ s 0) "+"%char then from s 1 else s in
    if (ceq (at_ s 0) "-"%char || ceq (at_ s 0) "+"%char) && (len s' <? 1)%nat
    then (0, Some (syntaxError "Atoi" s0))
    else
      match Atoi_loop s' 0 with
      | None => (0, Some (syntaxError "Atoi" s0))
      | Some n => (if ceq (at_ s0 0) "-"%char then - n else n, None)
      end
  else
    (* slow path for invalid, big, or underscored integers *)
    let '(i64, err) := ParseInt s in
    match err with
    | Some (NumError _ num e) => (i64, Some (NumError "Atoi" num e))
    | _ => (i64, err)
    end.

End strconv.

(** ** The packet builder *)

(** [bytes.Buffer], written to and never read from before [Bytes()]: its
    contents. *)
Definition Buffer := list byte.

Definition WriteByte (b : Buffer) (c : byte) : Buffer := b ++ [c].
Definition Write (b : Buffer) (p : list byte) : Buffer := b ++ p.
Definition Bytes (b : Buffer) : list byte := b.

Record Packet : Type := mkPacket { payload : Buffer }.

(** [new(Packet)] *)
Definition newPacket : Packet := mkPacket [].

(** [for range n { body }] *)
Definition for_range {A : Type} (n : nat) (body : A -> A) (a : A) : A :=
  Nat.iter n body a.

(** [writeHeader] writes 6 bytes of 0xFF to the packet payload. *)
Definition writeHeader (p : Packet) : Packet :=
  for_range 6 (fun p => mkPacket (WriteByte (payload p) 0xFF)) p.

(** [WriteMAC] writes the target MAC address 16 times to the payload. *)
Definition WriteMAC (p : Packet) (addr : string) : Packet * option error :=
  let '(hwAddr, err) := net.ParseMAC addr in
  match err with
  | Some e => (p, Some (Wrapf "invalid MAC address %q: %w" [ArgS addr] e))
  | None => (for_range 16 (fun p => mkPacket (Write (payload p) hwAddr)) p, None)
  end.

(** ** The transmitter *)

(** [getRAddr] parses the remote IP address.  If [addr] is empty, returns the
    broadcast address (255.255.255.255). *)
Definition getRAddr (addr : string) : net.IP * option error :=
  if (addr =? "")%string then (net.IPv4 255 255 255 255, None)
  else
    let rAddr := net.ParseIP addr in
    match rAddr with
    | [] => ([], Some (Errorf "invalid remote address %q" [ArgS addr]))
    | _ => (rAddr, None)
    end.

(** [for _, v := range l { if x == v { return ... } }]: whether the loop
    returns. *)
Fixpoint range_has (x : Z) (l : list Z) : bool :=
  match l with
  | [] => false
  | v :: l' => if x =? v then true else range_has x l'
  end.

(** [getPort] parses and validates the destination port.  Accepted ports:
    0 (any), 7 (echo), 9 (discard).  Default is 9 if empty. *)
Definition getPort (port : string) : Z * option error :=
  let acceptedPorts := [0; 7; 9] in
  let defaultPort := 9 in
  if (port =? "")%string then (defaultPort, None)
  else
    let '(portNum, err) := strconv.Atoi port in
    match err with
    | Some e => (0, Some (Wrapf "invalid port %q: %w" [ArgS port] e))
    | None =>
        if range_has portNum acceptedPorts then (portNum, None)
        else (0, Some (Errorf "port %d not supported (use 0, 7, or 9)"
                         [ArgD portNum]))
    end.

(** *** The network

    [net.UDPAddr], the events that a run leaves on the network and on the
    standard output, and the network itself: what [net.DialUDP] and the
    [Write] of the connection answer. *)

Record UDPAddr : Type := mkUDPAddr { addr_IP : net.IP; addr_Port : Z }.

Inductive printed : Type :=
| PErr (e : error)
| PStr (s : string)
| PInt (n : Z)
| PBytes (b : list byte).

Inductive event : Type :=
| EvDial (network : string) (raddr : UDPAddr)     (* net.DialUDP(network, nil, &raddr) *)
| EvWrite (raddr : UDPAddr) (b : list byte)        (* conn.Write(b) *)
| EvClose (raddr : UDPAddr)                        (* conn.Close() *)
| EvPrint (what : list printed).                   (* fmt.Print, Println, Printf *)

Record Network : Type := mkNetwork {
  dial_error : string -> UDPAddr -> option error;
  write_error : UDPAddr -> list byte -> option error
}.

(** A computation with effects: given the network, its result and the trace
    of its events. *)
Definition IO (A : Type) : Type := Network -> A * list event.

Definition ret {A : Type} (a : A) : IO A := fun _ => (a, []).

Definition bind {A B : Type} (m : IO A) (k : A -> IO B) : IO B :=
  fun nw =>
    let '(a, t1) := m nw in
    let '(b, t2) := k a nw in
    (b, t1 ++ t2).

Declare Scope io_scope.
Delimit Scope io_scope with io.
Notation "x <- m ;; k" := (bind m (fun x => k))
  (at level 61, m at next level, right associativity) : io_scope.
Notation "m ;;; k" := (bind m (fun _ => k))
  (at level 61, right associativity) : io_scope.
Local Open Scope io_scope.

Definition emit (ev : event) : IO unit := fun _ => (tt, [ev]).

(** [conn, err := net.DialUDP(network, nil, &raddr)]: the connection is
    represented by the address it is connected to. *)
Definition DialUDP (network : string) (raddr : UDPAddr) : IO (option error) :=
  fun nw => (dial_error nw network raddr, [EvDial network raddr]).

(** [_, err = conn.Write(b)] *)
Definition conn_Write (conn : UDPAddr) (b : list byte) : IO (option error) :=
  fun nw => (write_error nw conn b, [EvWrite conn b]).

(** [defer conn.Close()]: runs when the function returns. *)
Definition defer_Close {A : Type} (conn : UDPAddr) (body : IO A) : IO A :=
  r <- body ;; emit (EvClose conn) ;;; ret r.

(** [SendUDP] sends the constructed magic packet via UDP to the target
    address and port. *)
Definition SendUDP (p : Packet) (ip port : string) : IO (option error) :=
  let network := "udp4" in
  let '(remoteIP, err) := getRAddr ip in
  match err with
  | Some e => ret (Some (Wrapf "parse remote IP: %w" [] e))
  | None =>
      let '(remotePort, err) := getPort port in
      match err with
      | Some e => ret (Some (Wrapf "parse port: %w" [] e))
      | None =>
          let raddr := mkUDPAddr remoteIP remotePort in
          err <- DialUDP network raddr ;;
          match err with
          | Some e => ret (Some (Wrapf "dial UDP: %w" [] e))
          | None =>
              defer_Close raddr
                (err <- conn_Write raddr (Bytes (payload p)) ;;
                 match err with
                 | Some e => ret (Some (Wrapf "write UDP packet: %w" [] e))
                 | None => ret None
                 end)
          end
      end
  end.

(** ** The entry point *)

(** [SendMagic] sends a Wake-on-LAN magic packet to wake up a remote
    computer. *)
Definition SendMagic (macAddr passwd ip port : string) : IO (option error) :=
  let pk := newPacket in
  if (passwd =? "")%string then
    (* without password *)
    let pk := writeHeader pk in
    let '(pk, err) := WriteMAC pk macAddr in
    match err with
    | Some e => ret (Some (Wrapf "write MAC address: %w" [] e))
    | None =>
        (* send via UDP4 *)
        err <- SendUDP pk ip port ;;
        match err with
        | Some e => ret (Some (Wrapf "send UDP: %w" [] e))
        | None => ret None
        end
    end
  else
    (* with password *)
    ret (Some (Errorf "password-protected Wake-on-LAN not supported yet" [])).

(** ** The earlier version of the package (second half of [magic.go])

    It prints the errors of the validation steps and goes on; its [SendUDP]
    panics when the dial fails and prints the payload instead of writing
    it. *)

Inductive outcome (A : Type) : Type :=
| Returned (a : A)
| Panicked (v : error).

Arguments Returned {A} a.
Arguments Panicked {A} v.

Module Legacy.

(** [for range n { body }] with effects. *)
Fixpoint for_rangeM {A : Type} (n : nat) (body : A -> IO A) (a : A) : IO A :=
  match n with
  | O => ret a
  | S n' => a' <- body a ;; for_rangeM n' body a'
  end.

Definition writeHeader (p : Packet) : IO Packet :=
  for_rangeM 6
    (fun p =>
       let ff := [255] in
       emit (EvPrint [PBytes ff]) ;;;
       ret (mkPacket (Write (payload p) ff)))
    p.

Definition WriteMAC (p : Packet) (addr : string) : Packet * option error :=
  let '(hwAddr, err) := net.ParseMAC addr in
  match err with
  | Some e => (p, Some e)
  | None =>
      if negb ((len addr =? 17)%nat || (len addr =? 14)%nat) then
        (p, Some (Errorf "address %s: invalid EUI-48 format" [ArgS addr]))
      else
        (for_range 16 (fun p => mkPacket (Write (payload p) hwAddr)) p, None)
  end.

Definition getRAddr (addr : string) : net.IP * option error :=
  let dfltRAddr := net.IPv4 255 255 255 255 in
  let rAddr := net.ParseIP addr in
  match rAddr with
  | [] =>
      (dfltRAddr,
       Some (Errorf
         "remote address %v: invalid, but we still try to send magic over your local network"
         [ArgS addr]))
  | _ => (rAddr, None)
  end.

Definition getPort (port : string) : IO (Z * option error) :=
  let acptPort := [0; 7; 9] in
  let dfltPort := 9 in
  let '(ps, err) := strconv.Atoi port in
  ps <- match err with
        | Some _ => emit (EvPrint [PInt dfltPort]) ;;; ret dfltPort
        | None => ret ps
        end ;;
  if range_has ps acptPort then ret (ps, None)
  else
    ret (dfltPort,
         Some (Errorf "port %d: invalid, we've selected port %d for you"
                 [ArgD ps; ArgD dfltPort])).

(** [if err != nil { fmt.Println(err) }] *)
Definition print_if_error (err : option error) : IO unit :=
  match err with
  | Some e => emit (EvPrint [PErr e])
  | None => ret tt
  end.

Definition SendUDP (p : Packet) (ip port : string) : IO (outcome (option error)) :=
  let network := "udp4" in
  let '(remoteIP, err) := getRAddr ip in
  print_if_error err ;;;
  r <- getPort port ;;
  let '(remotePort, err) := r in
  print_if_error err ;;;
  let raddr := mkUDPAddr remoteIP remotePort in
  err <- DialUDP network raddr ;;
  match err with
  | Some e => ret (Panicked e)
  | None =>
      defer_Close raddr
        (emit (EvPrint [PStr "The payload: %X.\n"; PBytes (Bytes (payload p))]) ;;;
         ret (Returned None))
  end.

Definition SendMagic (macAddr passwd ip port : string) : IO (outcome (option error)) :=
  let pk := newPacket in
  pk <- (if (passwd =? "")%string then
           (* without password *)
           pk <- writeHeader pk ;;
           let '(pk, err) := WriteMAC pk macAddr in
           match err with
           | Some e => emit (EvPrint [PErr e])
           | None => emit (EvPrint [PStr "Send magic packet without password..."])
           end ;;;
           ret pk
         else
           (* with password *)
           emit (EvPrint [PStr "We don't support Wake-on-LAN password yet..."]) ;;;
           ret pk) ;;
  (* then send via UDP4 *)
  r <- SendUDP pk ip port ;;
  match r with
  | Panicked v => ret (Panicked v)
  | Returned (Some e) => ret (Returned (Some e))
  | Returned None => ret (Returned None)
  end.

End Legacy.

(** * Specification-side definitions

    The notions that the specification names, written from its words; the
    theorems below compare them with the functions above. *)

Module Spec.

(** The position of [c] in [alphabet], counted from [i]. *)
Fixpoint index_in (c : ascii) (alphabet : string) (i : Z) : option Z :=
  match alphabet with
  | EmptyString => None
  | String c' rest => if Ascii.eqb c c' then Some i else index_in c rest (i + 1)
  end.

(** The value of a hexadecimal character, case-insensitive. *)
Definition hex_value (c : ascii) : option Z :=
  match index_in c "0123456789abcdef" 0 with
  | Some v => Some v
  | None => index_in c "ABCDEF" 10
  end.

(** The octet that a pair of hexadecimal characters denotes. *)
Definition hex_pair (hi lo : ascii) : option Z :=
  match hex_value hi, hex_value lo with
  | Some h, Some l => Some (16 * h + l)
  | _, _ => None
  end.

Definition is_delimiter (c : ascii) : bool :=
  Ascii.eqb c ":" || Ascii.eqb c "-".

(** A MAC address of 6 octets in the notation ["xx:xx:xx:xx:xx:xx"] or
    ["xx-xx-xx-xx-xx-xx"]: its six octets. *)
Definition mac48 (s : string) : option (list Z) :=
  match list_ascii_of_string s with
  | [a1; a2; s1; b1; b2; s2; c1; c2; s3; d1; d2; s4; e1; e2; s5; f1; f2] =>
      if is_delimiter s1 && Ascii.eqb s2 s1 && Ascii.eqb s3 s1
         && Ascii.eqb s4 s1 && Ascii.eqb s5 s1
      then
        match hex_pair a1 a2, hex_pair b1 b2, hex_pair c1 c2,
              hex_pair d1 d2, hex_pair e1 e2, hex_pair f1 f2 with
        | Some a, Some b, Some c, Some d, Some e, Some f => Some [a; b; c; d; e; f]
        | _, _, _, _, _, _ => None
        end
      else None
  | _ => None
  end%char.

(** The value of a decimal digit. *)
Definition digit_value (c : ascii) : option Z := index_in c "0123456789" 0.

(** The number that the decimal digits of [s] denote, after those that gave
    [acc]. *)
Fixpoint digits_value (s : string) (acc : Z) : option Z :=
  match s with
  | EmptyString => Some acc
  | String c rest =>
      match digit_value c with
      | Some d => digits_value rest (acc * 10 + d)
      | None => None
      end
  end.

(** An integer in decimal notation: an optional sign and at least one
    digit. *)
Definition decimal_int (s : string) : option Z :=
  match s with
  | EmptyString => None
  | String c rest =>
      if Ascii.eqb c "+" then
        if (rest =? "")%string then None else digits_value rest 0
      else if Ascii.eqb c "-" then
        if (rest =? "")%string then None
        else match digits_value rest 0 with
             | Some v => Some (- v)
             | None => None
             end
      else digits_value s 0
  end.

(** The port that a port string designates: 9 for the empty string, else
    the integer that the string denotes if it is one of 0, 7 and 9. *)
Definition accepted_port (port : string) : option Z :=
  if (port =? "")%string then Some 9
  else
    match decimal_int port with
    | Some n => if (n =? 0) || (n =? 7) || (n =? 9) then Some n else None
    | None => None
    end.

(** The two errors of an invalid port. *)
Definition invalid_port (port : string) (e : error) : Prop :=
  (exists kind, e = Wrapf "invalid port %q: %w" [ArgS port] (NumError "Atoi" port kind))
  \/ (exists n, e = Errorf "port %d not supported (use 0, 7, or 9)" [ArgD n]
                /\ n <> 0 /\ n <> 7 /\ n <> 9).

(** The fields of [s] between its dots. *)
Fixpoint split_dots (s : string) : list string :=
  match s with
  | EmptyString => [""]
  | String c rest =>
      if Ascii.eqb c "." then "" :: split_dots rest
      else
        match split_dots rest with
        | f :: fs => String c f :: fs
        | [] => [String c ""]
        end
  end.

(** A field of a strict dotted quad: the decimal notation of a number of
    [0, 255], without leading zero. *)
Definition octet (f : string) : option Z :=
  match f with
  | EmptyString => None
  | String c rest =>
      if Ascii.eqb c "0" && negb (rest =? "")%string then None
      else
        match digits_value f 0 with
        | Some v => if v <=? 255 then Some v else None
        | None => None
        end
  end.

(** A strict dotted-quad IPv4 address: its four octets. *)
Definition dotted_quad (s : string) : option (Z * Z * Z * Z) :=
  match split_dots s with
  | [f1; f2; f3; f4] =>
      match octet f1, octet f2, octet f3, octet f4 with
      | Some a, Some b, Some c, Some d => Some (a, b, c, d)
      | _, _, _, _ => None
      end
  | _ => None
  end.

(** Whether [s] has a colon, as every IPv6 literal has. *)
Fixpoint has_colon (s : string) : bool :=
  match s with
  | EmptyString => false
  | String c rest => Ascii.eqb c ":" || has_colon rest
  end.

(** *** IPv6 literals

    The textual representation of an IPv6 address, as RFC 4291 (section
    2.2) writes it: groups of hexadecimal digits between colons. *)

(** Whether the character [c] occurs in [s]. *)
Fixpoint contains (c : ascii) (s : string) : bool :=
  match s with
  | EmptyString => false
  | String c' rest => Ascii.eqb c' c || contains c rest
  end.

(** The fields of [s] between its colons. *)
Fixpoint split_colons (s : string) : list string :=
  match s with
  | EmptyString => [""]
  | String c rest =>
      if Ascii.eqb c ":" then "" :: split_colons rest
      else
        match split_colons rest with
        | f :: fs => String c f :: fs
        | [] => [String c ""]
        end
  end.

(** The parts of [s] before and after the first place where two colons
    follow each other, if there is one. *)
Fixpoint split_ellipsis (s : string) : option (string * string) :=
  match s with
  | EmptyString => None
  | String c rest =>
      match rest with
      | EmptyString => None
      | String c' rest' =>
          if Ascii.eqb c ":" && Ascii.eqb c' ":" then Some ("", rest')
          else
            match split_ellipsis rest with
            | Some (l, r) => Some (String c l, r)
            | None => None
            end
      end
  end.

(** The number that the hexadecimal digits of [s] denote, after those that
    gave [acc]. *)
Fixpoint hex_digits_value (s : string) (acc : Z) : option Z :=
  match s with
  | EmptyString => Some acc
  | String c rest =>
      match hex_value c with
      | Some d => hex_digits_value rest (acc * 16 + d)
      | None => None
      end
  end.

(** A group of an IPv6 literal, one to four hexadecimal digits: its two
    bytes, the high one first. *)
Definition hex_group (f : string) : option (list Z) :=
  if (1 <=? String.length f)%nat && (String.length f <=? 4)%nat then
    match hex_digits_value f 0 with
    | Some v => Some [v / 256; v mod 256]
    | None => None
    end
  else None.

(** The bytes of the groups [fs]. *)
Fixpoint groups (fs : list string) : option (list Z) :=
  match fs with
  | [] => Some []
  | f :: fs' =>
      match hex_group f, groups fs' with
      | Some b, Some bs => Some (b ++ bs)
      | _, _ => None
      end
  end.

(** The last field of an IPv6 literal: a group, or a strict dotted quad for
    the last four bytes. *)
Definition last_field (f : string) : option (list Z) :=
  match hex_group f with
  | Some b => Some b
  | None =>
      match dotted_quad f with
      | Some (a, b, c, d) => Some [a; b; c; d]
      | None => None
      end
  end.

(** The bytes of the groups [fs], the last of which may be a dotted quad. *)
Fixpoint groups_v4 (fs : list string) : option (list Z) :=
  match fs with
  | [] => Some []
  | f :: fs' =>
      match fs' with
      | [] => last_field f
      | _ :: _ =>
          match hex_group f, groups_v4 fs' with
          | Some b, Some bs => Some (b ++ bs)
          | _, _ => None
          end
      end
  end.

(** An IPv6 literal without zone: eight groups between colons, of which the
    last two may be written as a dotted quad; one ["::"] may stand for one
    or more groups of zeros.  Its sixteen bytes. *)
Definition ipv6_literal (s : string) : option (list Z) :=
  if contains "%" s then None
  else
    match split_ellipsis s with
    | None =>
        match groups_v4 (split_colons s) with
        | Some bs => if (List.length bs =? 16)%nat then Some bs else None
        | None => None
        end
    | Some (l, r) =>
        match (if (l =? "")%string then Some [] else groups (split_colons l)),
              (if (r =? "")%string then Some [] else groups_v4 (split_colons r)) with
        | Some lb, Some rb =>
            if (List.length lb + List.length rb <=? 14)%nat
            then Some (lb ++ repeat 0 (16 - List.length lb - List.length rb) ++ rb)
            else None
        | _, _ => None
        end
    end.

End Spec.

(** * The command-line tool (package [main])

    [flag.Parse] is the library's: the model starts from the values that
    the four flags have after it, and gives the exit status of the process
    ([os.Exit], or 0 when [main] returns) with what was printed and what
    happened on the network. *)

Module cmd.

Record Flags : Type := mkFlags {
  macAddr : string;     (* -mac, default "" *)
  ip : string;          (* -ip, default "255.255.255.255" *)
  port : string;        (* -port, default "9" *)
  helpFlag : bool       (* -help, default false *)
}.

(** The output of the program: [fmt.Printf] and [fmt.Println] on the
    standard output ([Println] is its argument and a newline),
    [fmt.Fprintf(os.Stderr, ...)], [flag.PrintDefaults()], and the events of
    the network. *)
Inductive output : Type :=
| Stdout (format : string) (args : list printed)
| Stderr (format : string) (args : list printed)
| PrintDefaults
| Net (ev : event).

Definition usage : string :=
"Wake-on-LAN Magic Packet Sender

Usage:
  wakeonlan -mac <address> [options]

Examples:
  # Send to a specific MAC address using default broadcast
  wakeonlan -mac 00:11:22:33:44:55

  # Send to a specific IP and port
  wakeonlan -mac 00:11:22:33:44:55 -ip 192.168.1.255 -port 9

  # Use dash-separated MAC format
  wakeonlan -mac 00-11-22-33-44-55 -ip 192.168.1.100

Options:
".

Definition printHelp : list output := [Stderr usage []; PrintDefaults].

Definition main (f : Flags) (nw : Network) : Z * list output :=
  (* Show help if requested *)
  if helpFlag f then (0, printHelp)
  (* Validate required MAC address *)
  else if (macAddr f =? "")%string then
    (1, Stderr "Error: MAC address is required\n\n" [] :: printHelp)
  else
    (* Send magic packet *)
    let banner :=
      [Stdout "Sending Wake-on-LAN magic packet...\n" [];
       Stdout "  MAC Address: %s\n" [PStr (macAddr f)];
       Stdout "  Broadcast IP: %s\n" [PStr (ip f)];
       Stdout "  Port: %s\n" [PStr (port f)];
       Stdout "\n" []] in
    let '(err, tr) := SendMagic (macAddr f) "" (ip f) (port f) nw in
    match err with
    | Some e => (1, banner ++ map Net tr ++ [Stderr "Error: %v\n" [PErr e]])
    | None =>
        (0, banner ++ map Net tr
              ++ [Stdout "✓ Magic packet sent successfully\n" []])
    end.

End cmd.

(** * Auxiliary definitions of the proofs *)

(** The integers of Go's [int], of 64 bits. *)
Definition int64_range (n : Z) : bool := (- 2 ^ 63 <=? n) && (n <? 2 ^ 63).

(** The loop of [parseIPv4] cut at the dots: what it makes of the rest [f]
    of a field, [val] and [digLen] being what the digits before [f] gave, *)
Fixpoint octet_from (f : string) (val digLen : Z) : option Z :=
  match f with
  | EmptyString => if digLen =? 0 then None else Some val
  | String c f' =>
      if net.isdigit c then
        if (digLen =? 1) && (val =? 0) then None
        else
          let val := val * 10 + code c - code "0"%char in
          if 255 <? val then None else octet_from f' val (digLen + 1)
      else None
  end.

(** and of the fields [fs] that follow a field of value [v]. *)
Fixpoint fields_from (fs : list string) (v pos : Z) (fields : list byte)
    : option (list byte) :=
  match fs with
  | [] => if pos <? 3 then None else Some (net.store fields 3 (v mod 256))
  | f :: fs' =>
      if pos =? 3 then None
      else
        match octet_from f 0 0 with
        | None => None
        | Some v' =>
            fields_from fs' v' (pos + 1)
              (net.store fields (Z.to_nat pos) (v mod 256))
        end
  end.

(** What [parseIPv6] makes of the state in which its loop ends: the sixteen
    bytes of the address. *)
Definition v6_finish (r : option net.v6state) : option (list byte) :=
  match r with
  | None => None
  | Some st =>
      if negb (len (net.v6_s st) =? 0)%nat then None
      else if (net.v6_i st <? 16)%nat then
        if net.v6_ellipsis st <? 0 then None
        else
          let e := Z.to_nat (net.v6_ellipsis st) in
          let n := (16 - net.v6_i st)%nat in
          Some (firstn e (net.v6_ip st) ++ repeat 0 n
                  ++ firstn (net.v6_i st - e) (skipn e (net.v6_ip st)))
      else if 0 <=? net.v6_ellipsis st then None
      else Some (net.v6_ip st)
  end.

(** The groups of [s] as they continue an address whose first [i] bytes are
    [pre] and that has had no ["::"] yet. *)
Definition v6_rest (s : string) (pre : list Z) (i : nat) : option (list Z) :=
  match Spec.split_ellipsis s with
  | None =>
      match Spec.groups_v4 (Spec.split_colons s) with
      | Some bs => if (i + List.length bs =? 16)%nat then Some (pre ++ bs) else None
      | None => None
      end
  | Some (l, r) =>
      match Spec.groups (Spec.split_colons l),
            (if (r =? "")%string then Some [] else Spec.groups_v4 (Spec.split_colons r)) with
      | Some lb, Some rb =>
          if (i + List.length lb + List.length rb <=? 14)%nat
          then Some (pre ++ lb
                       ++ repeat 0 (16 - i - List.length lb - List.length rb) ++ rb)
          else None
      | _, _ => None
      end
  end.

(** The same after the ["::"], [pl] being the bytes before it and [pr] those
    after it. *)
Definition v6_rest_after (s : string) (pl pr : list Z) (i : nat) : option (list Z) :=
  match Spec.groups_v4 (Spec.split_colons s) with
  | Some bs =>
      if (i + List.length bs <=? 14)%nat
      then Some (pl ++ repeat 0 (16 - i - List.length bs) ++ pr ++ bs)
      else None
  | None => None
  end.

(** The connections that a trace leaves open: a successful dial opens one,
    a close releases it. *)
Definition UDPAddr_eqb (a b : UDPAddr) : bool :=
  (if list_eq_dec Z.eq_dec (addr_IP a) (addr_IP b) then true else false)
  && (addr_Port a =? addr_Port b).

Fixpoint remove_first (a : UDPAddr) (l : list UDPAddr) : list UDPAddr :=
  match l with
  | [] => []
  | b :: l' => if UDPAddr_eqb a b then l' else b :: remove_first a l'
  end.

Fixpoint unreleased (nw : Network) (tr : list event) (open : list UDPAddr)
    : list UDPAddr :=
  match tr with
  | [] => open
  | EvDial network raddr :: tr' =>
      match dial_error nw network raddr with
      | None => unreleased nw tr' (raddr :: open)
      | Some _ => unreleased nw tr' open
      end
  | EvClose raddr :: tr' => unreleased nw tr' (remove_first raddr open)
  | _ :: tr' => unreleased nw tr' open
  end.

(** A network on which every dial and every write succeeds, and one that
    refuses every dial. *)
Definition reliable_network : Network :=
  mkNetwork (fun _ _ => None) (fun _ _ => None).

Definition unreachable_network : Network :=
  mkNetwork (fun _ _ => Some (OpError "dial" 101)) (fun _ _ => None).

(** What a trace shows of the network: the datagrams written and the
    destinations dialled. *)
Fixpoint datagrams (tr : list event) : list (list byte) :=
  match tr with
  | [] => []
  | EvWrite _ b :: tr' => b :: datagrams tr'
  | _ :: tr' => datagrams tr'
  end.

Fixpoint dialled (tr : list event) : list (string * UDPAddr) :=
  match tr with
  | [] => []
  | EvDial network raddr :: tr' => (network, raddr) :: dialled tr'
  | _ :: tr' => dialled tr'
  end.

(** The events of the network in the output of the command-line tool. *)
Fixpoint net_events (out : list cmd.output) : list event :=
  match out with
  | [] => []
  | cmd.Net ev :: out' => ev :: net_events out'
  | _ :: out' => net_events out'
  end.

(** An event of the standard output. *)
Definition is_print (ev : event) : Prop :=
  match ev with
  | EvPrint _ => True
  | _ => False
  end.

(** A byte, and the three ports of the package. *)
Definition is_byte (b : Z) : Prop := 0 <= b < 256.

Definition wol_port (n : Z) : Prop := n = 0 \/ n = 7 \/ n = 9.

(** The upper-case letters of a string turned to lower case. *)
Definition lower_char (c : ascii) : ascii :=
  if (code "A"%char <=? code c) && (code c <=? code "Z"%char)
  then ascii_of_N (N_of_ascii c + 32)
  else c.

Fixpoint to_lower (s : string) : string :=
  match s with
  | EmptyString => EmptyString
  | String c rest => String (lower_char c) (to_lower rest)
  end.

Ltac each_char c :=
  destruct c as [[] [] [] [] [] [] [] []]; vm_compute; try reflexivity.

(** * Properties *)

(** ** Characters *)

Lemma hexdigit_hex_value (c : ascii) : net.hexdigit c = Spec.hex_value c.
Proof. each_char c. Qed.

Lemma hex_value_range (c : ascii) (v : Z) : Spec.hex_value c = Some v -> 0 <= v < 16.
Proof.
  intros H.
  destruct c as [[] [] [] [] [] [] [] []]; vm_compute in H;
    try discriminate H; injection H as <-; lia.
Qed.

(** ** The packet builder *)

Lemma xtoi_pair (c1 c2 : ascii) (h l : Z) :
  Spec.hex_value c1 = Some h -> Spec.hex_value c2 = Some l ->
  net.xtoi (String c1 (String c2 "")) = (16 * h + l, 2%nat, true).
Proof.
  intros H1 H2.
  pose proof (hex_value_range _ _ H1). pose proof (hex_value_range _ _ H2).
  unfold net.xtoi. cbn [net.xtoi_loop Nat.eqb].
  rewrite !hexdigit_hex_value, H1, H2. unfold net.big.
  destruct (Z.leb_spec 16777215 (0 * 16 + h)); [lia|].
  destruct (Z.leb_spec 16777215 ((0 * 16 + h) * 16 + l)); [lia|].
  do 2 f_equal. lia.
Qed.

(** [xtoi2] on a pair of hexadecimal characters followed by nothing or by
    the expected delimiter. *)
Lemma xtoi2_pair (c1 c2 e : ascii) (rest : string) (h l : Z) :
  Spec.hex_value c1 = Some h -> Spec.hex_value c2 = Some l ->
  rest = "" \/ (exists rest', rest = String e rest') ->
  net.xtoi2 (String c1 (String c2 rest)) e = (16 * h + l, true).
Proof.
  intros H1 H2 Hrest.
  pose proof (hex_value_range _ _ H1). pose proof (hex_value_range _ _ H2).
  unfold net.xtoi2.
  assert (Hguard : ((2 <? len (String c1 (String c2 rest)))%nat
                    && negb (ceq (at_ (String c1 (String c2 rest)) 2) e)) = false).
  { destruct Hrest as [-> | [rest' ->]]; [reflexivity|].
    cbn. unfold ceq. rewrite Ascii.eqb_refl. reflexivity. }
  rewrite Hguard.
  assert (Hslice : slice (String c1 (String c2 rest)) 0 2 = String c1 (String c2 "")).
  { unfold slice. cbn. now destruct rest. }
  rewrite Hslice, (xtoi_pair _ _ _ _ H1 H2).
  cbn [Nat.eqb andb]. f_equal. apply Z.mod_small. lia.
Qed.

Lemma substring_all (s : string) : String.substring 0 (String.length s) s = s.
Proof. induction s as [|c s IH]; simpl; [reflexivity | now rewrite IH]. Qed.

Lemma from_0 (s : string) : from s 0 = s.
Proof. unfold from, len. rewrite Nat.sub_0_r. apply substring_all. Qed.

Lemma from_S (c : ascii) (s : string) (i : nat) : from (String c s) (S i) = from s i.
Proof. reflexivity. Qed.

Lemma hex_pair_inv (c1 c2 : ascii) (v : Z) :
  Spec.hex_pair c1 c2 = Some v ->
  exists h l, Spec.hex_value c1 = Some h /\ Spec.hex_value c2 = Some l /\ v = 16 * h + l.
Proof.
  unfold Spec.hex_pair. intros H.
  destruct (Spec.hex_value c1) as [h|]; [|discriminate].
  destruct (Spec.hex_value c2) as [l|]; [|discriminate].
  injection H as <-. now exists h, l.
Qed.

(** [net.ParseMAC] accepts every address in the 6-octet colon or hyphen
    notation and decodes it to the octets that the notation denotes. *)
Lemma ParseMAC_mac48 (s : string) (hw : list Z) :
  Spec.mac48 s = Some hw -> net.ParseMAC s = (hw, None).
Proof.
  unfold Spec.mac48. intros H.
  do 17 (destruct s as [|? s]; [discriminate H|]).
  destruct s; [|discriminate H].
  cbn [list_ascii_of_string] in H.
  destruct (Spec.is_delimiter a1 && (a4 =? a1)%char && (a7 =? a1)%char
            && (a10 =? a1)%char && (a13 =? a1)%char) eqn:Hsep; [|discriminate H].
  repeat (apply andb_prop in Hsep; destruct Hsep as [Hsep ?]).
  repeat match goal with
         | E : (_ =? _)%char = true |- _ => apply Ascii.eqb_eq in E; subst
         end.
  repeat match type of H with
         | match Spec.hex_pair ?x ?y with _ => _ end = _ =>
             let E := fresh "E" in
             destruct (Spec.hex_pair x y) eqn:E; [|discriminate H];
             apply hex_pair_inv in E; destruct E as (? & ? & ? & ? & ->)
         end.
  injection H as <-.
  assert (Hd : ceq a1 ":" || ceq a1 "-" = true) by exact Hsep.
  unfold net.ParseMAC.
  cbn [len String.length Nat.ltb Nat.leb at_ String.get].
  rewrite Hd.
  change (negb ((17 + 1) mod 3 =? 0)%nat) with false.
  change ((17 + 1) / 3)%nat with 6%nat.
  change (net.wrong_size 6) with false.
  cbn [net.mac_loop3 Nat.add at_ String.get].
  rewrite !from_S, !from_0.
  repeat (erewrite xtoi2_pair; [| eassumption | eassumption | eauto]).
  reflexivity.
Qed.

(** Conversely, what [xtoi2] accepts is a pair of hexadecimal characters
    followed by nothing or by the delimiter. *)
Lemma xtoi2_inv (c1 c2 e : ascii) (rest : string) (b : byte) :
  net.xtoi2 (String c1 (String c2 rest)) e = (b, true) ->
  Spec.hex_pair c1 c2 = Some b
  /\ match rest with
     | EmptyString => True
     | String c _ => c = e
     end.
Proof.
  unfold net.xtoi2, Spec.hex_pair.
  assert (Hslice : slice (String c1 (String c2 rest)) 0 2 = String c1 (String c2 "")).
  { unfold slice. cbn. now destruct rest. }
  rewrite Hslice. clear Hslice.
  destruct ((2 <? len (String c1 (String c2 rest)))%nat
            && negb (ceq (at_ (String c1 (String c2 rest)) 2) e)) eqn:Hguard;
    [discriminate|].
  unfold net.xtoi. cbn [net.xtoi_loop Nat.eqb]. rewrite !hexdigit_hex_value.
  destruct (Spec.hex_value c1) as [h|] eqn:H1; [|discriminate].
  pose proof (hex_value_range _ _ H1).
  unfold net.big. destruct (Z.leb_spec 16777215 (0 * 16 + h)); [lia|].
  destruct (Spec.hex_value c2) as [l|] eqn:H2; [|discriminate].
  pose proof (hex_value_range _ _ H2).
  destruct (Z.leb_spec 16777215 ((0 * 16 + h) * 16 + l)); [lia|].
  intros Hb. apply (f_equal fst) in Hb. cbn [fst] in Hb.
  rewrite Z.mod_small in Hb by lia. split.
  - f_equal. lia.
  - destruct rest as [|c rest]; [exact I|].
    cbn in Hguard. unfold ceq in Hguard.
    destruct (Ascii.eqb_spec c e); [assumption | discriminate Hguard].
Qed.

(** On the strings of 17 characters [net.ParseMAC] accepts the 6-octet
    colon and hyphen notation and nothing else. *)
Lemma ParseMAC_17 (s : string) (hw : list byte) :
  len s = 17%nat -> net.ParseMAC s = (hw, None) -> Spec.mac48 s = Some hw.
Proof.
  intros Hlen H.
  do 17 (destruct s as [|? s]; [discriminate Hlen|]).
  destruct s; [|discriminate Hlen]. clear Hlen.
  unfold net.ParseMAC in H.
  cbn [len String.length Nat.ltb Nat.leb at_ String.get] in H.
  change (negb ((17 + 1) mod 3 =? 0)%nat) with false in H.
  change (negb ((17 + 1) mod 5 =? 0)%nat) with true in H.
  change ((17 + 1) / 3)%nat with 6%nat in H.
  change (net.wrong_size 6) with false in H.
  cbv iota in H.
  destruct (ceq a1 ":" || ceq a1 "-") eqn:Hd;
    [| destruct (ceq a3 "."); discriminate H].
  cbn [net.mac_loop3 Nat.add at_ String.get] in H.
  rewrite !from_S, !from_0 in H.
  repeat match type of H with
         | context [net.xtoi2 (String ?x (String ?y ?r)) ?e] =>
             let b := fresh "b" in
             let ok := fresh "ok" in
             let E := fresh "E" in
             destruct (net.xtoi2 (String x (String y r)) e) as [b ok] eqn:E;
             destruct ok; [apply xtoi2_inv in E; destruct E as [E ?] | discriminate H]
         end.
  subst. apply (f_equal fst) in H. cbn [fst] in H. subst hw.
  unfold Spec.mac48. cbn [list_ascii_of_string].
  unfold Spec.is_delimiter. unfold ceq in Hd. rewrite Hd, !Ascii.eqb_refl.
  cbn [andb].
  repeat match goal with
         | E : Spec.hex_pair _ _ = Some _ |- _ => rewrite E; clear E
         end.
  reflexivity.
Qed.

Example ParseMAC_colon :
  net.ParseMAC "00:11:22:33:44:55" = ([0x00; 0x11; 0x22; 0x33; 0x44; 0x55], None).
Proof. reflexivity. Qed.

Example ParseMAC_hyphen_upper :
  net.ParseMAC "AA-BB-CC-DD-EE-FF" = ([0xAA; 0xBB; 0xCC; 0xDD; 0xEE; 0xFF], None).
Proof. reflexivity. Qed.

Example ParseMAC_all_zero :
  net.ParseMAC "00:00:00:00:00:00" = ([0; 0; 0; 0; 0; 0], None).
Proof. reflexivity. Qed.

Example ParseMAC_all_ff :
  net.ParseMAC "ff:ff:ff:ff:ff:ff" = ([255; 255; 255; 255; 255; 255], None).
Proof. reflexivity. Qed.

Example ParseMAC_empty :
  net.ParseMAC "" = ([], Some (AddrError "invalid MAC address" "")).
Proof. reflexivity. Qed.

Example ParseMAC_mixed_delimiters :
  net.ParseMAC "00:11-22:33:44:55"
  = ([], Some (AddrError "invalid MAC address" "00:11-22:33:44:55")).
Proof. reflexivity. Qed.

Example ParseMAC_too_short :
  net.ParseMAC "00:11:22:33:44"
  = ([], Some (AddrError "invalid MAC address" "00:11:22:33:44")).
Proof. reflexivity. Qed.

Example ParseMAC_not_hex :
  net.ParseMAC "00:11:22:33:44:5g"
  = ([], Some (AddrError "invalid MAC address" "00:11:22:33:44:5g")).
Proof. reflexivity. Qed.

Example ParseMAC_no_delimiter :
  net.ParseMAC "aabbccddeeff"
  = ([], Some (AddrError "invalid MAC address" "aabbccddeeff")).
Proof. reflexivity. Qed.

Lemma mac48_length (s : string) (hw : list Z) :
  Spec.mac48 s = Some hw -> List.length hw = 6%nat.
Proof.
  unfold Spec.mac48. intros H.
  repeat match type of H with
         | match ?x with _ => _ end = _ => destruct x; try discriminate H
         | (if ?x then _ else _) = _ => destruct x; try discriminate H
         end.
  now injection H as <-.
Qed.

Lemma concat_repeat_snoc {A : Type} (l : list A) (n : nat) :
  List.concat (repeat l n) ++ l = l ++ List.concat (repeat l n).
Proof.
  induction n as [|n IH]; simpl.
  - now rewrite app_nil_r.
  - now rewrite <- app_assoc, IH.
Qed.

Lemma for_range_Write (hw : list byte) (n : nat) (p : Packet) :
  payload (for_range n (fun p => mkPacket (Write (payload p) hw)) p)
  = payload p ++ List.concat (repeat hw n).
Proof.
  unfold for_range, Write. induction n as [|n IH]; simpl.
  - now rewrite app_nil_r.
  - now rewrite IH, <- app_assoc, concat_repeat_snoc.
Qed.

Lemma writeHeader_payload (p : Packet) :
  payload (writeHeader p) = payload p ++ repeat 0xFF 6.
Proof.
  unfold writeHeader, for_range, WriteByte. simpl.
  now rewrite <- !app_assoc.
Qed.

(** The two results of [WriteMAC], by the result of [net.ParseMAC]. *)
Lemma WriteMAC_ok (p : Packet) (addr : string) (hw : list byte) :
  net.ParseMAC addr = (hw, None) ->
  exists p', WriteMAC p addr = (p', None)
             /\ payload p' = payload p ++ List.concat (repeat hw 16).
Proof.
  intros H. unfold WriteMAC. rewrite H.
  eexists. split; [reflexivity|]. apply for_range_Write.
Qed.

Lemma WriteMAC_error (p : Packet) (addr : string) (hw : list byte) (e : error) :
  net.ParseMAC addr = (hw, Some e) ->
  WriteMAC p addr = (p, Some (Wrapf "invalid MAC address %q: %w" [ArgS addr] e)).
Proof. intros H. unfold WriteMAC. now rewrite H. Qed.

Lemma WriteMAC_inv (p p' : Packet) (addr : string) :
  WriteMAC p addr = (p', None) ->
  exists hw, net.ParseMAC addr = (hw, None)
             /\ payload p' = payload p ++ List.concat (repeat hw 16).
Proof.
  unfold WriteMAC. destruct (net.ParseMAC addr) as [hw [e|]] eqn:E; intros H.
  - discriminate H.
  - apply (f_equal fst) in H. cbn [fst] in H. subst p'.
    exists hw. split; [reflexivity|]. exact (for_range_Write hw 16 p).
Qed.

(** C1: for every MAC string in the 6-octet colon or hyphen notation,
    [writeHeader] then [WriteMAC] on a fresh packet succeed with a payload of
    exactly 102 bytes, whose first 6 bytes are 0xFF and whose bytes
    [6+6k, 6+6k+6) are the decoded address, for every k in 0..15. *)
Theorem magic_packet_layout (addr : string) (hw : list Z) :
  Spec.mac48 addr = Some hw ->
  exists p,
    WriteMAC (writeHeader newPacket) addr = (p, None)
    /\ net.ParseMAC addr = (hw, None)
    /\ List.length hw = 6%nat
    /\ List.length (payload p) = 102%nat
    /\ firstn 6 (payload p) = repeat 0xFF 6
    /\ forall k : nat, (k < 16)%nat -> firstn 6 (skipn (6 + 6 * k) (payload p)) = hw.
Proof.
  intros H.
  pose proof (mac48_length _ _ H) as Hlen.
  apply ParseMAC_mac48 in H.
  destruct (WriteMAC_ok (writeHeader newPacket) addr hw H) as (p & Hw & Hp).
  rewrite writeHeader_payload in Hp.
  exists p. repeat split; try assumption.
  - rewrite Hp.
    do 7 (destruct hw as [|? hw]; try discriminate Hlen). reflexivity.
  - rewrite Hp. reflexivity.
  - intros k Hk. rewrite Hp.
    do 7 (destruct hw as [|? hw]; try discriminate Hlen).
    do 16 (destruct k as [|k]; [reflexivity|]). lia.
Qed.

Lemma magic_packet_layout_witness :
  exists p,
    WriteMAC (writeHeader newPacket) "00:11:22:33:44:55" = (p, None)
    /\ net.ParseMAC "00:11:22:33:44:55" = ([0x00; 0x11; 0x22; 0x33; 0x44; 0x55], None)
    /\ List.length [0x00; 0x11; 0x22; 0x33; 0x44; 0x55] = 6%nat
    /\ List.length (payload p) = 102%nat
    /\ firstn 6 (payload p) = repeat 0xFF 6
    /\ forall k : nat, (k < 16)%nat ->
         firstn 6 (skipn (6 + 6 * k) (payload p)) = [0x00; 0x11; 0x22; 0x33; 0x44; 0x55].
Proof.
  apply (magic_packet_layout "00:11:22:33:44:55"). reflexivity.
Defined.

(** C9: [writeHeader] and [WriteMAC] only append.  Whatever the buffer
    holds, [writeHeader] keeps it and appends six bytes 0xFF; a successful
    [WriteMAC] keeps it and appends sixteen copies of the parsed address, so
    that a second successful [WriteMAC] grows the payload further. *)
Theorem writes_only_append (p : Packet) :
  payload (writeHeader p) = payload p ++ repeat 0xFF 6
  /\ forall (addr1 : string) (p1 : Packet),
       WriteMAC p addr1 = (p1, None) ->
       exists hw1,
         net.ParseMAC addr1 = (hw1, None)
         /\ payload p1 = payload p ++ List.concat (repeat hw1 16)
         /\ forall (addr2 : string) (p2 : Packet),
              WriteMAC p1 addr2 = (p2, None) ->
              exists hw2,
                net.ParseMAC addr2 = (hw2, None)
                /\ payload p2
                   = payload p ++ List.concat (repeat hw1 16) ++ List.concat (repeat hw2 16).
Proof.
  split; [apply writeHeader_payload|].
  intros addr1 p1 H1.
  destruct (WriteMAC_inv _ _ _ H1) as (hw1 & E1 & P1).
  exists hw1. repeat split; try assumption.
  intros addr2 p2 H2.
  destruct (WriteMAC_inv _ _ _ H2) as (hw2 & E2 & P2).
  exists hw2. split; [assumption|].
  now rewrite P2, P1, <- app_assoc.
Qed.

Lemma writes_only_append_witness :
  payload (writeHeader (mkPacket [1; 2; 3])) = [1; 2; 3] ++ repeat 0xFF 6
  /\ exists hw1,
       net.ParseMAC "00:11:22:33:44:55" = (hw1, None)
       /\ payload (fst (WriteMAC (mkPacket [1; 2; 3]) "00:11:22:33:44:55"))
          = [1; 2; 3] ++ List.concat (repeat hw1 16).
Proof.
  destruct (writes_only_append (mkPacket [1; 2; 3])) as [Hh Hm].
  split; [exact Hh|].
  destruct (Hm "00:11:22:33:44:55"
              (fst (WriteMAC (mkPacket [1; 2; 3]) "00:11:22:33:44:55"))
              eq_refl) as (hw1 & E & P & _).
  exists hw1. split; assumption.
Defined.

(** ** The transmitter *)

Lemma UDPAddr_eqb_refl (a : UDPAddr) : UDPAddr_eqb a a = true.
Proof.
  unfold UDPAddr_eqb. rewrite Z.eqb_refl.
  now destruct (list_eq_dec Z.eq_dec (addr_IP a) (addr_IP a)).
Qed.

(** The result of [SendUDP] once the two parsing steps are decided. *)
Lemma SendUDP_invalid_ip (p : Packet) (ip port : string) (nw : Network)
    (a : net.IP) (e : error) :
  getRAddr ip = (a, Some e) ->
  SendUDP p ip port nw = (Some (Wrapf "parse remote IP: %w" [] e), []).
Proof. intros H. unfold SendUDP. now rewrite H. Qed.

Lemma SendUDP_invalid_port (p : Packet) (ip port : string) (nw : Network)
    (a : net.IP) (n : Z) (e : error) :
  getRAddr ip = (a, None) -> getPort port = (n, Some e) ->
  SendUDP p ip port nw = (Some (Wrapf "parse port: %w" [] e), []).
Proof. intros H1 H2. unfold SendUDP. now rewrite H1, H2. Qed.

Lemma SendUDP_resolved (p : Packet) (ip port : string) (nw : Network)
    (a : net.IP) (n : Z) :
  getRAddr ip = (a, None) -> getPort port = (n, None) ->
  SendUDP p ip port nw =
    let raddr := mkUDPAddr a n in
    match dial_error nw "udp4" raddr with
    | Some e => (Some (Wrapf "dial UDP: %w" [] e), [EvDial "udp4" raddr])
    | None =>
        (match write_error nw raddr (Bytes (payload p)) with
         | Some e => Some (Wrapf "write UDP packet: %w" [] e)
         | None => None
         end,
         [EvDial "udp4" raddr; EvWrite raddr (Bytes (payload p)); EvClose raddr])
    end.
Proof.
  intros H1 H2. unfold SendUDP. rewrite H1, H2.
  unfold bind, DialUDP, defer_Close, conn_Write, bind, emit, ret. cbn.
  destruct (dial_error nw "udp4" (mkUDPAddr a n)); [reflexivity|].
  now destruct (write_error nw (mkUDPAddr a n) (Bytes (payload p))).
Qed.

(** No path of [SendUDP] leaves a connection open. *)
Lemma SendUDP_releases (p : Packet) (ip port : string) (nw : Network) :
  unreleased nw (snd (SendUDP p ip port nw)) [] = [].
Proof.
  destruct (getRAddr ip) as [a [e|]] eqn:Ea.
  - now rewrite (SendUDP_invalid_ip p ip port nw a e Ea).
  - destruct (getPort port) as [n [e|]] eqn:En.
    + now rewrite (SendUDP_invalid_port p ip port nw a n e Ea En).
    + rewrite (SendUDP_resolved p ip port nw a n Ea En). cbv zeta.
      destruct (dial_error nw "udp4" (mkUDPAddr a n)) eqn:Ed; cbn; rewrite Ed;
        [reflexivity | now rewrite UDPAddr_eqb_refl].
Qed.

(** C8: [SendUDP] releases the socket on every path; and once the
    destination and the port are resolved, it dials the destination and,
    when the dial succeeds, writes the bytes accumulated in the packet,
    all of them and in their order, as one datagram and closes the
    connection; it returns an error exactly when the dial or the write
    fails, the error wrapping the network's. *)
Theorem SendUDP_transmits (p : Packet) (ip port : string) (nw : Network) :
  unreleased nw (snd (SendUDP p ip port nw)) [] = []
  /\ forall (remoteIP : net.IP) (remotePort : Z),
       getRAddr ip = (remoteIP, None) ->
       getPort port = (remotePort, None) ->
       let raddr := mkUDPAddr remoteIP remotePort in
       let datagram : list byte := payload p in
       SendUDP p ip port nw =
         match dial_error nw "udp4" raddr with
         | Some e => (Some (Wrapf "dial UDP: %w" [] e), [EvDial "udp4" raddr])
         | None =>
             (match write_error nw raddr datagram with
              | Some e => Some (Wrapf "write UDP packet: %w" [] e)
              | None => None
              end,
              [EvDial "udp4" raddr; EvWrite raddr datagram; EvClose raddr])
         end
       /\ (fst (SendUDP p ip port nw) <> None <->
           dial_error nw "udp4" raddr <> None
           \/ (dial_error nw "udp4" raddr = None
               /\ write_error nw raddr datagram <> None)).
Proof.
  split; [apply SendUDP_releases|].
  intros remoteIP remotePort H1 H2 raddr datagram.
  rewrite (SendUDP_resolved p ip port nw _ _ H1 H2). cbv zeta.
  change (Bytes (payload p)) with datagram. fold raddr.
  split; [reflexivity|].
  destruct (dial_error nw "udp4" raddr) as [e|] eqn:Ed.
  - split; [intros _; left; discriminate | intros _; discriminate].
  - destruct (write_error nw raddr datagram) as [e|]; cbn; split.
    + intros _. right. split; [reflexivity | discriminate].
    + intros _. discriminate.
    + intros H. now elim H.
    + intros [H | [_ H]]; now elim H.
Qed.

Lemma SendUDP_transmits_witness :
  SendUDP (mkPacket [255; 255; 1; 2; 3]) "192.168.1.255" "7" reliable_network
  = (None,
     [EvDial "udp4" (mkUDPAddr (net.IPv4 192 168 1 255) 7);
      EvWrite (mkUDPAddr (net.IPv4 192 168 1 255) 7) [255; 255; 1; 2; 3];
      EvClose (mkUDPAddr (net.IPv4 192 168 1 255) 7)]).
Proof.
  exact (proj1 (proj2 (SendUDP_transmits (mkPacket [255; 255; 1; 2; 3])
                         "192.168.1.255" "7" reliable_network)
                  (net.IPv4 192 168 1 255) 7 eq_refl eq_refl)).
Defined.

(** C10: [SendUDP] validates the destination address before the port.  When
    the address is invalid the error returned is the one of the address,
    wrapped as a failure to parse the remote IP, nothing is sent, and the
    result is the same for every port string: the port is not examined. *)
Theorem SendUDP_address_before_port (p : Packet) (ip port : string)
    (nw : Network) (e : error) :
  snd (getRAddr ip) = Some e ->
  snd (getPort port) <> None ->
  SendUDP p ip port nw = (Some (Wrapf "parse remote IP: %w" [] e), [])
  /\ e = Errorf "invalid remote address %q" [ArgS ip]
  /\ forall port' : string, SendUDP p ip port' nw = SendUDP p ip port nw.
Proof.
  intros H _.
  destruct (getRAddr ip) as [a err] eqn:E. cbn in H. subst err.
  split; [| split].
  - apply (SendUDP_invalid_ip p ip port nw a e E).
  - unfold getRAddr in E.
    destruct (ip =? "")%string; [discriminate E|].
    destruct (net.ParseIP ip); [|discriminate E].
    now injection E as _ <-.
  - intros port'.
    now rewrite (SendUDP_invalid_ip p ip port nw a e E),
                (SendUDP_invalid_ip p ip port' nw a e E).
Qed.

Lemma SendUDP_address_before_port_witness :
  SendUDP (mkPacket []) "999.1.1.1" "80" reliable_network
  = (Some (Wrapf "parse remote IP: %w" []
             (Errorf "invalid remote address %q" [ArgS "999.1.1.1"])), []).
Proof.
  refine (proj1 (SendUDP_address_before_port (mkPacket []) "999.1.1.1" "80"
                   reliable_network _ eq_refl _)).
  vm_compute. discriminate.
Defined.

(** ** The entry point *)

(** The result of [SendMagic] at each stage. *)
Lemma SendMagic_password (macAddr passwd ip port : string) (nw : Network) :
  passwd <> "" ->
  SendMagic macAddr passwd ip port nw
  = (Some (Errorf "password-protected Wake-on-LAN not supported yet" []), []).
Proof.
  intros H. unfold SendMagic.
  destruct (String.eqb_spec passwd ""); [contradiction | reflexivity].
Qed.

Lemma SendMagic_invalid_MAC (macAddr ip port : string) (nw : Network)
    (hw : list byte) (e : error) :
  net.ParseMAC macAddr = (hw, Some e) ->
  SendMagic macAddr "" ip port nw
  = (Some (Wrapf "write MAC address: %w" []
             (Wrapf "invalid MAC address %q: %w" [ArgS macAddr] e)), []).
Proof.
  intros H. unfold SendMagic. cbn [String.eqb].
  now rewrite (WriteMAC_error _ _ _ _ H).
Qed.

Lemma SendMagic_valid_MAC (macAddr ip port : string) (nw : Network)
    (hw : list byte) :
  net.ParseMAC macAddr = (hw, None) ->
  SendMagic macAddr "" ip port nw
  = let pk := mkPacket (repeat 0xFF 6 ++ List.concat (repeat hw 16)) in
    let '(err, tr) := SendUDP pk ip port nw in
    (match err with
     | Some e => Some (Wrapf "send UDP: %w" [] e)
     | None => None
     end, tr).
Proof.
  intros H. unfold SendMagic. cbn [String.eqb].
  destruct (WriteMAC_ok (writeHeader newPacket) macAddr hw H) as (p & Hw & Hp).
  rewrite Hw. rewrite writeHeader_payload in Hp. cbn [payload newPacket app] in Hp.
  destruct p as [b]. cbn [payload] in Hp. subst b.
  unfold bind.
  destruct (SendUDP _ ip port nw) as [[e|] tr]; cbn; now rewrite app_nil_r.
Qed.

(** C3: with a non-empty password [SendMagic] returns at once the error of
    the unsupported feature: the result does not depend on the MAC address,
    the IP address, the port or the network, and the trace is empty. *)
Theorem SendMagic_password_unsupported (macAddr passwd ip port : string)
    (nw : Network) :
  passwd <> "" ->
  SendMagic macAddr passwd ip port nw
  = (Some (Errorf "password-protected Wake-on-LAN not supported yet" []), [])
  /\ forall (macAddr' ip' port' : string) (nw' : Network),
       SendMagic macAddr' passwd ip' port' nw' = SendMagic macAddr passwd ip port nw.
Proof.
  intros H. split.
  - now apply SendMagic_password.
  - intros. now rewrite !SendMagic_password.
Qed.

Lemma SendMagic_password_unsupported_witness :
  SendMagic "00:11:22:33:44:55" "nonempty" "255.255.255.255" "9" reliable_network
  = (Some (Errorf "password-protected Wake-on-LAN not supported yet" []), []).
Proof.
  refine (proj1 (SendMagic_password_unsupported "00:11:22:33:44:55" "nonempty"
                   "255.255.255.255" "9" reliable_network _)).
  discriminate.
Defined.

(** Every error of [SendMagic] without password wraps its cause, and no
    event happens before the validation of the MAC address, of the IP
    address and of the port is over. *)
Lemma SendMagic_error_stages (macAddr ip port : string) (nw : Network) :
  let '(err, tr) := SendMagic macAddr "" ip port nw in
  match net.ParseMAC macAddr with
  | (_, Some e) =>
      err = Some (Wrapf "write MAC address: %w" []
                    (Wrapf "invalid MAC address %q: %w" [ArgS macAddr] e))
      /\ tr = []
  | (hw, None) =>
      match getRAddr ip with
      | (_, Some e) =>
          err = Some (Wrapf "send UDP: %w" [] (Wrapf "parse remote IP: %w" [] e))
          /\ tr = []
      | (remoteIP, None) =>
          match getPort port with
          | (_, Some e) =>
              err = Some (Wrapf "send UDP: %w" [] (Wrapf "parse port: %w" [] e))
              /\ tr = []
          | (remotePort, None) =>
              let raddr := mkUDPAddr remoteIP remotePort in
              let datagram := repeat 0xFF 6 ++ List.concat (repeat hw 16) in
              match dial_error nw "udp4" raddr with
              | Some e =>
                  err = Some (Wrapf "send UDP: %w" [] (Wrapf "dial UDP: %w" [] e))
                  /\ tr = [EvDial "udp4" raddr]
              | None =>
                  tr = [EvDial "udp4" raddr; EvWrite raddr datagram; EvClose raddr]
                  /\ err = match write_error nw raddr datagram with
                           | Some e =>
                               Some (Wrapf "send UDP: %w" []
                                       (Wrapf "write UDP packet: %w" [] e))
                           | None => None
                           end
              end
          end
      end
  end.
Proof.
  destruct (net.ParseMAC macAddr) as [hw [e|]] eqn:Em.
  - rewrite (SendMagic_invalid_MAC _ ip port nw _ _ Em). now split.
  - rewrite (SendMagic_valid_MAC _ ip port nw _ Em). cbv zeta.
    destruct (getRAddr ip) as [a [e|]] eqn:Ea.
    + rewrite (SendUDP_invalid_ip _ ip port nw _ _ Ea). now split.
    + destruct (getPort port) as [n [e|]] eqn:En.
      * rewrite (SendUDP_invalid_port _ ip port nw _ _ _ Ea En). now split.
      * rewrite (SendUDP_resolved _ ip port nw _ _ Ea En). cbv zeta.
        cbn [payload Bytes].
        destruct (dial_error nw "udp4" (mkUDPAddr a n)); [now split|].
        split; [reflexivity|].
        now destruct (write_error nw (mkUDPAddr a n) _).
Qed.

(** The error that [SendMagic] returns without password wraps the error of
    the stage that failed. *)
Lemma SendMagic_wraps_cause (macAddr ip port : string) (nw : Network) (err : error) :
  fst (SendMagic macAddr "" ip port nw) = Some err ->
  exists cause,
    wraps err cause
    /\ (snd (net.ParseMAC macAddr) = Some cause
        \/ snd (getRAddr ip) = Some cause
        \/ snd (getPort port) = Some cause
        \/ (exists raddr, dial_error nw "udp4" raddr = Some cause)
        \/ (exists raddr b, write_error nw raddr b = Some cause)).
Proof.
  pose proof (SendMagic_error_stages macAddr ip port nw) as H.
  destruct (SendMagic macAddr "" ip port nw) as [r tr]. cbn [fst].
  intros ->.
  assert (W : forall f g a b e, wraps (Wrapf f a (Wrapf g b e)) e).
  { intros. eapply wraps_step; [reflexivity|].
    eapply wraps_step; [reflexivity | apply wraps_refl]. }
  destruct (net.ParseMAC macAddr) as [hw [e|]].
  { destruct H as [H _]. injection H as ->. exists e. split; [apply W | left; reflexivity]. }
  destruct (getRAddr ip) as [a [e|]].
  { destruct H as [H _]. injection H as ->. exists e.
    split; [apply W | right; left; reflexivity]. }
  destruct (getPort port) as [n [e|]].
  { destruct H as [H _]. injection H as ->. exists e.
    split; [apply W | right; right; left; reflexivity]. }
  cbv zeta in H.
  destruct (dial_error nw "udp4" (mkUDPAddr a n)) as [e|] eqn:Ed.
  { destruct H as [H _]. injection H as ->. exists e.
    split; [apply W | right; right; right; left; eexists; eassumption]. }
  destruct H as [_ H].
  destruct (write_error nw (mkUDPAddr a n) _) as [e|] eqn:Ew; [|discriminate H].
  injection H as ->. exists e.
  split; [apply W | right; right; right; right; eexists _, _; eassumption].
Qed.

(** The end-to-end scenarios of the specification. *)
Example scenario_explicit_defaults :
  exists datagram,
    SendMagic "00:11:22:33:44:55" "" "255.255.255.255" "9" reliable_network
    = (None, [EvDial "udp4" (mkUDPAddr (net.IPv4 255 255 255 255) 9);
              EvWrite (mkUDPAddr (net.IPv4 255 255 255 255) 9) datagram;
              EvClose (mkUDPAddr (net.IPv4 255 255 255 255) 9)])
    /\ datagram = repeat 0xFF 6 ++ List.concat (repeat [0x00; 0x11; 0x22; 0x33; 0x44; 0x55] 16)
    /\ List.length datagram = 102%nat.
Proof. eexists. split; [vm_compute; reflexivity|]. split; reflexivity. Qed.

Example scenario_defaults :
  SendMagic "00-11-22-33-44-55" "" "" "" reliable_network
  = SendMagic "00:11:22:33:44:55" "" "255.255.255.255" "9" reliable_network.
Proof. reflexivity. Qed.

Example scenario_bad_mac :
  SendMagic "bad-mac" "" "255.255.255.255" "9" reliable_network
  = (Some (Wrapf "write MAC address: %w" []
             (Wrapf "invalid MAC address %q: %w" [ArgS "bad-mac"]
                (AddrError "invalid MAC address" "bad-mac"))), []).
Proof. reflexivity. Qed.

(** ** Where the code leaves the specification *)

(** C2: [WriteMAC] hands the address to [net.ParseMAC], which also accepts
    EUI-64 addresses, 20-octet addresses and the dotted form.  The 8-octet
    address below is not a 6-octet colon or hyphen address, and yet
    [WriteMAC] succeeds on it and the payload grows to 6 + 16 * 8 = 134
    bytes; the earlier version of [WriteMAC] rejects it by its length. *)
Theorem WriteMAC_accepts_EUI64 :
  Spec.mac48 "02:00:5e:10:00:00:00:01" = None
  /\ (exists p,
        WriteMAC (writeHeader newPacket) "02:00:5e:10:00:00:00:01" = (p, None)
        /\ List.length (payload p) = 134%nat)
  /\ snd (Legacy.WriteMAC (writeHeader newPacket) "02:00:5e:10:00:00:00:01")
     = Some (Errorf "address %s: invalid EUI-48 format"
               [ArgS "02:00:5e:10:00:00:00:01"])
  /\ Spec.mac48 "0011.2233.4455" = None
  /\ snd (WriteMAC (writeHeader newPacket) "0011.2233.4455") = None.
Proof.
  split; [reflexivity|]. split; [eexists; split; [vm_compute|]; reflexivity|].
  repeat split; reflexivity.
Qed.

(** C6: the same 8-octet address is malformed for the specification (wrong
    length), and yet [WriteMAC] appends 128 bytes to the header and
    [SendMagic] transmits the 134 bytes. *)
Theorem SendMagic_transmits_EUI64 :
  Spec.mac48 "02:00:5e:10:00:00:00:01" = None
  /\ payload (fst (WriteMAC (writeHeader newPacket) "02:00:5e:10:00:00:00:01"))
     <> payload (writeHeader newPacket)
  /\ exists datagram,
       SendMagic "02:00:5e:10:00:00:00:01" "" "255.255.255.255" "9" reliable_network
       = (None, [EvDial "udp4" (mkUDPAddr (net.IPv4 255 255 255 255) 9);
                 EvWrite (mkUDPAddr (net.IPv4 255 255 255 255) 9) datagram;
                 EvClose (mkUDPAddr (net.IPv4 255 255 255 255) 9)])
       /\ List.length datagram = 134%nat.
Proof.
  split; [reflexivity|]. split; [discriminate|].
  eexists. split; [vm_compute|]; reflexivity.
Qed.

(** What holds of [WriteMAC] and [SendMagic] on the addresses that
    [net.ParseMAC] rejects: the buffer is left as it was, and [SendMagic]
    returns the error without any event on the network. *)
Lemma rejected_MAC_not_transmitted (p : Packet) (macAddr ip port : string)
    (nw : Network) (e : error) :
  snd (net.ParseMAC macAddr) = Some e ->
  WriteMAC p macAddr
  = (p, Some (Wrapf "invalid MAC address %q: %w" [ArgS macAddr] e))
  /\ SendMagic macAddr "" ip port nw
     = (Some (Wrapf "write MAC address: %w" []
                (Wrapf "invalid MAC address %q: %w" [ArgS macAddr] e)), []).
Proof.
  destruct (net.ParseMAC macAddr) as [hw err] eqn:E. cbn. intros ->.
  split.
  - apply (WriteMAC_error _ _ _ _ E).
  - apply (SendMagic_invalid_MAC _ _ _ _ _ _ E).
Qed.

(** C7: the earlier [SendMagic] prints the error of the MAC address and goes
    on: on the invalid address of the package's own test it dials, and
    returns no error.  With a password it prints a message and dials too. *)
Theorem Legacy_SendMagic_swallows_errors :
  let bcast := mkUDPAddr (net.IPv4 255 255 255 255) 9 in
  snd (net.ParseMAC "invalid") = Some (AddrError "invalid MAC address" "invalid")
  /\ Legacy.SendMagic "invalid" "" "255.255.255.255" "9" reliable_network
     = (Returned None,
        repeat (EvPrint [PBytes [255]]) 6
        ++ [EvPrint [PErr (AddrError "invalid MAC address" "invalid")];
            EvDial "udp4" bcast;
            EvPrint [PStr "The payload: %X.\n"; PBytes (repeat 0xFF 6)];
            EvClose bcast])
  /\ SendMagic "invalid" "" "255.255.255.255" "9" reliable_network
     = (Some (Wrapf "write MAC address: %w" []
                (Wrapf "invalid MAC address %q: %w" [ArgS "invalid"]
                   (AddrError "invalid MAC address" "invalid"))), []).
Proof. repeat split; reflexivity. Qed.

(** The earlier [getRAddr] gives the broadcast address together with its
    error, also for the empty string. *)
Lemma Legacy_getRAddr_substitutes (addr : string) :
  net.ParseIP addr = [] ->
  fst (Legacy.getRAddr addr) = net.IPv4 255 255 255 255
  /\ snd (Legacy.getRAddr addr) <> None.
Proof. intros H. unfold Legacy.getRAddr. rewrite H. now split. Qed.

(** ** [strconv.Atoi] and the port *)

Lemma digit_value_fast (c : ascii) :
  match Spec.digit_value c with
  | Some d => (code c - code "0"%char) mod 256 = d /\ 0 <= d <= 9
  | None => 9 < (code c - code "0"%char) mod 256
  end.
Proof. each_char c; repeat split; discriminate. Qed.

Lemma digit_value_slow (c : ascii) :
  match Spec.digit_value c with
  | Some d => strconv.digit_of (code c) = Some d /\ 0 <= d <= 9
  | None => strconv.digit_of (code c) = None
            \/ exists d, strconv.digit_of (code c) = Some d /\ 10 <= d
  end.
Proof.
  each_char c; try (repeat split; discriminate); try (now left);
    right; eexists; (split; [reflexivity | discriminate]).
Qed.

Lemma Atoi_loop_digits (s : string) (n : Z) :
  strconv.Atoi_loop s n = Spec.digits_value s n.
Proof.
  revert n. induction s as [|c s IH]; intros n; [reflexivity|].
  cbn [strconv.Atoi_loop Spec.digits_value].
  pose proof (digit_value_fast c) as H.
  destruct (Spec.digit_value c) as [d|].
  - destruct H as [-> Hd]. destruct (Z.ltb_spec 9 d); [lia | apply IH].
  - destruct (Z.ltb_spec 9 ((code c - code "0"%char) mod 256)); [reflexivity | lia].
Qed.

Lemma digits_value_bound (s : string) (acc v : Z) :
  0 <= acc -> Spec.digits_value s acc = Some v ->
  acc * 10 ^ Z.of_nat (len s) <= v < (acc + 1) * 10 ^ Z.of_nat (len s).
Proof.
  revert acc. induction s as [|c s IH]; intros acc Hacc H.
  - cbn in H. injection H as <-. cbn. lia.
  - cbn [Spec.digits_value] in H.
    pose proof (digit_value_fast c) as Hd.
    destruct (Spec.digit_value c) as [d|]; [|discriminate H].
    destruct Hd as [_ Hd].
    apply IH in H; [|lia].
    unfold len in *. cbn [String.length].
    rewrite Nat2Z.inj_succ, Z.pow_succ_r by lia.
    assert (0 < 10 ^ Z.of_nat (String.length s)) by (apply Z.pow_pos_nonneg; lia).
    nia.
Qed.

(** The loop of [ParseUint] on decimal digits: their value if it fits 64
    bits, else a range error. *)
Lemma ParseUint_loop_digits (rest s0 : string) (n : Z) :
  0 <= n < 2 ^ 64 ->
  match Spec.digits_value rest n with
  | Some v =>
      strconv.ParseUint_loop rest s0 n
      = if v <? 2 ^ 64 then (v, None)
        else (strconv.maxUint64, Some (strconv.rangeError "ParseUint" s0))
  | None =>
      exists v kind, strconv.ParseUint_loop rest s0 n
                     = (v, Some (NumError "ParseUint" s0 kind))
  end.
Proof.
  revert n. induction rest as [|c rest IH]; intros n Hn.
  - cbn [Spec.digits_value strconv.ParseUint_loop].
    destruct (Z.ltb_spec n (2 ^ 64)); [reflexivity | lia].
  - cbn [Spec.digits_value strconv.ParseUint_loop].
    pose proof (digit_value_slow c) as Hc.
    destruct (Spec.digit_value c) as [d|].
    + destruct Hc as [-> Hd].
      destruct (Z.leb_spec 10 d); [lia|].
      unfold strconv.maxUint64 in *.
      change (2 ^ 64) with 18446744073709551616 in *.
      change ((18446744073709551616 - 1) / 10 + 1) with 1844674407370955162.
      change (18446744073709551616 - 1) with 18446744073709551615.
      destruct (Z.leb_spec 1844674407370955162 n).
      * (* n * 10 overflows *)
        destruct (Spec.digits_value rest (n * 10 + d)) as [v|] eqn:E.
        -- apply digits_value_bound in E; [|lia].
           assert (0 < 10 ^ Z.of_nat (len rest)) by (apply Z.pow_pos_nonneg; lia).
           destruct (Z.ltb_spec v 18446744073709551616); [nia | reflexivity].
        -- now eexists _, _.
      * destruct (Z.lt_ge_cases (n * 10 + d) 18446744073709551616) as [Hfit | Hover].
        -- rewrite (Z.mod_small (n * 10 + d)) by lia.
           destruct (Z.ltb_spec (n * 10 + d) (n * 10)); [lia|].
           destruct (Z.ltb_spec 18446744073709551615 (n * 10 + d)); [lia|].
           cbn [orb]. apply IH. lia.
        -- assert (Hm : (n * 10 + d) mod 18446744073709551616
                        = n * 10 + d - 18446744073709551616).
           { symmetry. apply (Z.mod_unique _ _ 1); lia. }
           rewrite Hm.
           destruct (Z.ltb_spec (n * 10 + d - 18446744073709551616) (n * 10)); [|lia].
           cbn [orb].
           destruct (Spec.digits_value rest (n * 10 + d)) as [v|] eqn:E.
           ++ apply digits_value_bound in E; [|lia].
              assert (0 < 10 ^ Z.of_nat (len rest)) by (apply Z.pow_pos_nonneg; lia).
              destruct (Z.ltb_spec v 18446744073709551616); [nia | reflexivity].
           ++ now eexists _, _.
    + destruct Hc as [-> | (d & -> & Hd)].
      * now eexists _, _.
      * destruct (Z.leb_spec 10 d); [|lia]. now eexists _, _.
Qed.

(** What [ParseInt] makes of the unsigned part [body] of its argument [s0]. *)
Lemma ParseUint_signed (s0 body : string) (neg : bool) :
  body <> "" ->
  let result :=
    let '(un, err) := strconv.ParseUint body in
    match err with
    | Some _ =>
        if negb (strconv.is_range err)
        then (0, Some (strconv.syntaxError "ParseInt" s0))
        else if neg
             then (- 2 ^ (strconv.intSize - 1), Some (strconv.rangeError "ParseInt" s0))
             else (2 ^ (strconv.intSize - 1) - 1, Some (strconv.rangeError "ParseInt" s0))
    | None =>
        let cutoff := 2 ^ (strconv.intSize - 1) in
        if negb neg && (cutoff <=? un)
        then (cutoff - 1, Some (strconv.rangeError "ParseInt" s0))
        else if neg && (cutoff <? un)
             then (- cutoff, Some (strconv.rangeError "ParseInt" s0))
             else (if neg then - un else un, None)
    end in
  match Spec.digits_value body 0 with
  | Some v =>
      let n := if neg then - v else v in
      if int64_range n then result = (n, None)
      else exists w, result = (w, Some (NumError "ParseInt" s0 ErrRange))
  | None => exists w kind, result = (w, Some (NumError "ParseInt" s0 kind))
  end.
Proof.
  intros Hbody. cbv zeta. unfold strconv.ParseUint.
  destruct (String.eqb_spec body ""); [contradiction|].
  pose proof (ParseUint_loop_digits body body 0) as H.
  destruct (Spec.digits_value body 0) as [v|] eqn:E.
  - apply digits_value_bound in E; [|lia].
    assert (0 < 10 ^ Z.of_nat (len body)) by (apply Z.pow_pos_nonneg; lia).
    assert (0 <= v) by nia.
    rewrite H by (cbn; lia). clear H.
    unfold int64_range, strconv.intSize, strconv.maxUint64, strconv.rangeError.
    change (- 2 ^ (64 - 1)) with (-9223372036854775808).
    change (- 2 ^ 63) with (-9223372036854775808).
    change (2 ^ (64 - 1)) with 9223372036854775808.
    change (2 ^ 63) with 9223372036854775808.
    change (2 ^ 64) with 18446744073709551616.
    destruct (Z.ltb_spec v 18446744073709551616).
    + destruct neg; cbn [negb andb].
      * destruct (Z.ltb_spec 9223372036854775808 v);
          destruct (Z.leb_spec (-9223372036854775808) (- v));
          destruct (Z.ltb_spec (- v) 9223372036854775808);
          cbn [andb]; try lia; try reflexivity; now eexists.
      * destruct (Z.leb_spec 9223372036854775808 v);
          destruct (Z.leb_spec (-9223372036854775808) v);
          destruct (Z.ltb_spec v 9223372036854775808);
          cbn [andb]; try lia; try reflexivity; now eexists.
    + cbn [strconv.is_range negb].
      destruct neg.
      * destruct (Z.leb_spec (-9223372036854775808) (- v)); [lia|].
        cbn [andb]. now eexists.
      * destruct (Z.ltb_spec v 9223372036854775808); [lia|].
        rewrite andb_false_r. now eexists.
  - destruct H as (w & kind & ->); [cbn; lia|].
    destruct kind; cbn [strconv.is_range negb].
    + now eexists _, _.
    + destruct neg; now eexists _, _.
Qed.

Lemma ParseInt_decimal (s : string) :
  match Spec.decimal_int s with
  | Some n =>
      if int64_range n then strconv.ParseInt s = (n, None)
      else exists w, strconv.ParseInt s = (w, Some (NumError "ParseInt" s ErrRange))
  | None => exists w kind, strconv.ParseInt s = (w, Some (NumError "ParseInt" s kind))
  end.
Proof.
  destruct s as [|c rest]; [now eexists _, _|].
  unfold strconv.ParseInt, Spec.decimal_int, ceq.
  cbn [String.eqb at_ String.get]. rewrite from_S, from_0.
  destruct (Ascii.eqb c "+"); [|destruct (Ascii.eqb c "-")].
  - destruct (String.eqb_spec rest "") as [-> | Hne]; [now eexists _, _|].
    pose proof (ParseUint_signed (String c rest) rest false Hne) as H. cbv zeta in H.
    destruct (strconv.ParseUint rest) as [un err].
    destruct (Spec.digits_value rest 0); exact H.
  - destruct (String.eqb_spec rest "") as [-> | Hne]; [now eexists _, _|].
    pose proof (ParseUint_signed (String c rest) rest true Hne) as H. cbv zeta in H.
    destruct (strconv.ParseUint rest) as [un err].
    destruct (Spec.digits_value rest 0); exact H.
  - assert (Hne : String c rest <> "") by discriminate.
    pose proof (ParseUint_signed (String c rest) (String c rest) false Hne) as H.
    cbv zeta in H.
    destruct (strconv.ParseUint (String c rest)) as [un err].
    destruct (Spec.digits_value (String c rest) 0); exact H.
Qed.

(** [Atoi] gives the integer that its argument denotes in decimal notation
    when it fits 64 bits, and an error on everything else. *)
Lemma Atoi_decimal (s : string) :
  match Spec.decimal_int s with
  | Some n =>
      if int64_range n then strconv.Atoi s = (n, None)
      else exists w, strconv.Atoi s = (w, Some (NumError "Atoi" s ErrRange))
  | None => exists w kind, strconv.Atoi s = (w, Some (NumError "Atoi" s kind))
  end.
Proof.
  unfold strconv.Atoi.
  destruct ((0 <? len s)%nat && (len s <? 19)%nat) eqn:Hfast.
  - (* the fast path *)
    apply andb_prop in Hfast. destruct Hfast as [H0 H19].
    apply Nat.ltb_lt in H0, H19.
    destruct s as [|c rest]; [cbn in H0; lia|].
    unfold Spec.decimal_int, ceq.
    cbn [at_ String.get]. rewrite from_S, from_0.
    assert (Hsmall : forall v, Spec.digits_value rest 0 = Some v ->
                               0 <= v < 10 ^ 18).
    { intros v E. apply digits_value_bound in E; [|lia].
      assert (10 ^ Z.of_nat (len rest) <= 10 ^ 18).
      { apply Z.pow_le_mono_r; [lia|]. cbn in H19. unfold len. lia. }
      lia. }
    destruct (Ascii.eqb_spec c "+") as [-> | Hplus];
      [|destruct (Ascii.eqb_spec c "-") as [-> | Hminus]].
    + cbn [Ascii.eqb Bool.eqb orb andb].
      destruct (String.eqb_spec rest "") as [-> | Hne]; [now eexists _, _|].
      destruct rest as [|c' rest']; [contradiction|].
      cbn [len String.length Nat.ltb Nat.leb]. rewrite Atoi_loop_digits.
      destruct (Spec.digits_value (String c' rest') 0) as [v|];
        [|now eexists _, _].
      specialize (Hsmall v eq_refl). unfold int64_range.
      destruct (Z.leb_spec (- 2 ^ 63) v); [|lia].
      destruct (Z.ltb_spec v (2 ^ 63)); [reflexivity | lia].
    + cbn [Ascii.eqb Bool.eqb orb andb].
      destruct (String.eqb_spec rest "") as [-> | Hne]; [now eexists _, _|].
      destruct rest as [|c' rest']; [contradiction|].
      cbn [len String.length Nat.ltb Nat.leb]. rewrite Atoi_loop_digits.
      destruct (Spec.digits_value (String c' rest') 0) as [v|];
        [|now eexists _, _].
      specialize (Hsmall v eq_refl). unfold int64_range.
      destruct (Z.leb_spec (- 2 ^ 63) (- v)); [|lia].
      destruct (Z.ltb_spec (- v) (2 ^ 63)); [reflexivity | lia].
    + destruct (Ascii.eqb_spec c "-"); [contradiction|].
      destruct (Ascii.eqb_spec c "+"); [contradiction|].
      cbn [orb andb]. rewrite Atoi_loop_digits.
      destruct (Spec.digits_value (String c rest) 0) as [v|] eqn:E;
        [|now eexists _, _].
      assert (0 <= v < 10 ^ 18).
      { apply digits_value_bound in E; [|lia].
        assert (10 ^ Z.of_nat (len (String c rest)) <= 10 ^ 18).
        { apply Z.pow_le_mono_r; [lia|]. lia. }
        lia. }
      unfold int64_range.
      destruct (Z.leb_spec (- 2 ^ 63) v); [|lia].
      destruct (Z.ltb_spec v (2 ^ 63)); [reflexivity | lia].
  - (* the slow path *)
    pose proof (ParseInt_decimal s) as H.
    destruct (Spec.decimal_int s) as [n|].
    + destruct (int64_range n).
      * now rewrite H.
      * destruct H as (w & ->). now eexists.
    + destruct H as (w & kind & ->). now eexists _, _.
Qed.

(** C5: [getPort] returns 9 for the empty string; on a non-empty string it
    succeeds with [n] exactly when the string denotes an integer [n] that is
    0, 7 or 9; every other number and every text that is not a number gives
    an error of an invalid port (and the value 0). *)
Theorem getPort_accepts_0_7_9 (port : string) :
  match Spec.accepted_port port with
  | Some n => getPort port = (n, None)
  | None => exists e, getPort port = (0, Some e) /\ Spec.invalid_port port e
  end
  /\ forall n : Z, getPort port = (n, None) <-> Spec.accepted_port port = Some n.
Proof.
  assert (H1 : match Spec.accepted_port port with
               | Some n => getPort port = (n, None)
               | None => exists e, getPort port = (0, Some e)
                                   /\ Spec.invalid_port port e
               end).
  { unfold getPort, Spec.accepted_port.
    destruct (String.eqb_spec port "") as [-> | Hne]; [reflexivity|].
    pose proof (Atoi_decimal port) as H.
    destruct (Spec.decimal_int port) as [n|].
    - destruct (int64_range n) eqn:Hr.
      + rewrite H. cbn [range_has].
        destruct (Z.eqb_spec n 0); [reflexivity|].
        destruct (Z.eqb_spec n 7); [reflexivity|].
        destruct (Z.eqb_spec n 9); [reflexivity|].
        cbn [orb]. eexists. split; [reflexivity|].
        right. now exists n.
      + destruct H as (w & ->).
        assert (Hn : (n =? 0) || (n =? 7) || (n =? 9) = false).
        { unfold int64_range in Hr.
          destruct (Z.eqb_spec n 0) as [-> | _]; [discriminate Hr|].
          destruct (Z.eqb_spec n 7) as [-> | _]; [discriminate Hr|].
          destruct (Z.eqb_spec n 9) as [-> | _]; [discriminate Hr | reflexivity]. }
        rewrite Hn. eexists. split; [reflexivity|]. left. now eexists.
    - destruct H as (w & kind & ->).
      eexists. split; [reflexivity|]. left. now eexists. }
  split; [exact H1|].
  intros n. destruct (Spec.accepted_port port) as [m|].
  - rewrite H1. split; intros H; injection H as ->; reflexivity.
  - destruct H1 as (e & -> & _). split; discriminate.
Qed.

Example getPort_empty : getPort "" = (9, None).
Proof. reflexivity. Qed.

Example getPort_0 : getPort "0" = (0, None).
Proof. reflexivity. Qed.

Example getPort_7 : getPort "7" = (7, None).
Proof. reflexivity. Qed.

Example getPort_80 :
  getPort "80" = (0, Some (Errorf "port %d not supported (use 0, 7, or 9)" [ArgD 80])).
Proof. reflexivity. Qed.

Example getPort_x :
  getPort "x" = (0, Some (Wrapf "invalid port %q: %w" [ArgS "x"]
                            (NumError "Atoi" "x" ErrSyntax))).
Proof. reflexivity. Qed.

Example getPort_signed_and_padded :
  getPort "+7" = (7, None) /\ getPort "-0" = (0, None)
  /\ getPort "0000000000000000000009" = (9, None).
Proof. repeat split; reflexivity. Qed.

(** ** [net.ParseIP] and the destination address *)

Lemma isdigit_char (c : ascii) :
  if net.isdigit c then
    Spec.digit_value c = Some (code c - code "0"%char)
    /\ 0 <= code c - code "0"%char <= 9
    /\ Ascii.eqb c "." = false /\ Ascii.eqb c ":" = false /\ Ascii.eqb c "%" = false
    /\ Ascii.eqb c "0" = (code c - code "0"%char =? 0)
  else Spec.digit_value c = None /\ Ascii.eqb c "0" = false.
Proof. each_char c; repeat split; discriminate. Qed.

Lemma split_dots_cons (s : string) : exists f fs, Spec.split_dots s = f :: fs.
Proof.
  destruct s as [|c s]; cbn; [now eexists _, _|].
  destruct (Ascii.eqb c "."); [now eexists _, _|].
  destruct (Spec.split_dots s); now eexists _, _.
Qed.

(** The loop of [parseIPv4] reads its input field by field. *)
Lemma parseIPv4_loop_fields (rest : string) :
  forall (i n : nat) (prev : ascii) (val pos digLen : Z) (fields : list byte),
    (i + len rest = n)%nat ->
    0 <= digLen ->
    (digLen = 0 <-> i = 0%nat \/ prev = "."%char) ->
    (digLen = 0 -> rest = "" -> pos < 3) ->
    net.parseIPv4_loop rest i n prev val pos digLen fields
    = match Spec.split_dots rest with
      | f :: fs =>
          match octet_from f val digLen with
          | Some v => fields_from fs v pos fields
          | None => None
          end
      | [] => None
      end.
Proof.
  induction rest as [|c rest IH];
    intros i n prev val pos digLen fields Hn Hd Hz Hend.
  - cbn [net.parseIPv4_loop Spec.split_dots octet_from fields_from].
    destruct (Z.eqb_spec digLen 0) as [E|E]; [|reflexivity].
    destruct (Z.ltb_spec pos 3); [reflexivity|]. specialize (Hend E eq_refl). lia.
  - cbn [net.parseIPv4_loop Spec.split_dots].
    pose proof (isdigit_char c) as Hc.
    destruct (net.isdigit c) eqn:Edig.
    + (* a digit *)
      destruct Hc as (_ & _ & -> & _).
      destruct (split_dots_cons rest) as (f & fs & Es).
      specialize (IH (S i) n c (val * 10 + code c - code "0"%char) pos
                     (digLen + 1) fields).
      rewrite Es in *. cbn [octet_from]. rewrite Edig.
      destruct ((digLen =? 1) && (val =? 0)); [reflexivity|].
      destruct (255 <? val * 10 + code c - code "0"%char); [reflexivity|].
      apply IH.
      * unfold len in *; cbn [String.length] in Hn; lia.
      * lia.
      * split; [lia|]. intros [H | H]; [discriminate H|].
        subst c. discriminate Edig.
      * lia.
    + unfold ceq. destruct (Ascii.eqb_spec c ".") as [-> | Hdot].
      * (* a dot *)
        cbn [octet_from].
        destruct (Z.eqb_spec digLen 0) as [E|E].
        -- apply Hz in E. destruct E as [-> | ->]; [reflexivity|].
           now rewrite orb_true_r.
        -- assert (Hi : (i =? 0)%nat = false).
           { apply Nat.eqb_neq. intros ->. apply E, Hz. now left. }
           assert (Hp : Ascii.eqb prev "." = false).
           { apply Ascii.eqb_neq. intros ->. apply E, Hz. now right. }
           rewrite Hi, Hp, orb_false_r. cbn [orb].
           destruct (split_dots_cons rest) as (f & fs & Es).
           destruct (Nat.eqb_spec i (n - 1)) as [Elast | Elast].
           ++ (* the dot ends the input *)
              assert (rest = "")
                by (destruct rest; [reflexivity | unfold len in *; cbn [String.length] in Hn; lia]).
              subst rest. cbn [Spec.split_dots fields_from octet_from Z.eqb].
              now destruct (pos =? 3).
           ++ rewrite Es. cbn [fields_from].
              destruct (Z.eqb_spec pos 3); [reflexivity|].
              rewrite (IH (S i) n "."%char 0 (pos + 1) 0
                          (net.store fields (Z.to_nat pos) (val mod 256))).
              ** now rewrite Es.
              ** unfold len in *; cbn [String.length] in Hn; lia.
              ** lia.
              ** split; [now right | reflexivity].
              ** intros _ ->. unfold len in *; cbn [String.length] in Hn; lia.
      * (* any other character *)
        destruct (Spec.split_dots rest); cbn [octet_from]; now rewrite Edig.
Qed.

Lemma octet_from_digits (f : string) :
  forall val digLen : Z,
    1 <= val <= 255 -> 1 <= digLen ->
    octet_from f val digLen
    = match Spec.digits_value f val with
      | Some v => if v <=? 255 then Some v else None
      | None => None
      end.
Proof.
  induction f as [|c f IH]; intros val digLen Hval Hlen.
  - cbn [octet_from Spec.digits_value].
    destruct (Z.eqb_spec digLen 0); [lia|].
    destruct (Z.leb_spec val 255); [reflexivity | lia].
  - cbn [octet_from Spec.digits_value].
    pose proof (isdigit_char c) as Hc.
    destruct (net.isdigit c).
    + destruct Hc as (-> & Hd & _).
      destruct (Z.eqb_spec val 0); [lia|]. rewrite andb_false_r.
      replace (val * 10 + code c - code "0"%char)
        with (val * 10 + (code c - code "0"%char)) by lia.
      set (d := code c - code "0"%char) in *.
      destruct (Z.ltb_spec 255 (val * 10 + d)).
      * destruct (Spec.digits_value f (val * 10 + d)) as [v|] eqn:E; [|reflexivity].
        apply digits_value_bound in E; [|lia].
        assert (0 < 10 ^ Z.of_nat (len f)) by (apply Z.pow_pos_nonneg; lia).
        destruct (Z.leb_spec v 255); [nia | reflexivity].
      * apply IH; lia.
    + now destruct Hc as (-> & _).
Qed.

Lemma octet_from_octet (f : string) : octet_from f 0 0 = Spec.octet f.
Proof.
  destruct f as [|c rest]; [reflexivity|].
  cbn [octet_from Spec.octet Spec.digits_value].
  pose proof (isdigit_char c) as Hc.
  destruct (net.isdigit c).
  - destruct Hc as (-> & Hd & _ & _ & _ & ->).
    change ((0 =? 1) && (0 =? 0)) with false. cbv iota.
    replace (0 * 10 + code c - code "0"%char) with (code c - code "0"%char) by lia.
    replace (0 * 10 + (code c - code "0"%char)) with (code c - code "0"%char) by lia.
    set (d := code c - code "0"%char) in *.
    destruct (Z.ltb_spec 255 d); [lia|].
    destruct (Z.eqb_spec d 0) as [-> | Hnz].
    + destruct rest as [|c' rest']; [reflexivity|].
      cbn [octet_from String.eqb negb andb].
      now destruct (net.isdigit c').
    + cbn [andb]. apply octet_from_digits; lia.
  - destruct Hc as (-> & ->). reflexivity.
Qed.

Lemma octet_range (f : string) (v : Z) : Spec.octet f = Some v -> 0 <= v <= 255.
Proof.
  unfold Spec.octet. destruct f as [|c rest]; [discriminate|].
  destruct (Ascii.eqb c "0" && negb (rest =? "")%string); [discriminate|].
  destruct (Spec.digits_value (String c rest) 0) as [w|] eqn:E; [|discriminate].
  apply digits_value_bound in E; [|lia].
  assert (0 < 10 ^ Z.of_nat (len (String c rest))) by (apply Z.pow_pos_nonneg; lia).
  destruct (Z.leb_spec w 255); [|discriminate].
  intros Hv. injection Hv as <-. nia.
Qed.

(** [netip.parseIPv4] accepts exactly the strict dotted quads, and reads
    their four octets. *)
Lemma parseIPv4_dotted_quad (s : string) :
  net.parseIPv4 s
  = match Spec.dotted_quad s with
    | Some (a, b, c, d) => Some [a; b; c; d]
    | None => None
    end.
Proof.
  unfold net.parseIPv4, Spec.dotted_quad.
  rewrite (parseIPv4_loop_fields s 0 (len s) zero 0 0 0 [0; 0; 0; 0]);
    [| reflexivity | lia | split; [now left | reflexivity] | intros; lia].
  destruct (Spec.split_dots s) as [|f1 fs]; [reflexivity|].
  rewrite octet_from_octet.
  destruct fs as [|f2 fs].
  { now destruct (Spec.octet f1). }
  destruct fs as [|f3 fs].
  { destruct (Spec.octet f1); [|reflexivity]. cbn [fields_from Z.eqb].
    rewrite octet_from_octet. now destruct (Spec.octet f2). }
  destruct fs as [|f4 fs].
  { destruct (Spec.octet f1); [|reflexivity]. cbn [fields_from Z.eqb].
    rewrite octet_from_octet. destruct (Spec.octet f2); [|reflexivity].
    cbn [fields_from Z.eqb Z.add Pos.add Pos.eqb].
    rewrite octet_from_octet. now destruct (Spec.octet f3). }
  destruct fs as [|f5 fs].
  - destruct (Spec.octet f1) as [a|] eqn:E1; [|reflexivity].
    cbn [fields_from Z.eqb]. rewrite octet_from_octet.
    destruct (Spec.octet f2) as [b|] eqn:E2; [|reflexivity].
    cbn [fields_from Z.eqb Z.add Pos.add Pos.eqb]. rewrite octet_from_octet.
    destruct (Spec.octet f3) as [c|] eqn:E3; [|reflexivity].
    cbn [fields_from Z.eqb Z.add Pos.add Pos.eqb Pos.succ]. rewrite octet_from_octet.
    destruct (Spec.octet f4) as [d|] eqn:E4; [|reflexivity].
    apply octet_range in E1, E2, E3, E4.
    cbn. now rewrite !Z.mod_small by lia.
  - destruct (Spec.octet f1) as [a|]; [|reflexivity].
    cbn [fields_from Z.eqb]. rewrite octet_from_octet.
    destruct (Spec.octet f2) as [b|]; [|reflexivity].
    cbn [fields_from Z.eqb Z.add Pos.add Pos.eqb]. rewrite octet_from_octet.
    destruct (Spec.octet f3) as [c|]; [|reflexivity].
    cbn [fields_from Z.eqb Z.add Pos.add Pos.eqb Pos.succ]. rewrite octet_from_octet.
    now destruct (Spec.octet f4).
Qed.

(** When [parseIPv4] accepts its input, the scan of [ParseAddr] meets a dot
    before any colon or percent sign. *)
Lemma ParseAddr_scan_dotted (s rest : string) :
  forall (i n : nat) (prev : ascii) (val pos digLen : Z) (fields r : list byte),
    net.parseIPv4_loop rest i n prev val pos digLen fields = Some r ->
    pos < 3 ->
    net.ParseAddr_scan s rest
    = match net.parseIPv4 s with
      | Some f => Some (net.Addr4 f)
      | None => None
      end.
Proof.
  induction rest as [|c rest IH]; intros i n prev val pos digLen fields r H Hpos.
  - cbn in H. destruct (Z.ltb_spec pos 3); [discriminate H | lia].
  - cbn [net.parseIPv4_loop net.ParseAddr_scan] in *.
    pose proof (isdigit_char c) as Hc. unfold ceq in *.
    destruct (net.isdigit c).
    + destruct Hc as (_ & _ & -> & -> & -> & _).
      destruct ((digLen =? 1) && (val =? 0)); [discriminate H|].
      destruct (255 <? val * 10 + code c - code "0"%char); [discriminate H|].
      now apply IH in H.
    + destruct (Ascii.eqb c "."); [reflexivity | discriminate H].
Qed.

Lemma ParseAddr_scan_no_colon (s rest : string) :
  Spec.has_colon rest = false -> net.parseIPv4 s = None ->
  net.ParseAddr_scan s rest = None.
Proof.
  intros Hcolon Hv4. induction rest as [|c rest IH]; [reflexivity|].
  cbn [net.ParseAddr_scan Spec.has_colon] in *. unfold ceq.
  apply orb_false_elim in Hcolon. destruct Hcolon as [-> Hrest].
  rewrite Hv4.
  destruct (Ascii.eqb c "."); [reflexivity|].
  destruct (Ascii.eqb c "%"); [reflexivity | now apply IH].
Qed.

Lemma ParseIP_dotted_quad (s : string) (a b c d : Z) :
  Spec.dotted_quad s = Some (a, b, c, d) -> net.ParseIP s = net.IPv4 a b c d.
Proof.
  intros H. pose proof (parseIPv4_dotted_quad s) as Hv4. rewrite H in Hv4.
  unfold net.ParseIP, net.ParseAddr.
  rewrite (ParseAddr_scan_dotted s s 0 (len s) zero 0 0 0 [0; 0; 0; 0] [a; b; c; d]);
    [| exact Hv4 | lia].
  now rewrite Hv4.
Qed.

Lemma ParseIP_no_colon (s : string) :
  Spec.dotted_quad s = None -> Spec.has_colon s = false -> net.ParseIP s = [].
Proof.
  intros H Hcolon. pose proof (parseIPv4_dotted_quad s) as Hv4. rewrite H in Hv4.
  unfold net.ParseIP, net.ParseAddr.
  now rewrite (ParseAddr_scan_no_colon s s Hcolon Hv4).
Qed.

(** *** Strings cut at a colon *)

Lemma len_app (a b : string) : len (a ++ b) = (len a + len b)%nat.
Proof. unfold len. induction a as [|c a IH]; cbn; [reflexivity | now rewrite IH]. Qed.

Lemma from_app (a b : string) : from (a ++ b) (len a) = b.
Proof.
  unfold from. rewrite len_app.
  replace (len a + len b - len a)%nat with (len b) by lia.
  induction a as [|c a IH]; cbn; [apply substring_all | exact IH].
Qed.

Lemma at_app (a : string) (c : ascii) (b : string) : at_ (a ++ String c b) (len a) = c.
Proof. unfold at_. induction a as [|c' a IH]; cbn; [reflexivity | exact IH]. Qed.

Lemma append_empty (a : string) : (a ++ "")%string = a.
Proof. induction a as [|c a IH]; cbn; [reflexivity | now rewrite IH]. Qed.

(** Every string is a field without colon followed by nothing or by a
    colon and the rest. *)
Lemma first_field (s : string) :
  exists f tail, s = (f ++ tail)%string /\ Spec.has_colon f = false
                 /\ (tail = "" \/ exists r, tail = String ":" r).
Proof.
  induction s as [|c s (f & tail & -> & Hf & Ht)].
  - exists "", "". repeat split. now left.
  - destruct (Ascii.eqb_spec c ":") as [-> | Hc].
    + exists "", (String ":" (f ++ tail)%string). repeat split. right. now eexists.
    + exists (String c f), tail. repeat split; [|exact Ht].
      cbn. rewrite Hf. now apply Ascii.eqb_neq in Hc as ->.
Qed.

Lemma split_colons_cons (s : string) : exists f fs, Spec.split_colons s = f :: fs.
Proof.
  destruct s as [|c s]; cbn; [now eexists _, _|].
  destruct (Ascii.eqb c ":"); [now eexists _, _|].
  destruct (Spec.split_colons s); now eexists _, _.
Qed.

Lemma split_colons_field (f : string) :
  Spec.has_colon f = false -> Spec.split_colons f = [f].
Proof.
  induction f as [|c f IH]; cbn; [reflexivity|]. intros H.
  apply orb_false_elim in H. destruct H as [-> H]. now rewrite (IH H).
Qed.

Lemma split_colons_app (f r : string) :
  Spec.has_colon f = false ->
  Spec.split_colons (f ++ String ":" r) = f :: Spec.split_colons r.
Proof.
  induction f as [|c f IH]; cbn; [reflexivity|]. intros H.
  apply orb_false_elim in H. destruct H as [-> H]. now rewrite (IH H).
Qed.

Lemma split_ellipsis_field (f : string) :
  Spec.has_colon f = false -> Spec.split_ellipsis f = None.
Proof.
  induction f as [|c f IH]; [reflexivity|]. cbn [Spec.has_colon Spec.split_ellipsis].
  intros H. apply orb_false_elim in H. destruct H as [-> H].
  rewrite (IH H). now destruct f.
Qed.

Lemma split_ellipsis_app (f r : string) :
  Spec.has_colon f = false ->
  Spec.split_ellipsis (f ++ String ":" r)
  = match r with
    | EmptyString => None
    | String c r' =>
        if Ascii.eqb c ":" then Some (f, r')
        else
          match Spec.split_ellipsis r with
          | Some (l, r'') => Some ((f ++ String ":" l)%string, r'')
          | None => None
          end
    end.
Proof.
  induction f as [|c f IH]; intros H.
  - cbn. destruct r as [|c r']; [reflexivity|].
    destruct (Ascii.eqb c ":"); [reflexivity|].
    cbn [Spec.split_ellipsis].
    now destruct r'.
  - cbn [Spec.has_colon] in H. apply orb_false_elim in H. destruct H as [Hc H].
    specialize (IH H).
    change (String c f ++ String ":" r)%string with (String c (f ++ String ":" r)%string).
    cbn [Spec.split_ellipsis]. rewrite Hc. cbn [andb].
    destruct (f ++ String ":" r)%string as [|c2 rest] eqn:E.
    { destruct f; discriminate E. }
    rewrite IH. destruct r as [|c' r']; [reflexivity|].
    destruct (Ascii.eqb c' ":"); [reflexivity|].
    now destruct (Spec.split_ellipsis (String c' r')) as [[l r'']|].
Qed.

(** Two fields that end at the same colon are the same. *)
Lemma field_unique (f g a b : string) :
  Spec.has_colon f = false -> Spec.has_colon g = false ->
  (f ++ String ":" a)%string = (g ++ String ":" b)%string -> f = g /\ a = b.
Proof.
  revert g. induction f as [|c f IH]; intros g Hf Hg E.
  - destruct g as [|c' g]; cbn in E.
    + injection E as <-. now split.
    + injection E as <- _. discriminate Hg.
  - destruct g as [|c' g]; cbn in E.
    + injection E as -> _. discriminate Hf.
    + injection E as <- E. cbn in Hf, Hg.
      apply orb_false_elim in Hf, Hg. destruct Hf as [_ Hf], Hg as [_ Hg].
      destruct (IH g Hf Hg E) as [-> ->]. now split.
Qed.

Lemma field_no_colon (f g a : string) :
  Spec.has_colon f = false -> f <> (g ++ String ":" a)%string.
Proof.
  intros Hf ->. revert Hf. induction g as [|c g IH]; cbn; [discriminate|].
  intros H. apply orb_false_elim in H. destruct H as [_ H]. now apply IH.
Qed.

(** *** A group of hexadecimal digits *)

Lemma hexdigit_special :
  net.hexdigit ":" = None /\ net.hexdigit "." = None /\ net.hexdigit "%" = None.
Proof. now vm_compute. Qed.

Lemma pow16_le (off : nat) : (off <= 4)%nat -> 0 < 16 ^ Z.of_nat off <= 65536.
Proof.
  intros H. split; [apply Z.pow_pos_nonneg; lia|].
  change 65536 with (16 ^ 4). apply Z.pow_le_mono_r; lia.
Qed.

(** [hexgroup] reads the digits of a group up to the character, not a
    hexadecimal digit, that follows it. *)
Lemma hexgroup_digits (f : string) :
  forall (off : nat) (acc v : Z) (tail : string),
    Spec.hex_digits_value f acc = Some v ->
    (off + len f <= 4)%nat ->
    0 <= acc < 16 ^ Z.of_nat off ->
    (tail = "" \/ exists c t, tail = String c t /\ net.hexdigit c = None) ->
    net.hexgroup (f ++ tail) off acc = Some ((off + len f)%nat, v)
    /\ 0 <= v < 16 ^ Z.of_nat (off + len f).
Proof.
  induction f as [|c f IH]; intros off acc v tail Hv Hlen Hacc Ht.
  - cbn in Hv. injection Hv as <-. cbn [append]. unfold len. cbn [String.length].
    rewrite Nat.add_0_r. split; [|exact Hacc].
    destruct Ht as [-> | (c & t & -> & Hc)]; cbn; [reflexivity | now rewrite Hc].
  - cbn [Spec.hex_digits_value] in Hv. rewrite <- hexdigit_hex_value in Hv.
    cbn [append net.hexgroup].
    destruct (net.hexdigit c) as [d|] eqn:Ed; [|discriminate Hv].
    assert (Hd : 0 <= d < 16).
    { apply (hex_value_range c). now rewrite <- hexdigit_hex_value. }
    unfold len in *. cbn [String.length] in *.
    assert (Hacc' : 0 <= acc * 16 + d < 16 ^ Z.of_nat (S off)).
    { rewrite Nat2Z.inj_succ, Z.pow_succ_r by lia. lia. }
    pose proof (pow16_le (S off) ltac:(lia)) as Hp.
    destruct (Nat.ltb_spec 3 off); [lia|].
    destruct (Z.ltb_spec 65535 (acc * 16 + d)); [lia|].
    replace (off + S (String.length f))%nat with (S off + String.length f)%nat by lia.
    apply IH; [exact Hv | lia | exact Hacc' | exact Ht].
Qed.

(** What [hexgroup] returns: the digits it read, their value, and what
    stopped it. *)
Lemma hexgroup_inv (s : string) :
  forall (off : nat) (acc : Z) (off' : nat) (acc' : Z),
    net.hexgroup s off acc = Some (off', acc') ->
    exists h t,
      s = (h ++ t)%string /\ off' = (off + len h)%nat
      /\ Spec.hex_digits_value h acc = Some acc'
      /\ (len h = 0%nat \/ off' <= 4)%nat
      /\ (t = "" \/ exists c t', t = String c t' /\ net.hexdigit c = None).
Proof.
  induction s as [|c s IH]; intros off acc off' acc' H.
  - cbn in H. injection H as <- <-. exists "", "". cbn.
    repeat split; [lia | now left | now left].
  - cbn [net.hexgroup] in H.
    destruct (net.hexdigit c) as [d|] eqn:Ed.
    + destruct (Nat.ltb_spec 3 off); [discriminate H|].
      destruct (65535 <? acc * 16 + d); [discriminate H|].
      apply IH in H. destruct H as (h & t & -> & -> & Hv & Hl & Ht).
      exists (String c h), t. unfold len in *. cbn [String.length].
      repeat split; [lia | | | exact Ht].
      * cbn. now rewrite <- hexdigit_hex_value, Ed.
      * right. destruct Hl as [Hl | Hl]; lia.
    + injection H as <- <-. exists "", (String c s). cbn.
      repeat split; [lia | now left |]. right. now eexists _, _.
Qed.

Lemma hex_digits_no_colon (h : string) :
  forall acc v, Spec.hex_digits_value h acc = Some v ->
                Spec.has_colon h = false /\ Spec.contains "." h = false.
Proof.
  induction h as [|c h IH]; intros acc v H; [now split|].
  cbn [Spec.hex_digits_value] in H. rewrite <- hexdigit_hex_value in H.
  destruct (net.hexdigit c) as [d|] eqn:Ed; [|discriminate H].
  apply IH in H. destruct H as [H1 H2]. cbn. rewrite H1, H2.
  destruct hexdigit_special as (Hc & Hd & _).
  destruct (Ascii.eqb_spec c ":") as [-> | _]; [congruence|].
  destruct (Ascii.eqb_spec c ".") as [-> | _]; [congruence|]. now split.
Qed.

(** A group has no dot, and gives two bytes. *)
Lemma hex_group_inv (f : string) (b : list Z) :
  Spec.hex_group f = Some b ->
  exists v, Spec.hex_digits_value f 0 = Some v
            /\ (1 <= len f <= 4)%nat
            /\ b = [v / 256; v mod 256]
            /\ Spec.contains "." f = false.
Proof.
  unfold Spec.hex_group. fold (len f).
  destruct (Nat.leb_spec 1 (len f)); [|discriminate].
  destruct (Nat.leb_spec (len f) 4); [|discriminate]. cbn [andb].
  destruct (Spec.hex_digits_value f 0) as [v|] eqn:E; [|discriminate].
  intros Hb. injection Hb as <-. exists v. repeat split; try assumption.
  now apply hex_digits_no_colon in E.
Qed.

Lemma hex_group_length (f : string) (b : list Z) :
  Spec.hex_group f = Some b -> List.length b = 2%nat.
Proof. intros H. apply hex_group_inv in H. now destruct H as (v & _ & _ & -> & _). Qed.

(** *** A dotted quad at the end of an IPv6 literal *)

Lemma parseIPv4_loop_no_colon (rest : string) :
  forall (i n : nat) (prev : ascii) (val pos digLen : Z) (fields r : list byte),
    net.parseIPv4_loop rest i n prev val pos digLen fields = Some r ->
    Spec.has_colon rest = false.
Proof.
  induction rest as [|c rest IH]; intros i n prev val pos digLen fields r H;
    [reflexivity|].
  cbn [net.parseIPv4_loop Spec.has_colon] in *.
  pose proof (isdigit_char c) as Hc. unfold ceq in H.
  destruct (net.isdigit c).
  - destruct Hc as (_ & _ & _ & -> & _).
    destruct ((digLen =? 1) && (val =? 0)); [discriminate H|].
    destruct (255 <? val * 10 + code c - code "0"%char); [discriminate H|].
    now apply IH in H.
  - destruct (Ascii.eqb_spec c ".") as [-> | _]; [|discriminate H].
    destruct ((i =? 0)%nat || (i =? n - 1)%nat || (prev =? ".")%char);
      [discriminate H|].
    destruct (pos =? 3); [discriminate H|]. now apply IH in H.
Qed.

Lemma dotted_quad_no_colon (s : string) (q : Z * Z * Z * Z) :
  Spec.dotted_quad s = Some q -> Spec.has_colon s = false.
Proof.
  intros H. pose proof (parseIPv4_dotted_quad s) as Hv4. rewrite H in Hv4.
  destruct q as [[[a b] c] d]. now apply parseIPv4_loop_no_colon in Hv4.
Qed.

Lemma split_dots_first (s f1 f2 : string) (fs : list string) :
  Spec.split_dots s = f1 :: f2 :: fs -> exists g, s = (f1 ++ String "." g)%string.
Proof.
  revert f1. induction s as [|c s IH]; intros f1 H; [discriminate H|].
  cbn [Spec.split_dots] in H.
  destruct (Ascii.eqb_spec c ".") as [-> | _].
  - injection H as <- _. now exists s.
  - destruct (Spec.split_dots s) as [|f fs'] eqn:E; [discriminate H|].
    injection H as <- ->. destruct (IH f eq_refl) as (g & ->). now exists g.
Qed.

Lemma digit_is_hex (c : ascii) :
  match Spec.digit_value c with
  | Some d => Spec.hex_value c = Some d
  | None => True
  end.
Proof. each_char c; exact I. Qed.

Lemma digits_are_hex (f : string) :
  forall acc v acc', Spec.digits_value f acc = Some v ->
                     exists w, Spec.hex_digits_value f acc' = Some w.
Proof.
  induction f as [|c f IH]; intros acc v acc' H; [now eexists|].
  cbn [Spec.digits_value Spec.hex_digits_value] in *.
  pose proof (digit_is_hex c) as Hc.
  destruct (Spec.digit_value c) as [d|]; [|discriminate H].
  rewrite Hc. now apply (IH _ _ (acc' * 16 + d)) in H.
Qed.

(** An octet is one to three decimal digits. *)
Lemma octet_digits (f : string) (a : Z) :
  Spec.octet f = Some a ->
  (1 <= len f <= 3)%nat /\ exists w, Spec.hex_digits_value f 0 = Some w.
Proof.
  unfold Spec.octet. destruct f as [|c rest]; [discriminate|].
  destruct (Ascii.eqb c "0" && negb (rest =? "")%string) eqn:Ez; [discriminate|].
  destruct (Spec.digits_value (String c rest) 0) as [v|] eqn:E; [|discriminate].
  destruct (Z.leb_spec v 255) as [Hv|]; [|discriminate]. intros _.
  split; [|now apply (digits_are_hex _ 0 v)].
  unfold len. cbn [String.length]. split; [lia|].
  cbn [Spec.digits_value] in E.
  pose proof (isdigit_char c) as Hc.
  destruct (net.isdigit c).
  - destruct Hc as (Hd & Hr & _ & _ & _ & H0). rewrite Hd in E.
    destruct (String.eqb_spec rest "") as [-> | Hrest]; [cbn; lia|].
    rewrite andb_true_r in Ez. rewrite Ez in H0. symmetry in H0.
    apply Z.eqb_neq in H0.
    apply digits_value_bound in E; [|lia]. fold (len rest) in *.
    destruct (Nat.le_gt_cases (len rest) 2) as [|Hl]; [lia|].
    assert (10 ^ 3 <= 10 ^ Z.of_nat (len rest)) by (apply Z.pow_le_mono_r; lia).
    nia.
  - destruct Hc as [Hd _]. rewrite Hd in E. discriminate E.
Qed.

(** The first octet of a dotted quad passes for a group that a dot
    follows. *)
Lemma dotted_quad_hexgroup (f : string) (q : Z * Z * Z * Z) :
  Spec.dotted_quad f = Some q ->
  exists off acc,
    net.hexgroup f 0 0 = Some (off, acc)
    /\ (1 <= off)%nat /\ (off < len f)%nat /\ at_ f off = "."%char.
Proof.
  unfold Spec.dotted_quad.
  destruct (Spec.split_dots f) as [|f1 [|f2 [|f3 [|f4 [|f5 fs]]]]] eqn:E;
    try discriminate.
  destruct (Spec.octet f1) as [a|] eqn:E1; [|discriminate]. intros _.
  apply split_dots_first in E. destruct E as (g & ->).
  apply octet_digits in E1. destruct E1 as (Hl & w & Hw).
  destruct (hexgroup_digits f1 0 0 w (String "." g) Hw) as [Hg _];
    [lia | cbn; lia | right; eexists _, _; split; [reflexivity | apply hexdigit_special] |].
  exists (len f1), w. cbn [Nat.add] in Hg.
  repeat split; [exact Hg | lia | | apply at_app].
  rewrite len_app. unfold len at 3. cbn [String.length]. lia.
Qed.

(** *** Writing into the sixteen bytes *)

Lemma store_app (pre : list byte) (x v : byte) (rest : list byte) :
  net.store (pre ++ x :: rest) (List.length pre) v = pre ++ v :: rest.
Proof. induction pre as [|y pre IH]; cbn; [reflexivity | now rewrite IH]. Qed.

Lemma store_zeros (pre : list byte) (v : byte) (n : nat) :
  net.store (pre ++ repeat 0 (S n)) (List.length pre) v = (pre ++ [v]) ++ repeat 0 n.
Proof. cbn [repeat]. rewrite store_app, <- app_assoc. reflexivity. Qed.

Lemma store_group (pre : list byte) (i : nat) (hi lo : byte) :
  List.length pre = i -> (i + 2 <= 16)%nat ->
  net.store (net.store (pre ++ repeat 0 (16 - i)) i hi) (i + 1) lo
  = (pre ++ [hi; lo]) ++ repeat 0 (16 - (i + 2)).
Proof.
  intros <- Hi.
  replace (16 - List.length pre)%nat with (S (S (16 - (List.length pre + 2)))) by lia.
  rewrite store_zeros.
  replace (List.length pre + 1)%nat with (List.length (pre ++ [hi]))
    by (rewrite length_app; reflexivity).
  rewrite store_zeros, <- !app_assoc. reflexivity.
Qed.

Lemma store_quad (pre : list byte) (i : nat) (a b c d : byte) :
  List.length pre = i -> (i + 4 <= 16)%nat ->
  net.store (net.store (net.store (net.store (pre ++ repeat 0 (16 - i)) i a)
                          (i + 1) b) (i + 2) c) (i + 3) d
  = (pre ++ [a; b; c; d]) ++ repeat 0 (16 - (i + 4)).
Proof.
  intros <- Hi.
  replace (16 - List.length pre)%nat
    with (S (S (S (S (16 - (List.length pre + 4)))))) by lia.
  rewrite store_zeros.
  replace (List.length pre + 1)%nat with (List.length (pre ++ [a]))
    by (rewrite length_app; reflexivity).
  rewrite store_zeros.
  replace (List.length pre + 2)%nat with (List.length ((pre ++ [a]) ++ [b]))
    by (rewrite !length_app; cbn; lia).
  rewrite store_zeros.
  replace (List.length pre + 3)%nat with (List.length (((pre ++ [a]) ++ [b]) ++ [c]))
    by (rewrite !length_app; cbn; lia).
  rewrite store_zeros, <- !app_assoc. reflexivity.
Qed.

(** *** One turn of the loop of [parseIPv6] *)

Lemma hex_group_intro (f : string) (v : Z) :
  Spec.hex_digits_value f 0 = Some v -> (1 <= len f <= 4)%nat ->
  Spec.hex_group f = Some [v / 256; v mod 256].
Proof.
  intros Hv Hl. unfold Spec.hex_group. fold (len f). rewrite Hv.
  destruct (Nat.leb_spec 1 (len f)); [|lia].
  destruct (Nat.leb_spec (len f) 4); [reflexivity | lia].
Qed.

Lemma has_colon_app (f r : string) : Spec.has_colon (f ++ String ":" r) = true.
Proof. induction f as [|c f IH]; cbn; [reflexivity | now rewrite IH, orb_true_r]. Qed.

(** The turn that reads a group. *)
Lemma v6_turn_group (k : nat) (f tail : string) (ip : list byte) (i : nat) (e v : Z) :
  Spec.hex_digits_value f 0 = Some v -> (1 <= len f <= 4)%nat ->
  (tail = "" \/ exists r, tail = String ":" r) ->
  net.parseIPv6_loop (S k) (f ++ tail) ip i e
  = let ip' := net.store (net.store ip i (v / 256)) (i + 1) (v mod 256) in
    match tail with
    | EmptyString => Some (net.mkV6 "" ip' (i + 2) e)
    | String _ r =>
        match r with
        | EmptyString => None
        | String c r' =>
            if Ascii.eqb c ":" then
              if 0 <=? e then None
              else if (len r' =? 0)%nat
                   then Some (net.mkV6 r' ip' (i + 2) (Z.of_nat (i + 2)))
                   else net.parseIPv6_loop k r' ip' (i + 2) (Z.of_nat (i + 2))
            else net.parseIPv6_loop k r ip' (i + 2) e
        end
    end.
Proof.
  intros Hv Hl Ht.
  assert (Ht' : tail = "" \/ exists c t, tail = String c t /\ net.hexdigit c = None).
  { destruct Ht as [-> | (r & ->)]; [now left|]. right.
    eexists _, _. split; [reflexivity | apply hexdigit_special]. }
  destruct (hexgroup_digits f 0 0 v tail Hv ltac:(lia) ltac:(cbn; lia) Ht') as [Hg Hr].
  cbn [Nat.add] in Hg, Hr.
  pose proof (pow16_le (len f) ltac:(lia)) as Hp.
  assert (Hhi : Z.shiftr v 8 mod 256 = v / 256).
  { rewrite Z.shiftr_div_pow2 by lia. change (2 ^ 8) with 256.
    apply Z.mod_small. split; [apply Z.div_pos; lia|].
    apply Z.div_lt_upper_bound; lia. }
  cbn [net.parseIPv6_loop]. rewrite Hg.
  destruct (Nat.eqb_spec (len f) 0); [lia|].
  rewrite from_app, Hhi. cbv zeta.
  destruct Ht as [-> | (r & ->)].
  - rewrite append_empty, Nat.ltb_irrefl. cbn [andb]. reflexivity.
  - rewrite at_app. change (ceq ":" ".") with false. rewrite andb_false_r.
    destruct r as [|c r']; [reflexivity|].
    change (from (String ":" (String c r')) 1) with (from (String c r') 0).
    rewrite from_0.
    change (from (String c r') 1) with (from r' 0). rewrite from_0.
    cbn [len String.length Nat.eqb at_ String.get ceq Ascii.eqb Bool.eqb negb].
    unfold ceq. reflexivity.
Qed.

(** The turn on a field that is not a group and that no dotted quad
    explains. *)
Lemma v6_turn_none (k : nat) (f tail : string) (ip : list byte) (i : nat) (e : Z) :
  Spec.hex_group f = None -> Spec.has_colon f = false ->
  (tail = "" \/ exists r, tail = String ":" r) ->
  net.parseIPv4 (f ++ tail) = None ->
  net.parseIPv6_loop (S k) (f ++ tail) ip i e = None.
Proof.
  intros Hg Hf Ht Hv4.
  destruct (net.parseIPv6_loop (S k) (f ++ tail) ip i e) as [st|] eqn:E;
    [exfalso | reflexivity].
  cbn [net.parseIPv6_loop] in E. rewrite Hv4 in E.
  destruct (net.hexgroup (f ++ tail) 0 0) as [[off acc]|] eqn:Eh; [|discriminate E].
  destruct (Nat.eqb_spec off 0) as [|Hoff]; [discriminate E|].
  destruct ((off <? len (f ++ tail))%nat && ceq (at_ (f ++ tail) off) ".").
  { destruct ((e <? 0) && negb (i =? 12)%nat); [discriminate E|].
    destruct (16 <? i + 4)%nat; discriminate E. }
  apply hexgroup_inv in Eh.
  destruct Eh as (h & t & Es & -> & Hh & Hl & Hstop). cbn [Nat.add] in *.
  assert (Hgh : Spec.hex_group h <> None).
  { rewrite (hex_group_intro h acc Hh); [discriminate | lia]. }
  pose proof (hex_digits_no_colon h 0 acc Hh) as [Hhc _].
  rewrite Es, from_app in E. cbv zeta in E.
  destruct Hstop as [-> | (c & t' & -> & Hc)].
  - (* the input ends with the digits *)
    rewrite append_empty in Es.
    destruct Ht as [-> | (r & ->)].
    + rewrite append_empty in Es. now subst h.
    + symmetry in Es. now apply field_no_colon in Es.
  - cbn [len String.length Nat.eqb at_ String.get] in E. unfold ceq in E.
    destruct (Ascii.eqb_spec c ":") as [-> | _]; [|discriminate E].
    destruct Ht as [-> | (r & ->)].
    + rewrite append_empty in Es. now apply field_no_colon in Es.
    + apply field_unique in Es; [|assumption|assumption].
      destruct Es as [-> _]. contradiction.
Qed.

(** The turn on the field [f] that is not a group. *)
Lemma v6_turn_other (k : nat) (f tail : string) (ip : list byte) (i : nat) (e : Z) :
  Spec.hex_group f = None -> Spec.has_colon f = false ->
  (tail = "" \/ exists r, tail = String ":" r) ->
  net.parseIPv6_loop (S k) (f ++ tail) ip i e
  = match tail, Spec.dotted_quad f with
    | EmptyString, Some (a, b, c, d) =>
        if (e <? 0) && negb (i =? 12)%nat then None
        else if (16 <? i + 4)%nat then None
        else
          Some (net.mkV6 ""
                  (net.store (net.store (net.store (net.store ip i a) (i + 1) b)
                                (i + 2) c) (i + 3) d)
                  (i + 4) e)
    | _, _ => None
    end.
Proof.
  intros Hg Hf Ht.
  destruct Ht as [-> | (r & ->)].
  - destruct (Spec.dotted_quad f) as [[[[a b] c] d]|] eqn:Eq.
    + rewrite append_empty.
      destruct (dotted_quad_hexgroup f _ Eq) as (off & acc & Eh & Hoff & Hlt & Hdot).
      pose proof (parseIPv4_dotted_quad f) as Hv4. rewrite Eq in Hv4.
      cbn [net.parseIPv6_loop]. rewrite Eh, Hv4, Hdot.
      destruct (Nat.eqb_spec off 0); [lia|].
      destruct (Nat.ltb_spec off (len f)); [|lia].
      reflexivity.
    + apply v6_turn_none; [assumption | assumption | now left |].
      rewrite append_empty. pose proof (parseIPv4_dotted_quad f) as Hv4.
      now rewrite Eq in Hv4.
  - apply v6_turn_none; [assumption | assumption | right; now eexists |].
    destruct (net.parseIPv4 (f ++ String ":" r)) as [ip4|] eqn:E; [|reflexivity].
    apply parseIPv4_loop_no_colon in E. now rewrite has_colon_app in E.
Qed.

(** *** The groups of an IPv6 literal, field by field *)

Lemma groups_v4_last (f : string) :
  Spec.has_colon f = false ->
  Spec.groups_v4 (Spec.split_colons f) = Spec.last_field f.
Proof. intros H. now rewrite (split_colons_field f H). Qed.

Lemma groups_v4_app (f r : string) :
  Spec.has_colon f = false ->
  Spec.groups_v4 (Spec.split_colons (f ++ String ":" r))
  = match Spec.hex_group f, Spec.groups_v4 (Spec.split_colons r) with
    | Some b, Some bs => Some (b ++ bs)
    | _, _ => None
    end.
Proof.
  intros H. rewrite (split_colons_app f r H).
  destruct (split_colons_cons r) as (f2 & fs2 & ->). reflexivity.
Qed.

Lemma groups_app (f r : string) :
  Spec.has_colon f = false ->
  Spec.groups (Spec.split_colons (f ++ String ":" r))
  = match Spec.hex_group f, Spec.groups (Spec.split_colons r) with
    | Some b, Some bs => Some (b ++ bs)
    | _, _ => None
    end.
Proof. intros H. now rewrite (split_colons_app f r H). Qed.

Lemma groups_field (f : string) (b : list Z) :
  Spec.has_colon f = false -> Spec.hex_group f = Some b ->
  Spec.groups (Spec.split_colons f) = Some b.
Proof.
  intros H Hb. rewrite (split_colons_field f H). cbn [Spec.groups].
  now rewrite Hb, app_nil_r.
Qed.

Lemma groups_v4_empty_first (r : string) :
  Spec.groups_v4 (Spec.split_colons (String ":" r)) = None.
Proof.
  change (String ":" r) with ("" ++ String ":" r)%string.
  now rewrite groups_v4_app.
Qed.

Lemma last_field_length (f : string) (bs : list Z) :
  Spec.last_field f = Some bs -> (2 <= List.length bs)%nat.
Proof.
  unfold Spec.last_field. destruct (Spec.hex_group f) as [b|] eqn:E.
  - intros H. injection H as <-. rewrite (hex_group_length f b E). lia.
  - destruct (Spec.dotted_quad f) as [[[[a b] c] d]|]; [|discriminate].
    intros H. injection H as <-. cbn. lia.
Qed.

Lemma groups_v4_length (s : string) (bs : list Z) :
  Spec.groups_v4 (Spec.split_colons s) = Some bs -> (2 <= List.length bs)%nat.
Proof.
  destruct (first_field s) as (f & tail & -> & Hf & [-> | (r & ->)]).
  - rewrite append_empty, (groups_v4_last f Hf). apply last_field_length.
  - rewrite (groups_v4_app f r Hf).
    destruct (Spec.hex_group f) as [b|] eqn:E; [|discriminate].
    destruct (Spec.groups_v4 (Spec.split_colons r)) as [bs'|]; [|discriminate].
    intros H. injection H as <-.
    rewrite length_app, (hex_group_length f b E). lia.
Qed.

(** A first field that is not a group makes the rest no part of an
    address. *)
Lemma v6_rest_bad_field (f r : string) (pre : list Z) (i : nat) :
  Spec.hex_group f = None -> Spec.has_colon f = false ->
  v6_rest (f ++ String ":" r) pre i = None.
Proof.
  intros Hg Hf. unfold v6_rest.
  rewrite (split_ellipsis_app f r Hf), (groups_v4_app f r Hf), Hg.
  destruct r as [|c r']; [reflexivity|].
  destruct (Ascii.eqb c ":").
  - now rewrite (split_colons_field f Hf); cbn [Spec.groups]; rewrite Hg.
  - destruct (Spec.split_ellipsis (String c r')) as [[l r'']|]; [|reflexivity].
    now rewrite (groups_app f l Hf), Hg.
Qed.

Lemma v6_rest_after_bad_field (f r : string) (pl pr : list Z) (i : nat) :
  Spec.hex_group f = None -> Spec.has_colon f = false ->
  v6_rest_after (f ++ String ":" r) pl pr i = None.
Proof.
  intros Hg Hf. unfold v6_rest_after. now rewrite (groups_v4_app f r Hf), Hg.
Qed.

(** *** The loop of [parseIPv6] *)

Lemma finish_expanded (pl pr : list Z) (i k : nat) :
  (List.length pl + List.length pr = i)%nat -> (i + 2 * k = 16)%nat ->
  v6_finish (Some (net.mkV6 "" ((pl ++ pr) ++ repeat 0 (16 - i)) i
                     (Z.of_nat (List.length pl))))
  = if (i <=? 14)%nat then Some (pl ++ repeat 0 (16 - i) ++ pr) else None.
Proof.
  intros Hl Hi. cbn [v6_finish net.v6_s net.v6_i net.v6_ellipsis net.v6_ip].
  change (negb (len "" =? 0)%nat) with false. cbv iota.
  destruct (Z.ltb_spec (Z.of_nat (List.length pl)) 0); [lia|].
  destruct (Z.leb_spec 0 (Z.of_nat (List.length pl))); [|lia].
  destruct (Nat.ltb_spec i 16), (Nat.leb_spec i 14); try reflexivity.
  - rewrite Nat2Z.id, <- app_assoc, firstn_app, firstn_all, Nat.sub_diag.
    cbn [firstn]. rewrite app_nil_r.
    rewrite skipn_app, skipn_all, Nat.sub_diag. cbn [skipn app].
    rewrite firstn_app, firstn_all2 by lia.
    replace (i - List.length pl - List.length pr)%nat with 0%nat by lia.
    cbn [firstn]. now rewrite app_nil_r.
  - lia.
  - lia.
Qed.

Lemma finish_plain (pre : list Z) (i k : nat) :
  List.length pre = i -> (i + 2 * k = 16)%nat ->
  v6_finish (Some (net.mkV6 "" (pre ++ repeat 0 (16 - i)) i (-1)))
  = if (i =? 16)%nat then Some pre else None.
Proof.
  intros Hl Hi. cbn [v6_finish net.v6_s net.v6_i net.v6_ellipsis net.v6_ip].
  change (negb (len "" =? 0)%nat) with false. cbv iota.
  change (-1 <? 0) with true. change (0 <=? -1) with false. cbv iota.
  destruct (Nat.ltb_spec i 16), (Nat.eqb_spec i 16) as [E|E];
    try reflexivity; try lia.
  rewrite E. cbn [Nat.sub repeat]. now rewrite app_nil_r.
Qed.

Lemma finish_garbage (s : string) (ip : list byte) (i : nat) (e : Z) :
  s <> "" -> v6_finish (Some (net.mkV6 s ip i e)) = None.
Proof. intros H. now destruct s. Qed.

(** After the ["::"]: the loop reads the groups that remain, and the
    address is the bytes before the ["::"], zeros, and the bytes after
    it. *)
Lemma v6_after_ellipsis (k : nat) :
  forall (s : string) (pl pr : list Z) (i : nat),
    (i + 2 * k = 16)%nat -> (List.length pl + List.length pr = i)%nat -> s <> "" ->
    v6_finish (net.parseIPv6_loop k s ((pl ++ pr) ++ repeat 0 (16 - i)) i
                 (Z.of_nat (List.length pl)))
    = v6_rest_after s pl pr i.
Proof.
  induction k as [|k IH]; intros s pl pr i Hk Hl Hs.
  - cbn [net.parseIPv6_loop]. rewrite (finish_garbage s _ _ _ Hs).
    unfold v6_rest_after.
    destruct (Spec.groups_v4 (Spec.split_colons s)) as [bs|]; [|reflexivity].
    destruct (Nat.leb_spec (i + List.length bs) 14); [lia | reflexivity].
  - destruct (first_field s) as (f & tail & -> & Hf & Ht).
    destruct (Spec.hex_group f) as [b|] eqn:Eg.
    + (* a group *)
      destruct (hex_group_inv f b Eg) as (v & Hv & Hlen & -> & _).
      rewrite (v6_turn_group k f tail _ i _ v Hv Hlen Ht). cbv zeta.
      rewrite store_group by (rewrite ?length_app; lia).
      rewrite <- (app_assoc pl pr).
      unfold byte. set (b := [v / 256; v mod 256]) in *.
      assert (Hb : List.length b = 2%nat) by reflexivity.
      destruct Ht as [-> | (r & ->)].
      * rewrite (finish_expanded pl (pr ++ b) (i + 2) k)
          by (rewrite ?length_app; lia).
        unfold v6_rest_after.
        rewrite append_empty, (groups_v4_last f Hf). unfold Spec.last_field.
        rewrite Eg, Hb.
        destruct (Nat.leb_spec (i + 2) 14); [|reflexivity].
        replace (16 - (i + 2))%nat with (16 - i - 2)%nat by lia. reflexivity.
      * unfold v6_rest_after at 1. rewrite (groups_v4_app f r Hf), Eg.
        destruct r as [|c r']; [reflexivity|].
        destruct (Ascii.eqb_spec c ":") as [-> | Hc].
        -- rewrite groups_v4_empty_first.
           destruct (Z.leb_spec 0 (Z.of_nat (List.length pl))); [reflexivity | lia].
        -- rewrite (IH (String c r') pl (pr ++ b) (i + 2)%nat)
             by (rewrite ?length_app; try lia; discriminate).
           unfold v6_rest_after.
           destruct (Spec.groups_v4 (Spec.split_colons (String c r'))) as [bs|];
             [|reflexivity].
           rewrite length_app, Hb.
           replace (i + (2 + List.length bs))%nat with (i + 2 + List.length bs)%nat by lia.
           destruct (i + 2 + List.length bs <=? 14)%nat; [|reflexivity].
           replace (16 - (i + 2) - List.length bs)%nat
             with (16 - i - (2 + List.length bs))%nat by lia.
           now rewrite <- !app_assoc.
    + (* not a group *)
      rewrite (v6_turn_other k f tail _ i _ Eg Hf Ht).
      destruct Ht as [-> | (r & ->)];
        [|now rewrite (v6_rest_after_bad_field f r pl pr i Eg Hf)].
      unfold v6_rest_after.
      rewrite append_empty, (groups_v4_last f Hf). unfold Spec.last_field.
      rewrite Eg.
      destruct (Spec.dotted_quad f) as [[[[a b] c] d]|]; [|reflexivity].
      destruct (Z.ltb_spec (Z.of_nat (List.length pl)) 0); [lia|]. cbn [andb].
      cbn [List.length].
      destruct (Nat.ltb_spec 16 (i + 4)).
      * destruct (Nat.leb_spec (i + 4) 14); [lia | reflexivity].
      * rewrite store_quad by (rewrite ?length_app; lia).
        unfold byte. rewrite <- (app_assoc pl pr).
        rewrite (finish_expanded pl (pr ++ [a; b; c; d]) (i + 4) (k - 1))
          by (rewrite ?length_app; cbn [List.length]; lia).
        destruct (i + 4 <=? 14)%nat; [|reflexivity].
        replace (16 - (i + 4))%nat with (16 - i - 4)%nat by lia. reflexivity.
Qed.

(** Before any ["::"]: the loop reads the groups up to the ["::"], if
    there is one, and those that follow it. *)
Lemma v6_before_ellipsis (k : nat) :
  forall (s : string) (pre : list Z) (i : nat),
    (i + 2 * k = 16)%nat -> List.length pre = i -> s <> "" ->
    v6_finish (net.parseIPv6_loop k s (pre ++ repeat 0 (16 - i)) i (-1))
    = v6_rest s pre i.
Proof.
  induction k as [|k IH]; intros s pre i Hk Hl Hs.
  - cbn [net.parseIPv6_loop]. rewrite (finish_garbage s _ _ _ Hs).
    unfold v6_rest.
    destruct (Spec.split_ellipsis s) as [[l r]|].
    + destruct (Spec.groups (Spec.split_colons l)) as [lb|]; [|reflexivity].
      destruct (if (r =? "")%string then _ else _) as [rb|]; [|reflexivity].
      destruct (Nat.leb_spec (i + List.length lb + List.length rb) 14);
        [lia | reflexivity].
    + destruct (Spec.groups_v4 (Spec.split_colons s)) as [bs|] eqn:E; [|reflexivity].
      apply groups_v4_length in E.
      destruct (Nat.eqb_spec (i + List.length bs) 16); [lia | reflexivity].
  - destruct (first_field s) as (f & tail & -> & Hf & Ht).
    destruct (Spec.hex_group f) as [b|] eqn:Eg.
    + (* a group *)
      destruct (hex_group_inv f b Eg) as (v & Hv & Hlen & -> & _).
      rewrite (v6_turn_group k f tail _ i _ v Hv Hlen Ht). cbv zeta.
      rewrite store_group by (try exact Hl; lia).
      unfold byte. set (b := [v / 256; v mod 256]) in *.
      assert (Hb : List.length b = 2%nat) by reflexivity.
      destruct Ht as [-> | (r & ->)].
      * rewrite (finish_plain (pre ++ b) (i + 2) k) by (rewrite ?length_app; lia).
        unfold v6_rest.
        rewrite append_empty, (split_ellipsis_field f Hf), (groups_v4_last f Hf).
        unfold Spec.last_field. rewrite Eg, Hb. reflexivity.
      * unfold v6_rest at 1.
        rewrite (split_ellipsis_app f r Hf), (groups_v4_app f r Hf), Eg.
        destruct r as [|c r']; [reflexivity|].
        destruct (Ascii.eqb_spec c ":") as [-> | Hc].
        -- (* the ellipsis *)
           change (0 <=? -1) with false. cbv iota.
           rewrite (groups_field f b Hf Eg), Hb.
           replace (pre ++ b) with ((pre ++ b) ++ []) by apply app_nil_r.
           replace (Z.of_nat (i + 2)) with (Z.of_nat (List.length (pre ++ b)))
             by (rewrite length_app; lia).
           destruct r' as [|c' r''].
           ++ cbn [len String.length Nat.eqb String.eqb].
              rewrite (finish_expanded (pre ++ b) [] (i + 2) k)
                by (rewrite ?length_app; cbn [List.length]; lia).
              cbn [List.length]. rewrite Nat.add_0_r.
              destruct (i + 2 <=? 14)%nat; [|reflexivity].
              replace (16 - i - 2 - 0)%nat with (16 - (i + 2))%nat by lia.
              now rewrite <- !app_assoc.
           ++ cbn [len String.length Nat.eqb String.eqb].
              rewrite (v6_after_ellipsis k (String c' r'') (pre ++ b) [] (i + 2))
                by (rewrite ?length_app; cbn [List.length]; try lia; discriminate).
              unfold v6_rest_after.
              destruct (Spec.groups_v4 (Spec.split_colons (String c' r''))) as [bs|];
                [|reflexivity].
              destruct (i + 2 + List.length bs <=? 14)%nat; [|reflexivity].
              replace (16 - i - 2 - List.length bs)%nat
                with (16 - (i + 2) - List.length bs)%nat by lia.
              now rewrite <- !app_assoc.
        -- rewrite (IH (String c r') (pre ++ b) (i + 2)%nat)
             by (rewrite ?length_app; try lia; discriminate).
           unfold v6_rest.
           destruct (Spec.split_ellipsis (String c r')) as [[l r'']|].
           ++ rewrite (groups_app f l Hf), Eg.
              destruct (Spec.groups (Spec.split_colons l)) as [lb|]; [|reflexivity].
              destruct (if (r'' =? "")%string then _ else _) as [rb|]; [|reflexivity].
              rewrite length_app, Hb.
              replace (i + (2 + List.length lb) + List.length rb)%nat
                with (i + 2 + List.length lb + List.length rb)%nat by lia.
              destruct (i + 2 + List.length lb + List.length rb <=? 14)%nat;
                [|reflexivity].
              replace (16 - i - (2 + List.length lb) - List.length rb)%nat
                with (16 - (i + 2) - List.length lb - List.length rb)%nat by lia.
              now rewrite <- !app_assoc.
           ++ destruct (Spec.groups_v4 (Spec.split_colons (String c r'))) as [bs|];
                [|reflexivity].
              rewrite length_app, Hb.
              replace (i + (2 + List.length bs))%nat with (i + 2 + List.length bs)%nat
                by lia.
              destruct (i + 2 + List.length bs =? 16)%nat; [|reflexivity].
              now rewrite <- !app_assoc.
    + (* not a group *)
      rewrite (v6_turn_other k f tail _ i _ Eg Hf Ht).
      destruct Ht as [-> | (r & ->)];
        [|now rewrite (v6_rest_bad_field f r pre i Eg Hf)].
      unfold v6_rest.
      rewrite append_empty, (split_ellipsis_field f Hf), (groups_v4_last f Hf).
      unfold Spec.last_field. rewrite Eg.
      destruct (Spec.dotted_quad f) as [[[[a b] c] d]|]; [|reflexivity].
      change (-1 <? 0) with true. cbn [andb List.length].
      destruct (Nat.eqb_spec i 12) as [-> | Hi].
      * cbn [negb Nat.add Nat.ltb Nat.leb]. rewrite store_quad by (try exact Hl; lia).
        apply (finish_plain (pre ++ [a; b; c; d]) 16 0);
          [rewrite length_app; cbn [List.length]; lia | reflexivity].
      * cbn [negb]. destruct (Nat.eqb_spec (i + 4) 16); [lia | reflexivity].
Qed.

(** *** [parseIPv6] and the IPv6 literals *)

(** The end of [parseIPv6], after its loop. *)
Lemma parseIPv6_body_finish (s zone : string) :
  net.parseIPv6_body s zone
  = match
      (if (2 <=? len s)%nat && ceq (at_ s 0) ":" && ceq (at_ s 1) ":"
       then if (len (from s 2) =? 0)%nat then Some (repeat 0 16)
            else v6_finish (net.parseIPv6_loop 8 (from s 2) (repeat 0 16) 0 0)
       else v6_finish (net.parseIPv6_loop 8 s (repeat 0 16) 0 (-1)))
    with
    | Some ip => Some (net.Addr6 ip zone)
    | None => None
    end.
Proof.
  unfold net.parseIPv6_body.
  destruct ((2 <=? len s)%nat && ceq (at_ s 0) ":" && ceq (at_ s 1) ":").
  - destruct (len (from s 2) =? 0)%nat; [reflexivity|].
    destruct (net.parseIPv6_loop 8 (from s 2) (repeat 0 16) 0 0) as [st|];
      [|reflexivity].
    unfold v6_finish.
    destruct (negb (len (net.v6_s st) =? 0)%nat); [reflexivity|].
    destruct (net.v6_i st <? 16)%nat.
    + now destruct (net.v6_ellipsis st <? 0).
    + now destruct (0 <=? net.v6_ellipsis st).
  - destruct (net.parseIPv6_loop 8 s (repeat 0 16) 0 (-1)) as [st|]; [|reflexivity].
    unfold v6_finish.
    destruct (negb (len (net.v6_s st) =? 0)%nat); [reflexivity|].
    destruct (net.v6_i st <? 16)%nat.
    + now destruct (net.v6_ellipsis st <? 0).
    + now destruct (0 <=? net.v6_ellipsis st).
Qed.

Lemma split_ellipsis_cons (c c' : ascii) (r : string) :
  Spec.split_ellipsis (String c (String c' r))
  = if Ascii.eqb c ":" && Ascii.eqb c' ":" then Some ("", r)
    else
      match Spec.split_ellipsis (String c' r) with
      | Some (l, r') => Some (String c l, r')
      | None => None
      end.
Proof. reflexivity. Qed.

(** A literal that does not begin with ["::"]. *)
Lemma ipv6_literal_rest (s : string) :
  Spec.contains "%" s = false ->
  (forall l r, Spec.split_ellipsis s = Some (l, r) -> l <> "") ->
  Spec.ipv6_literal s = v6_rest s [] 0.
Proof.
  intros Hz Hl. unfold Spec.ipv6_literal, v6_rest. rewrite Hz.
  destruct (Spec.split_ellipsis s) as [[l r]|]; [|reflexivity].
  specialize (Hl l r eq_refl).
  destruct (String.eqb_spec l ""); [contradiction | reflexivity].
Qed.

(** [parseIPv6] on an input without zone accepts exactly the IPv6
    literals, and reads their sixteen bytes. *)
Lemma parseIPv6_body_literal (s zone : string) :
  Spec.contains "%" s = false ->
  net.parseIPv6_body s zone
  = match Spec.ipv6_literal s with
    | Some ip => Some (net.Addr6 ip zone)
    | None => None
    end.
Proof.
  intros Hz. rewrite parseIPv6_body_finish.
  match goal with
  | |- match ?x with Some _ => _ | None => _ end = _ =>
      assert (E : x = Spec.ipv6_literal s); [| now rewrite E]
  end.
  destruct s as [|c [|c' r]]; [reflexivity | |].
  - (* one character *)
    change ((2 <=? len (String c ""))%nat) with false. cbn [andb].
    rewrite ipv6_literal_rest; [| exact Hz | discriminate].
    exact (v6_before_ellipsis 8 (String c "") [] 0 eq_refl eq_refl
             ltac:(discriminate)).
  - change ((2 <=? len (String c (String c' r)))%nat) with true.
    change (at_ (String c (String c' r)) 0) with c.
    change (at_ (String c (String c' r)) 1) with c'.
    change (from (String c (String c' r)) 2) with (from r 0). rewrite from_0.
    unfold ceq. cbn [andb].
    destruct (Ascii.eqb c ":" && Ascii.eqb c' ":") eqn:Ecc.
    + (* the literal begins with the ellipsis *)
      apply andb_prop in Ecc. destruct Ecc as [Ec Ec'].
      apply Ascii.eqb_eq in Ec, Ec'. subst c c'.
      unfold Spec.ipv6_literal. rewrite Hz. cbn [Spec.split_ellipsis].
      change (Ascii.eqb ":" ":" && Ascii.eqb ":" ":") with true.
      cbn [String.eqb List.length Nat.add].
      destruct r as [|c r'].
      * reflexivity.
      * cbn [len String.length Nat.eqb String.eqb].
        etransitivity;
          [exact (v6_after_ellipsis 8 (String c r') [] [] 0 eq_refl eq_refl
                    ltac:(discriminate))|].
        unfold v6_rest_after.
        destruct (Spec.groups_v4 (Spec.split_colons (String c r'))) as [bs|];
          reflexivity.
    + rewrite ipv6_literal_rest;
        [exact (v6_before_ellipsis 8 (String c (String c' r)) [] 0 eq_refl eq_refl
                  ltac:(discriminate))
        | exact Hz |].
      intros l r0. rewrite split_ellipsis_cons, Ecc.
      destruct (Spec.split_ellipsis (String c' r)) as [[l' r1]|]; [|discriminate].
      intros H. injection H as <- _. discriminate.
Qed.

(** *** [net.ParseIP] *)

Lemma contains_percent (s : string) :
  net.IndexByteString s "%" = None <-> Spec.contains "%" s = false.
Proof.
  induction s as [|c s IH]; cbn; [tauto|]. unfold ceq.
  destruct (Ascii.eqb c "%"); cbn [orb]; [split; discriminate|].
  destruct (net.IndexByteString s "%"); [|tauto].
  split; [discriminate|]. intros H. apply IH in H. discriminate H.
Qed.

Lemma parseIPv6_body_zone (s zone : string) (a : net.Addr) :
  net.parseIPv6_body s zone = Some a -> net.Zone a = zone.
Proof.
  rewrite parseIPv6_body_finish.
  destruct (if (2 <=? len s)%nat && ceq (at_ s 0) ":" && ceq (at_ s 1) ":"
            then _ else _) as [ip|]; [|discriminate].
  intros H. now injection H as <-.
Qed.

(** What the scan of [ParseAddr] returns when the input is no dotted
    quad. *)
Lemma ParseAddr_scan_cases (s rest : string) :
  net.parseIPv4 s = None ->
  net.ParseAddr_scan s rest = None \/ net.ParseAddr_scan s rest = net.parseIPv6 s.
Proof.
  intros Hv4. induction rest as [|c rest IH]; [now left|].
  cbn [net.ParseAddr_scan]. rewrite Hv4.
  destruct (ceq c "."); [now left|].
  destruct (ceq c ":"); [now right|].
  destruct (ceq c "%"); [now left | exact IH].
Qed.

Lemma ParseAddr_scan_field (s f r : string) :
  Spec.has_colon f = false -> Spec.contains "%" f = false ->
  net.parseIPv4 s = None ->
  net.ParseAddr_scan s (f ++ String ":" r)
  = if Spec.contains "." f then None else net.parseIPv6 s.
Proof.
  intros Hf Hz Hv4. induction f as [|c f IH]; [reflexivity|].
  cbn [append net.ParseAddr_scan Spec.contains Spec.has_colon] in *.
  apply orb_false_elim in Hf, Hz. destruct Hf as [Hc Hf], Hz as [Hp Hz].
  unfold ceq. rewrite Hv4, Hc, Hp.
  destruct (Ascii.eqb c "."); [reflexivity|]. cbn [orb]. now apply IH.
Qed.

Lemma contains_app (c : ascii) (a b : string) :
  Spec.contains c (a ++ b) = Spec.contains c a || Spec.contains c b.
Proof.
  induction a as [|c' a IH]; cbn; [reflexivity|]. now rewrite IH, orb_assoc.
Qed.

Lemma last_field_short (f : string) (bs : list Z) :
  Spec.last_field f = Some bs -> (List.length bs <= 4)%nat.
Proof.
  unfold Spec.last_field. destruct (Spec.hex_group f) as [b|] eqn:E.
  - intros H. injection H as <-. rewrite (hex_group_length f b E). lia.
  - destruct (Spec.dotted_quad f) as [[[[a b] c] d]|]; [|discriminate].
    intros H. injection H as <-. cbn. lia.
Qed.

(** Every IPv6 literal has a colon. *)
Lemma ipv6_literal_no_colon (s : string) :
  Spec.has_colon s = false -> Spec.ipv6_literal s = None.
Proof.
  intros Hf. unfold Spec.ipv6_literal.
  destruct (Spec.contains "%" s); [reflexivity|].
  rewrite (split_ellipsis_field s Hf), (groups_v4_last s Hf).
  destruct (Spec.last_field s) as [bs|] eqn:E; [|reflexivity].
  apply last_field_short in E.
  destruct (Nat.eqb_spec (List.length bs) 16); [lia | reflexivity].
Qed.

Lemma ipv6_literal_length (s : string) (ip : list Z) :
  Spec.ipv6_literal s = Some ip -> List.length ip = 16%nat.
Proof.
  unfold Spec.ipv6_literal.
  destruct (Spec.contains "%" s); [discriminate|].
  destruct (Spec.split_ellipsis s) as [[l r]|].
  - destruct (if (l =? "")%string then _ else _) as [lb|]; [|discriminate].
    destruct (if (r =? "")%string then _ else _) as [rb|]; [|discriminate].
    destruct (Nat.leb_spec (List.length lb + List.length rb) 14); [|discriminate].
    remember (16 - List.length lb - List.length rb)%nat as n eqn:Hn.
    intros Hip. injection Hip as <-. rewrite !length_app, repeat_length. lia.
  - destruct (Spec.groups_v4 (Spec.split_colons s)) as [bs|]; [|discriminate].
    destruct (Nat.eqb_spec (List.length bs) 16); [|discriminate].
    intros Hip. now injection Hip as <-.
Qed.

Lemma ipv6_literal_bad_field (f r : string) :
  Spec.hex_group f = None -> Spec.has_colon f = false -> f <> "" ->
  Spec.contains "%" (f ++ String ":" r) = false ->
  Spec.ipv6_literal (f ++ String ":" r) = None.
Proof.
  intros Hg Hf Hne Hz.
  rewrite ipv6_literal_rest; [now apply v6_rest_bad_field | exact Hz |].
  intros l r0. rewrite (split_ellipsis_app f r Hf).
  destruct r as [|c r']; [discriminate|].
  destruct (Ascii.eqb c ":").
  - intros H. now injection H as <- _.
  - destruct (Spec.split_ellipsis (String c r')) as [[l' r1]|]; [|discriminate].
    intros H. injection H as <- _. destruct f; [contradiction | discriminate].
Qed.

(** [net.ParseIP] reads the strict dotted quads and the IPv6 literals
    without zone, and nothing else. *)
Lemma ParseIP_literal (s : string) :
  net.ParseIP s
  = match Spec.dotted_quad s with
    | Some (a, b, c, d) => net.IPv4 a b c d
    | None =>
        match Spec.ipv6_literal s with
        | Some ip => ip
        | None => []
        end
    end.
Proof.
  destruct (Spec.dotted_quad s) as [[[[a b] c] d]|] eqn:Eq.
  { now apply ParseIP_dotted_quad. }
  pose proof (parseIPv4_dotted_quad s) as Hv4. rewrite Eq in Hv4.
  unfold net.ParseIP, net.ParseAddr.
  destruct (Spec.contains "%" s) eqn:Ez.
  - (* a zone *)
    unfold Spec.ipv6_literal. rewrite Ez.
    destruct (ParseAddr_scan_cases s s Hv4) as [-> | ->]; [reflexivity|].
    unfold net.parseIPv6.
    destruct (net.IndexByteString s "%") as [i|] eqn:Ei.
    + destruct (len (from s (i + 1)) =? 0)%nat eqn:El; [reflexivity|].
      destruct (net.parseIPv6_body (slice s 0 i) (from s (i + 1))) as [a|] eqn:Eb;
        [|reflexivity].
      apply parseIPv6_body_zone in Eb. now rewrite Eb, El.
    + apply contains_percent in Ei. congruence.
  - assert (E6 : net.parseIPv6 s
                 = match Spec.ipv6_literal s with
                   | Some ip => Some (net.Addr6 ip "")
                   | None => None
                   end).
    { unfold net.parseIPv6. apply contains_percent in Ez as Ei. rewrite Ei.
      now apply parseIPv6_body_literal. }
    destruct (first_field s) as (f & tail & Es & Hf & [-> | (r & ->)]).
    + rewrite append_empty in Es. subst f.
      rewrite (ParseAddr_scan_no_colon s s Hf Hv4).
      now rewrite (ipv6_literal_no_colon s Hf).
    + subst s. pose proof Ez as Ezf. rewrite contains_app in Ezf.
      apply orb_false_elim in Ezf. destruct Ezf as [Ezf _].
      rewrite (ParseAddr_scan_field _ f r Hf Ezf Hv4).
      destruct (Spec.contains "." f) eqn:Ed.
      * (* a dot before the first colon *)
        rewrite ipv6_literal_bad_field; [reflexivity | | exact Hf | | exact Ez].
        -- destruct (Spec.hex_group f) as [b|] eqn:Eg; [|reflexivity].
           apply hex_group_inv in Eg. destruct Eg as (v & _ & _ & _ & Hnd). congruence.
        -- intros ->. discriminate Ed.
      * rewrite E6. now destruct (Spec.ipv6_literal (f ++ String ":" r)).
Qed.

(** C4, as the code has it: [getRAddr] returns the broadcast address for the
    empty string; for a non-empty input it returns an address, without
    error, exactly when the input is a strict dotted quad, whose address it
    returns, or an IPv6 literal without zone, whose sixteen bytes it
    returns; on every other input it returns the error of an invalid remote
    address and no address.  An IPv6 literal has a colon: of the inputs
    without colon, only the dotted quads are accepted. *)
Theorem getRAddr_destination (addr : string) :
  getRAddr addr =
    (if (addr =? "")%string then (net.IPv4 255 255 255 255, None)
     else
       match Spec.dotted_quad addr with
       | Some (a, b, c, d) => (net.IPv4 a b c d, None)
       | None =>
           match Spec.ipv6_literal addr with
           | Some ip => (ip, None)
           | None => ([], Some (Errorf "invalid remote address %q" [ArgS addr]))
           end
       end)
  /\ (forall ip : list Z,
        Spec.ipv6_literal addr = Some ip ->
        List.length ip = 16%nat /\ Spec.has_colon addr = true)
  /\ (addr <> "" ->
      (snd (getRAddr addr) = None
       <-> Spec.dotted_quad addr <> None \/ Spec.ipv6_literal addr <> None)).
Proof.
  assert (Hget : getRAddr addr =
    (if (addr =? "")%string then (net.IPv4 255 255 255 255, None)
     else
       match Spec.dotted_quad addr with
       | Some (a, b, c, d) => (net.IPv4 a b c d, None)
       | None =>
           match Spec.ipv6_literal addr with
           | Some ip => (ip, None)
           | None => ([], Some (Errorf "invalid remote address %q" [ArgS addr]))
           end
       end)).
  { unfold getRAddr. destruct (addr =? "")%string; [reflexivity|].
    rewrite ParseIP_literal.
    destruct (Spec.dotted_quad addr) as [[[[a b] c] d]|]; [reflexivity|].
    destruct (Spec.ipv6_literal addr) as [ip|] eqn:E; [|reflexivity].
    apply ipv6_literal_length in E. destruct ip; [discriminate E | reflexivity]. }
  split; [exact Hget|]. split.
  - intros ip E. split; [now apply (ipv6_literal_length addr)|].
    destruct (Spec.has_colon addr) eqn:Hc; [reflexivity|].
    rewrite (ipv6_literal_no_colon addr Hc) in E. discriminate E.
  - intros Hne. rewrite Hget.
    destruct (String.eqb_spec addr ""); [contradiction|].
    destruct (Spec.dotted_quad addr) as [[[[a b] c] d]|].
    + split; [intros _; left; discriminate | reflexivity].
    + destruct (Spec.ipv6_literal addr) as [ip|]; cbn [snd].
      * split; [intros _; right; discriminate | reflexivity].
      * split; [discriminate | intros [H | H]; now elim H].
Qed.

Lemma getRAddr_destination_witness :
  getRAddr "fe80::1ff:192.168.1.255"
  = ([0xfe; 0x80; 0; 0; 0; 0; 0; 0; 0; 0; 0x01; 0xff; 192; 168; 1; 255], None)
  /\ (snd (getRAddr "host:9") = None
      <-> Spec.dotted_quad "host:9" <> None \/ Spec.ipv6_literal "host:9" <> None).
Proof.
  split.
  - exact (proj1 (getRAddr_destination "fe80::1ff:192.168.1.255")).
  - apply (getRAddr_destination "host:9"). discriminate.
Defined.

(** C4, as the specification states it, fails on the IPv6 literals: ["::1"]
    is not empty and not a dotted quad, and [getRAddr] returns its address
    without error. *)
Lemma getRAddr_accepts_IPv6_literal :
  "::1" <> ""
  /\ Spec.dotted_quad "::1" = None
  /\ getRAddr "::1" = ([0; 0; 0; 0; 0; 0; 0; 0; 0; 0; 0; 0; 0; 0; 0; 1], None)
  /\ ~ (forall addr : string,
          addr <> "" -> Spec.dotted_quad addr = None -> snd (getRAddr addr) <> None).
Proof.
  split; [discriminate|]. split; [reflexivity|]. split; [reflexivity|].
  intros H. apply (H "::1"); [discriminate | reflexivity | reflexivity].
Qed.

Example getRAddr_empty : getRAddr "" = (net.IPv4 255 255 255 255, None).
Proof. reflexivity. Qed.

Example getRAddr_subnet_broadcast :
  getRAddr "192.168.1.255" = (net.IPv4 192 168 1 255, None).
Proof. reflexivity. Qed.

Example getRAddr_octet_too_large :
  getRAddr "999.1.1.1"
  = ([], Some (Errorf "invalid remote address %q" [ArgS "999.1.1.1"])).
Proof. reflexivity. Qed.

Example getRAddr_hostname :
  getRAddr "invalid.ip.address"
  = ([], Some (Errorf "invalid remote address %q" [ArgS "invalid.ip.address"])).
Proof. reflexivity. Qed.

Example getRAddr_IPv6_mapped :
  getRAddr "::ffff:192.168.1.255" = (net.IPv4 192 168 1 255, None).
Proof. reflexivity. Qed.

Example getRAddr_IPv6_nine_groups :
  getRAddr "1:2:3:4:5:6:7:8:9"
  = ([], Some (Errorf "invalid remote address %q" [ArgS "1:2:3:4:5:6:7:8:9"])).
Proof. reflexivity. Qed.

Example getRAddr_IPv6_two_ellipses :
  getRAddr "1::2::3"
  = ([], Some (Errorf "invalid remote address %q" [ArgS "1::2::3"])).
Proof. reflexivity. Qed.

Example getRAddr_IPv6_zone :
  getRAddr "fe80::1%eth0"
  = ([], Some (Errorf "invalid remote address %q" [ArgS "fe80::1%eth0"])).
Proof. reflexivity. Qed.

Example getRAddr_host_and_port :
  getRAddr "host:9"
  = ([], Some (Errorf "invalid remote address %q" [ArgS "host:9"])).
Proof. reflexivity. Qed.

Example ipv6_literal_loopback :
  Spec.ipv6_literal "::1" = Some [0; 0; 0; 0; 0; 0; 0; 0; 0; 0; 0; 0; 0; 0; 0; 1].
Proof. reflexivity. Qed.

Example ipv6_literal_documentation :
  Spec.ipv6_literal "2001:db8::68"
  = Some [0x20; 0x01; 0x0d; 0xb8; 0; 0; 0; 0; 0; 0; 0; 0; 0; 0; 0; 0x68].
Proof. reflexivity. Qed.

Example ipv6_literal_full :
  Spec.ipv6_literal "1:2:3:4:5:6:7:8"
  = Some [0; 1; 0; 2; 0; 3; 0; 4; 0; 5; 0; 6; 0; 7; 0; 8].
Proof. reflexivity. Qed.

Example ipv6_literal_nothing_to_expand :
  Spec.ipv6_literal "1:2:3:4:5:6:7:8::" = None.
Proof. reflexivity. Qed.

(** * Further properties of the code *)

(** ** What [net.ParseMAC] returns *)

Lemma ParseMAC_error_form (s : string) (hw : list byte) (e : error) :
  net.ParseMAC s = (hw, Some e) ->
  hw = [] /\ e = AddrError "invalid MAC address" s.
Proof.
  unfold net.ParseMAC. intros H.
  repeat match type of H with
         | (if ?b then _ else _) = _ => destruct b
         | match ?x with _ => _ end = _ => destruct x
         end;
    try discriminate H; injection H as <- <-; now split.
Qed.

Lemma xtoi2_byte (s : string) (e : ascii) : is_byte (fst (net.xtoi2 s e)).
Proof.
  unfold net.xtoi2, is_byte.
  destruct ((2 <? len s)%nat && negb (ceq (at_ s 2) e)); [cbn; lia|].
  destruct (net.xtoi (slice s 0 2)) as [[n ei] ok]. cbn [fst].
  apply Z.mod_pos_bound. lia.
Qed.

Lemma mac_loop3_length (s : string) (k : nat) :
  forall (x : nat) (hw : list byte),
    net.mac_loop3 s k x = Some hw ->
    List.length hw = k /\ Forall is_byte hw.
Proof.
  induction k as [|k IH]; intros x hw H; cbn [net.mac_loop3] in H.
  - injection H as <-. split; [reflexivity | constructor].
  - pose proof (xtoi2_byte (from s x) (at_ s 2)) as Hb.
    destruct (net.xtoi2 (from s x) (at_ s 2)) as [b ok]. cbn [fst] in Hb.
    destruct ok; [|discriminate H].
    destruct (net.mac_loop3 s k (x + 3)) as [hw'|] eqn:E; [|discriminate H].
    injection H as <-. destruct (IH _ _ E) as [Hl Hf].
    split; [cbn; now rewrite Hl | now constructor].
Qed.

Lemma mac_loop5_length (s : string) (k : nat) :
  forall (x : nat) (hw : list byte),
    net.mac_loop5 s k x = Some hw ->
    List.length hw = (2 * k)%nat /\ Forall is_byte hw.
Proof.
  induction k as [|k IH]; intros x hw H; cbn [net.mac_loop5] in H.
  - injection H as <-. split; [reflexivity | constructor].
  - pose proof (xtoi2_byte (slice s x (x + 2)) zero) as Hb0.
    destruct (net.xtoi2 (slice s x (x + 2)) zero) as [b0 ok0]. cbn [fst] in Hb0.
    destruct ok0; [|discriminate H].
    pose proof (xtoi2_byte (from s (x + 2)) (at_ s 4)) as Hb1.
    destruct (net.xtoi2 (from s (x + 2)) (at_ s 4)) as [b1 ok1]. cbn [fst] in Hb1.
    destruct ok1; [|discriminate H].
    destruct (net.mac_loop5 s k (x + 5)) as [hw'|] eqn:E; [|discriminate H].
    injection H as <-. destruct (IH _ _ E) as [Hl Hf].
    split; [cbn [List.length]; rewrite Hl; lia | constructor; [|constructor]; assumption].
Qed.

Lemma wrong_size_false (n : nat) :
  net.wrong_size n = false -> n = 6%nat \/ n = 8%nat \/ n = 20%nat.
Proof.
  unfold net.wrong_size.
  destruct (Nat.eqb_spec n 6); [now left|].
  destruct (Nat.eqb_spec n 8); [right; now left|].
  destruct (Nat.eqb_spec n 20); [right; now right | discriminate].
Qed.

(** The address that [net.ParseMAC] reads has 6, 8 or 20 bytes: a third of
    [len(s) + 1] in the colon and hyphen forms, two fifths in the dotted
    form. *)
Lemma ParseMAC_length (s : string) (hw : list byte) :
  net.ParseMAC s = (hw, None) ->
  (List.length hw = 6%nat \/ List.length hw = 8%nat \/ List.length hw = 20%nat)
  /\ Forall is_byte hw
  /\ (((len s + 1) mod 3 = 0 /\ List.length hw = (len s + 1) / 3)
      \/ ((len s + 1) mod 5 = 0 /\ List.length hw = 2 * (len s + 1) / 5))%nat.
Proof.
  unfold net.ParseMAC. intros H.
  destruct (len s <? 14)%nat; [discriminate H|].
  destruct (ceq (at_ s 2) ":" || ceq (at_ s 2) "-").
  - destruct (Nat.eqb_spec ((len s + 1) mod 3) 0) as [Hm|]; [|discriminate H].
    cbn [negb] in H.
    destruct (net.wrong_size ((len s + 1) / 3)) eqn:Hw; [discriminate H|].
    destruct (net.mac_loop3 s ((len s + 1) / 3) 0) as [hw'|] eqn:E; [|discriminate H].
    injection H as <-. apply mac_loop3_length in E. destruct E as [El Ef].
    apply wrong_size_false in Hw. rewrite El.
    split; [exact Hw|]. split; [exact Ef|]. left. now split.
  - destruct (ceq (at_ s 4) "."); [|discriminate H].
    destruct (Nat.eqb_spec ((len s + 1) mod 5) 0) as [Hm|]; [|discriminate H].
    cbn [negb] in H.
    destruct (net.wrong_size (2 * (len s + 1) / 5)) eqn:Hw; [discriminate H|].
    destruct (net.mac_loop5 s (2 * (len s + 1) / 5 / 2) 0) as [hw'|] eqn:E;
      [|discriminate H].
    injection H as <-. apply mac_loop5_length in E. destruct E as [El Ef].
    apply wrong_size_false in Hw.
    assert (Hn : (2 * (2 * (len s + 1) / 5 / 2) = 2 * (len s + 1) / 5)%nat).
    { destruct Hw as [-> | [-> | ->]]; reflexivity. }
    rewrite El, Hn.
    split; [exact Hw|]. split; [exact Ef|]. right. now split.
Qed.

(** ** The packet builder *)

(** X1: when [WriteMAC] fails the packet is returned as it was, and the
    error names the address: it wraps the [net.AddrError] of [net.ParseMAC],
    which carries the address too. *)
Theorem WriteMAC_failure_keeps_packet (p : Packet) (addr : string) (e : error) :
  snd (WriteMAC p addr) = Some e ->
  fst (WriteMAC p addr) = p
  /\ e = Wrapf "invalid MAC address %q: %w" [ArgS addr]
           (AddrError "invalid MAC address" addr)
  /\ Unwrap e = Some (AddrError "invalid MAC address" addr).
Proof.
  unfold WriteMAC. destruct (net.ParseMAC addr) as [hw [e'|]] eqn:E; cbn [fst snd].
  - apply ParseMAC_error_form in E. destruct E as [_ ->].
    intros H. injection H as <-. now repeat split.
  - discriminate.
Qed.

Lemma WriteMAC_failure_keeps_packet_witness :
  fst (WriteMAC (mkPacket [255; 255]) "00:11:22:33:44") = mkPacket [255; 255].
Proof.
  exact (proj1 (WriteMAC_failure_keeps_packet (mkPacket [255; 255]) "00:11:22:33:44"
                  _ eq_refl)).
Defined.

(** X2: a successful [WriteMAC] appends sixteen copies of an address of 6, 8
    or 20 bytes, that is 96, 128 or 320 bytes, each in [0, 256); after
    [writeHeader] on a fresh packet the payload has 102, 134 or 326 bytes. *)
Theorem WriteMAC_success_sizes (p p' : Packet) (addr : string) :
  WriteMAC p addr = (p', None) ->
  exists hw,
    payload p' = payload p ++ List.concat (repeat hw 16)
    /\ Forall is_byte hw
    /\ (List.length hw = 6%nat \/ List.length hw = 8%nat \/ List.length hw = 20%nat)
    /\ List.length (payload p') = (List.length (payload p) + 16 * List.length hw)%nat
    /\ (p = writeHeader newPacket ->
        List.length (payload p') = 102%nat \/ List.length (payload p') = 134%nat
        \/ List.length (payload p') = 326%nat).
Proof.
  intros H. destruct (WriteMAC_inv _ _ _ H) as (hw & E & P).
  destruct (ParseMAC_length _ _ E) as (Hlen & Hb & _).
  exists hw. split; [exact P|]. split; [exact Hb|]. split; [exact Hlen|].
  assert (Hc : List.length (List.concat (repeat hw 16)) = (16 * List.length hw)%nat).
  { cbn [repeat List.concat]. rewrite !length_app. cbn [List.length]. lia. }
  split.
  - rewrite P, length_app, Hc. reflexivity.
  - intros ->. rewrite P, length_app, Hc. cbn [List.length].
    change (List.length (payload (writeHeader newPacket))) with 6%nat. lia.
Qed.

Lemma WriteMAC_success_sizes_witness :
  exists hw,
    payload (fst (WriteMAC (writeHeader newPacket) "0200.5e10.0000.0001"))
    = payload (writeHeader newPacket) ++ List.concat (repeat hw 16)
    /\ Forall is_byte hw.
Proof.
  destruct (WriteMAC_success_sizes (writeHeader newPacket)
              (fst (WriteMAC (writeHeader newPacket) "0200.5e10.0000.0001"))
              "0200.5e10.0000.0001" eq_refl) as (hw & P & B & _).
  exists hw. split; assumption.
Defined.

(** ** The transmitter *)

Lemma store_length (a : list byte) (i : nat) (v : byte) :
  List.length (net.store a i v) = List.length a.
Proof.
  revert i. induction a as [|x a IH]; intros i; [now destruct i|].
  destruct i; cbn; [reflexivity | now rewrite IH].
Qed.

(** The outer loop of [parseIPv6] keeps the sixteen bytes, fills at most
    sixteen of them and leaves the ellipsis within what it filled. *)
Lemma parseIPv6_loop_inv (k : nat) :
  forall (s : string) (ip : list byte) (i : nat) (ellipsis : Z) (st : net.v6state),
    net.parseIPv6_loop k s ip i ellipsis = Some st ->
    List.length ip = 16%nat -> (i + 2 * k = 16)%nat -> ellipsis <= Z.of_nat i ->
    List.length (net.v6_ip st) = 16%nat
    /\ (net.v6_i st <= 16)%nat
    /\ net.v6_ellipsis st <= Z.of_nat (net.v6_i st).
Proof.
  induction k as [|k IH]; intros s ip i ellipsis st H Hip Hi He;
    cbn [net.parseIPv6_loop] in H.
  - injection H as <-. cbn. repeat split; [assumption | lia | assumption].
  - destruct (net.hexgroup s 0 0) as [[off acc]|]; [|discriminate H].
    destruct (off =? 0)%nat; [discriminate H|].
    destruct ((off <? len s)%nat && ceq (at_ s off) ".").
    + destruct ((ellipsis <? 0) && negb (i =? 12)%nat); [discriminate H|].
      destruct (Nat.ltb_spec 16 (i + 4)); [discriminate H|].
      destruct (net.parseIPv4 s) as [ip4|]; [|discriminate H].
      injection H as <-. cbn. rewrite !store_length. repeat split; lia.
    + set (ip' := net.store (net.store ip i (Z.shiftr acc 8 mod 256)) (i + 1)
                    (acc mod 256)) in H.
      assert (Hip' : List.length ip' = 16%nat).
      { unfold ip'. now rewrite !store_length. }
      cbv zeta in H.
      destruct (len (from s off) =? 0)%nat.
      { injection H as <-. cbn. repeat split; [assumption | lia | lia]. }
      destruct (negb (ceq (at_ (from s off) 0) ":")); [discriminate H|].
      destruct (len (from s off) =? 1)%nat; [discriminate H|].
      destruct (ceq (at_ (from (from s off) 1) 0) ":").
      * destruct (0 <=? ellipsis); [discriminate H|].
        destruct (len (from (from (from s off) 1) 1) =? 0)%nat.
        { injection H as <-. cbn. repeat split; [assumption | lia | lia]. }
        apply IH in H; [exact H | assumption | lia | lia].
      * apply IH in H; [exact H | assumption | lia | lia].
Qed.

Lemma parseIPv6_body_length (s zone : string) (a : net.Addr) :
  net.parseIPv6_body s zone = Some a -> List.length (net.As16 a) = 16%nat.
Proof.
  unfold net.parseIPv6_body.
  set (start := if (2 <=? len s)%nat && ceq (at_ s 0) ":" && ceq (at_ s 1) ":"
                then (from s 2, 0, (len (from s 2) =? 0)%nat)
                else (s, -1, false)).
  assert (Hstart : snd (fst start) <= 0).
  { unfold start. destruct ((2 <=? len s)%nat && ceq (at_ s 0) ":" && ceq (at_ s 1) ":");
      cbn; lia. }
  destruct start as [[s' ellipsis] only]. cbn [fst snd] in Hstart.
  destruct only.
  { intros Hr. injection Hr as <-. reflexivity. }
  destruct (net.parseIPv6_loop 8 s' (repeat 0 16) 0 ellipsis) as [st|] eqn:E;
    [|discriminate].
  apply parseIPv6_loop_inv in E; [| reflexivity | reflexivity | cbn; lia].
  destruct E as (Hip & Hi & He).
  destruct (negb (len (net.v6_s st) =? 0)%nat); [discriminate|].
  destruct (Nat.ltb_spec (net.v6_i st) 16).
  - destruct (Z.ltb_spec (net.v6_ellipsis st) 0); [discriminate|].
    remember (16 - net.v6_i st)%nat as n eqn:Hn.
    intros Hr. injection Hr as <-. cbn [net.As16].
    rewrite !length_app, !length_firstn, length_skipn, repeat_length, Hip. lia.
  - destruct (0 <=? net.v6_ellipsis st); [discriminate|].
    intros Hr. injection Hr as <-. exact Hip.
Qed.

Lemma parseIPv6_length (s : string) (a : net.Addr) :
  net.parseIPv6 s = Some a -> List.length (net.As16 a) = 16%nat.
Proof.
  unfold net.parseIPv6. destruct (net.IndexByteString s "%") as [i|].
  - destruct (len (from s (i + 1)) =? 0)%nat; [discriminate|].
    apply parseIPv6_body_length.
  - apply parseIPv6_body_length.
Qed.

(** [net.ParseIP] returns [nil] or an address of 16 bytes. *)
Lemma ParseIP_length (s : string) :
  net.ParseIP s = [] \/ List.length (net.ParseIP s) = 16%nat.
Proof.
  unfold net.ParseIP, net.ParseAddr.
  destruct (net.ParseAddr_scan s s) as [a|] eqn:E; [|now left].
  destruct (negb (len (net.Zone a) =? 0)%nat); [now left|]. right.
  revert E. generalize s at 2. intros rest.
  induction rest as [|c rest IH]; cbn [net.ParseAddr_scan]; [discriminate|].
  destruct (ceq c ".").
  - pose proof (parseIPv4_dotted_quad s) as H4.
    destruct (net.parseIPv4 s) as [f|]; [|discriminate].
    intros H. injection H as <-.
    destruct (Spec.dotted_quad s) as [[[[x y] z] w]|]; [|discriminate H4].
    injection H4 as ->. reflexivity.
  - destruct (ceq c ":"); [apply parseIPv6_length|].
    destruct (ceq c "%"); [discriminate | exact IH].
Qed.

Lemma getPort_ok_values (port : string) (n : Z) :
  getPort port = (n, None) -> wol_port n.
Proof.
  unfold getPort, wol_port.
  destruct (port =? "")%string; [intros H; injection H as <-; now right; right|].
  destruct (strconv.Atoi port) as [portNum [e|]]; [discriminate|].
  cbn [range_has].
  destruct (Z.eqb_spec portNum 0); [intros H; injection H as <-; now left|].
  destruct (Z.eqb_spec portNum 7); [intros H; injection H as <-; right; now left|].
  destruct (Z.eqb_spec portNum 9); [intros H; injection H as <-; right; now right|].
  discriminate.
Qed.

(** X3: [getRAddr] returns either an address of 16 bytes and no error, or
    no address and an error; and the port that [getPort] returns without
    error is 0, 7 or 9. *)
Theorem resolved_destination_well_formed (ip port : string) :
  match getRAddr ip with
  | (a, None) => List.length a = 16%nat
  | (a, Some _) => a = []
  end
  /\ match getPort port with
     | (n, None) => wol_port n
     | (n, Some _) => n = 0
     end.
Proof.
  split.
  - unfold getRAddr. destruct (ip =? "")%string; [reflexivity|].
    destruct (ParseIP_length ip) as [-> | H]; [reflexivity|].
    destruct (net.ParseIP ip); [discriminate H | exact H].
  - destruct (getPort port) as [n [e|]] eqn:E; [|now apply (getPort_ok_values port)].
    unfold getPort in E. destruct (port =? "")%string; [discriminate E|].
    destruct (strconv.Atoi port) as [portNum [e'|]].
    + now injection E as <- _.
    + destruct (range_has portNum [0; 7; 9]); [discriminate E|].
      now injection E as <- _.
Qed.

Lemma getRAddr_ok_length (ip : string) (a : net.IP) :
  getRAddr ip = (a, None) -> List.length a = 16%nat.
Proof.
  unfold getRAddr. destruct (ip =? "")%string.
  - intros H. now injection H as <-.
  - destruct (ParseIP_length ip) as [-> | Hl]; [discriminate|].
    destruct (net.ParseIP ip) eqn:E; [discriminate|].
    intros H. now injection H as <-.
Qed.

(** ** The entry point *)

(** X4: all that [SendMagic] does on the network is one dial, on [udp4], to
    an address of 16 bytes and a port among 0, 7 and 9, followed when the
    dial succeeds by one write of the header and sixteen copies of the
    parsed address, and by the close. *)
Theorem SendMagic_network_use (macAddr passwd ip port : string) (nw : Network) :
  let tr := snd (SendMagic macAddr passwd ip port nw) in
  tr = []
  \/ exists raddr,
       List.length (addr_IP raddr) = 16%nat
       /\ wol_port (addr_Port raddr)
       /\ ((tr = [EvDial "udp4" raddr] /\ dial_error nw "udp4" raddr <> None)
           \/ exists hw,
                net.ParseMAC macAddr = (hw, None)
                /\ dial_error nw "udp4" raddr = None
                /\ tr = [EvDial "udp4" raddr;
                         EvWrite raddr (repeat 0xFF 6 ++ List.concat (repeat hw 16));
                         EvClose raddr]).
Proof.
  cbv zeta.
  destruct (String.eqb_spec passwd "") as [-> | Hpw];
    [| left; now rewrite SendMagic_password].
  pose proof (SendMagic_error_stages macAddr ip port nw) as H.
  destruct (SendMagic macAddr "" ip port nw) as [err tr]. cbn [snd].
  destruct (net.ParseMAC macAddr) as [hw [e|]]; [left; apply H|].
  destruct (getRAddr ip) as [a [e|]] eqn:Ea; [left; apply H|].
  destruct (getPort port) as [n [e|]] eqn:En; [left; apply H|].
  cbv zeta in H. right. exists (mkUDPAddr a n).
  split; [exact (getRAddr_ok_length _ _ Ea)|].
  split; [exact (getPort_ok_values _ _ En)|].
  destruct (dial_error nw "udp4" (mkUDPAddr a n)) as [e|].
  - left. split; [apply H | discriminate].
  - right. exists hw. repeat split. apply H.
Qed.

(** X5: [SendMagic] returns [nil] exactly when it has dialled, written the
    datagram and closed, the dial and the write having succeeded. *)
Theorem SendMagic_nil_iff_written (macAddr passwd ip port : string) (nw : Network) :
  fst (SendMagic macAddr passwd ip port nw) = None
  <-> exists raddr datagram,
        snd (SendMagic macAddr passwd ip port nw)
        = [EvDial "udp4" raddr; EvWrite raddr datagram; EvClose raddr]
        /\ dial_error nw "udp4" raddr = None
        /\ write_error nw raddr datagram = None.
Proof.
  destruct (String.eqb_spec passwd "") as [-> | Hpw].
  2:{ rewrite SendMagic_password by assumption. cbn [fst snd].
      split; [discriminate | intros (? & ? & H & _); discriminate H]. }
  pose proof (SendMagic_error_stages macAddr ip port nw) as H.
  destruct (SendMagic macAddr "" ip port nw) as [err tr]. cbn [fst snd].
  destruct (net.ParseMAC macAddr) as [hw [e|]].
  { destruct H as [-> ->]. split; [discriminate | intros (? & ? & H & _); discriminate H]. }
  destruct (getRAddr ip) as [a [e|]].
  { destruct H as [-> ->]. split; [discriminate | intros (? & ? & H & _); discriminate H]. }
  destruct (getPort port) as [n [e|]].
  { destruct H as [-> ->]. split; [discriminate | intros (? & ? & H & _); discriminate H]. }
  cbv zeta in H.
  destruct (dial_error nw "udp4" (mkUDPAddr a n)) as [e|] eqn:Ed.
  { destruct H as [-> ->]. split; [discriminate | intros (? & ? & H & _); discriminate H]. }
  remember (repeat 255 6 ++ List.concat (repeat hw 16)) as d eqn:Hd in H.
  destruct H as [-> ->]. split.
  - intros Hw. eexists _, _. split; [reflexivity|]. split; [exact Ed|].
    now destruct (write_error nw (mkUDPAddr a n) d).
  - intros (raddr & datagram & Htr & _ & Hw).
    injection Htr; intros; subst. now rewrite Hw.
Qed.

(** X6: [SendMagic] leaves the network alone exactly when the password is
    not empty or one of the MAC address, the IP address and the port is
    refused; it then returns an error. *)
Theorem SendMagic_silent_iff_invalid (macAddr passwd ip port : string)
    (nw : Network) :
  (snd (SendMagic macAddr passwd ip port nw) = []
   <-> passwd <> ""
       \/ snd (net.ParseMAC macAddr) <> None
       \/ snd (getRAddr ip) <> None
       \/ snd (getPort port) <> None)
  /\ (snd (SendMagic macAddr passwd ip port nw) = []
      -> fst (SendMagic macAddr passwd ip port nw) <> None).
Proof.
  destruct (String.eqb_spec passwd "") as [-> | Hpw].
  2:{ rewrite SendMagic_password by assumption. cbn [fst snd].
      split; [split; [now left | reflexivity] | discriminate]. }
  pose proof (SendMagic_error_stages macAddr ip port nw) as H.
  destruct (SendMagic macAddr "" ip port nw) as [err tr]. cbn [fst snd].
  destruct (net.ParseMAC macAddr) as [hw [e|]]; cbn [snd].
  { destruct H as [-> ->].
    split; [split; [right; left; discriminate | reflexivity] | discriminate]. }
  destruct (getRAddr ip) as [a [e|]]; cbn [snd].
  { destruct H as [-> ->].
    split; [split; [right; right; left; discriminate | reflexivity] | discriminate]. }
  destruct (getPort port) as [n [e|]]; cbn [snd].
  { destruct H as [-> ->].
    split; [split; [right; right; right; discriminate | reflexivity] | discriminate]. }
  cbv zeta in H.
  assert (Htr : tr <> []).
  { destruct (dial_error nw "udp4" (mkUDPAddr a n)); destruct H as [H1 H2];
      subst; discriminate. }
  split; [|intros E; contradiction].
  split; [intros E; contradiction|].
  intros [Hc | [Hc | [Hc | Hc]]]; now elim Hc.
Qed.

(** X7: every error that [SendMagic] returns without password wraps, under
    two [fmt.Errorf] with [%w], the error of the stage that failed: of
    [net.ParseMAC], of [getRAddr], of [getPort], of the dial or of the
    write. *)
Theorem SendMagic_error_wraps_stage (macAddr ip port : string) (nw : Network)
    (err : error) :
  fst (SendMagic macAddr "" ip port nw) = Some err ->
  exists context1 context2 args cause,
    err = Wrapf context1 [] (Wrapf context2 args cause)
    /\ wraps err cause
    /\ (snd (net.ParseMAC macAddr) = Some cause
        \/ snd (getRAddr ip) = Some cause
        \/ snd (getPort port) = Some cause
        \/ (exists raddr, dial_error nw "udp4" raddr = Some cause)
        \/ (exists raddr b, write_error nw raddr b = Some cause)).
Proof.
  pose proof (SendMagic_error_stages macAddr ip port nw) as H.
  destruct (SendMagic macAddr "" ip port nw) as [r tr]. cbn [fst].
  intros ->.
  assert (W : forall f g a b e, wraps (Wrapf f a (Wrapf g b e)) e).
  { intros. eapply wraps_step; [reflexivity|].
    eapply wraps_step; [reflexivity | apply wraps_refl]. }
  destruct (net.ParseMAC macAddr) as [hw [e|]].
  { destruct H as [H _]. injection H as ->. eexists _, _, _, e.
    split; [reflexivity|]. split; [apply W | left; reflexivity]. }
  destruct (getRAddr ip) as [a [e|]].
  { destruct H as [H _]. injection H as ->. eexists _, _, _, e.
    split; [reflexivity|]. split; [apply W | right; left; reflexivity]. }
  destruct (getPort port) as [n [e|]].
  { destruct H as [H _]. injection H as ->. eexists _, _, _, e.
    split; [reflexivity|]. split; [apply W | right; right; left; reflexivity]. }
  cbv zeta in H.
  destruct (dial_error nw "udp4" (mkUDPAddr a n)) as [e|] eqn:Ed.
  { destruct H as [H _]. injection H as ->. eexists _, _, _, e.
    split; [reflexivity|].
    split; [apply W | right; right; right; left; eexists; eassumption]. }
  destruct H as [_ H].
  destruct (write_error nw (mkUDPAddr a n) _) as [e|] eqn:Ew; [|discriminate H].
  injection H as ->. eexists _, _, _, e. split; [reflexivity|].
  split; [apply W | right; right; right; right; eexists _, _; eassumption].
Qed.

Lemma SendMagic_error_wraps_stage_witness :
  exists context1 context2 args cause,
    Wrapf "send UDP: %w" []
      (Wrapf "parse port: %w" []
         (Errorf "port %d not supported (use 0, 7, or 9)" [ArgD 80]))
    = Wrapf context1 [] (Wrapf context2 args cause).
Proof.
  destruct (SendMagic_error_wraps_stage "00:11:22:33:44:55" "255.255.255.255" "80"
              reliable_network _ eq_refl)
    as (c1 & c2 & args & cause & E & _).
  now exists c1, c2, args, cause.
Defined.

(** X8: the empty IP address and the empty port are the broadcast address
    and the port 9: [SendUDP] and [SendMagic] do with them what they do with
    ["255.255.255.255"] and ["9"]. *)
Theorem empty_destination_is_default (p : Packet) (macAddr passwd ip port : string)
    (nw : Network) :
  SendUDP p "" port nw = SendUDP p "255.255.255.255" port nw
  /\ SendUDP p ip "" nw = SendUDP p ip "9" nw
  /\ SendMagic macAddr passwd "" "" nw
     = SendMagic macAddr passwd "255.255.255.255" "9" nw.
Proof.
  assert (Ha : getRAddr "" = getRAddr "255.255.255.255") by reflexivity.
  assert (Hp : getPort "" = getPort "9") by reflexivity.
  assert (H1 : forall q port', SendUDP q "" port' nw = SendUDP q "255.255.255.255" port' nw).
  { intros. unfold SendUDP. now rewrite Ha. }
  assert (H2 : forall q ip', SendUDP q ip' "" nw = SendUDP q ip' "9" nw).
  { intros. unfold SendUDP. now rewrite Hp. }
  split; [apply H1|]. split; [apply H2|].
  unfold SendMagic. destruct (passwd =? "")%string; [|reflexivity].
  destruct (WriteMAC (writeHeader newPacket) macAddr) as [pk [e|]]; [reflexivity|].
  unfold bind. now rewrite H1, H2.
Qed.

(** ** The earlier version *)

Lemma Legacy_writeHeader_run (p : Packet) (nw : Network) :
  Legacy.writeHeader p nw = (writeHeader p, repeat (EvPrint [PBytes [255]]) 6).
Proof. reflexivity. Qed.

(** X9: the earlier [WriteMAC] accepts an address exactly when the current
    one does and the address has 17 or 14 characters; the address then has
    6 bytes and the packet is the one that the current [WriteMAC] builds, of
    102 bytes after the header.  When it fails the packet is as it was. *)
Theorem Legacy_WriteMAC_only_EUI48 (p : Packet) (addr : string) :
  match Legacy.WriteMAC p addr with
  | (p', None) =>
      WriteMAC p addr = (p', None)
      /\ exists hw,
           List.length hw = 6%nat
           /\ payload p' = payload p ++ List.concat (repeat hw 16)
           /\ List.length (payload p') = (List.length (payload p) + 96)%nat
  | (p', Some e) =>
      p' = p
      /\ (e = AddrError "invalid MAC address" addr
          \/ e = Errorf "address %s: invalid EUI-48 format" [ArgS addr])
  end
  /\ (snd (Legacy.WriteMAC p addr) = None
      <-> snd (WriteMAC p addr) = None /\ (len addr = 17%nat \/ len addr = 14%nat)).
Proof.
  unfold Legacy.WriteMAC, WriteMAC.
  destruct (net.ParseMAC addr) as [hw [e|]] eqn:E.
  - apply ParseMAC_error_form in E. destruct E as [_ ->].
    split; [split; [reflexivity | now left]|].
    cbn [snd]. split; [discriminate | intros [H _]; discriminate H].
  - destruct (Nat.eqb_spec (len addr) 17) as [H17 | H17];
      [| destruct (Nat.eqb_spec (len addr) 14) as [H14 | H14]]; cbn [orb negb snd].
    + split; [| split; [intros _; split; [reflexivity | now left] | reflexivity]].
      split; [reflexivity|].
      destruct (ParseMAC_length _ _ E) as (Hs & _ & [[_ Hl] | [Hm _]]).
      * exists hw. rewrite H17 in Hl. change ((17 + 1) / 3)%nat with 6%nat in Hl.
        split; [exact Hl|]. split; [apply for_range_Write|].
        rewrite for_range_Write, length_app. cbn [repeat List.concat].
        rewrite !length_app, Hl. reflexivity.
      * rewrite H17 in Hm. discriminate Hm.
    + split; [| split; [intros _; split; [reflexivity | now right] | reflexivity]].
      split; [reflexivity|].
      destruct (ParseMAC_length _ _ E) as (Hs & _ & [[_ Hl] | [_ Hl]]).
      * rewrite H14 in Hl. change ((14 + 1) / 3)%nat with 5%nat in Hl.
        rewrite Hl in Hs. destruct Hs as [Hs | [Hs | Hs]]; discriminate Hs.
      * exists hw. rewrite H14 in Hl. change (2 * (14 + 1) / 5)%nat with 6%nat in Hl.
        split; [exact Hl|]. split; [apply for_range_Write|].
        rewrite for_range_Write, length_app. cbn [repeat List.concat].
        rewrite !length_app, Hl. reflexivity.
    + split; [split; [reflexivity | now right]|].
      split; [discriminate | intros [_ [H | H]]; contradiction].
Qed.

(** X10: the earlier [getRAddr] always returns an address of 16 bytes: the
    one that the current [getRAddr] returns and, where the current one
    fails, the broadcast address; it returns an error besides, also for the
    empty string. *)
Theorem Legacy_getRAddr_always_an_address (addr : string) :
  List.length (fst (Legacy.getRAddr addr)) = 16%nat
  /\ fst (Legacy.getRAddr addr)
     = match getRAddr addr with
       | (a, None) => a
       | (_, Some _) => net.IPv4 255 255 255 255
       end
  /\ (snd (Legacy.getRAddr addr) = None
      <-> addr <> "" /\ snd (getRAddr addr) = None).
Proof.
  unfold Legacy.getRAddr, getRAddr.
  destruct (String.eqb_spec addr "") as [-> | Hne].
  - cbn. repeat split; try discriminate. intros [H _]. now elim H.
  - destruct (ParseIP_length addr) as [-> | Hl].
    + cbn [fst snd]. repeat split; try discriminate. intros [_ H]. discriminate H.
    + destruct (net.ParseIP addr) as [|b l]; [discriminate Hl|].
      cbn [fst snd]. repeat split; assumption.
Qed.

(** X11: the earlier [getPort] always returns one of 0, 7 and 9.  It
    returns an integer of the list as it is; for an integer outside the list
    it returns 9 with an error; and on what is not an integer of 64 bits,
    the empty string too, it prints 9 and returns 9 without error. *)
Theorem Legacy_getPort_defaults (port : string) (nw : Network) :
  match Spec.decimal_int port with
  | Some m =>
      if int64_range m then
        if (m =? 0) || (m =? 7) || (m =? 9) then
          Legacy.getPort port nw = ((m, None), [])
        else
          Legacy.getPort port nw
          = ((9, Some (Errorf "port %d: invalid, we've selected port %d for you"
                         [ArgD m; ArgD 9])), [])
      else Legacy.getPort port nw = ((9, None), [EvPrint [PInt 9]])
  | None => Legacy.getPort port nw = ((9, None), [EvPrint [PInt 9]])
  end
  /\ wol_port (fst (fst (Legacy.getPort port nw))).
Proof.
  assert (H : match Spec.decimal_int port with
              | Some m =>
                  if int64_range m then
                    if (m =? 0) || (m =? 7) || (m =? 9) then
                      Legacy.getPort port nw = ((m, None), [])
                    else
                      Legacy.getPort port nw
                      = ((9, Some (Errorf
                                     "port %d: invalid, we've selected port %d for you"
                                     [ArgD m; ArgD 9])), [])
                  else Legacy.getPort port nw = ((9, None), [EvPrint [PInt 9]])
              | None => Legacy.getPort port nw = ((9, None), [EvPrint [PInt 9]])
              end).
  { unfold Legacy.getPort. pose proof (Atoi_decimal port) as H.
    destruct (Spec.decimal_int port) as [m|].
    - destruct (int64_range m).
      + rewrite H. unfold bind, ret. cbn [range_has].
        destruct (m =? 0); [reflexivity|].
        destruct (m =? 7); [reflexivity|].
        destruct (m =? 9); reflexivity.
      + destruct H as (w & ->). reflexivity.
    - destruct H as (w & kind & ->). reflexivity. }
  split; [exact H|].
  unfold wol_port.
  destruct (Spec.decimal_int port) as [m|].
  - destruct (int64_range m).
    + destruct (Z.eqb_spec m 0); [rewrite H; now left|].
      destruct (Z.eqb_spec m 7); [rewrite H; right; now left|].
      destruct (Z.eqb_spec m 9); rewrite H; right; now right.
    + rewrite H. right. now right.
  - rewrite H. right. now right.
Qed.

Lemma prints_observed (nw : Network) (prints tr : list event) :
  Forall is_print prints ->
  datagrams (prints ++ tr) = datagrams tr
  /\ dialled (prints ++ tr) = dialled tr
  /\ forall open, unreleased nw (prints ++ tr) open = unreleased nw tr open.
Proof.
  induction 1 as [|ev prints Hev _ IH]; [now repeat split|].
  destruct ev; try contradiction. cbn. exact IH.
Qed.

Lemma Legacy_getPort_prints (port : string) (nw : Network) :
  Forall is_print (snd (Legacy.getPort port nw)).
Proof.
  unfold Legacy.getPort. destruct (strconv.Atoi port) as [ps [e|]];
    unfold bind, ret, emit.
  - cbn. repeat constructor.
  - destruct (range_has ps [0; 7; 9]); cbn; constructor.
Qed.

(** What the earlier [SendUDP] does: it prints, dials the address and the
    port that the earlier [getRAddr] and [getPort] return, and panics if the
    dial fails; else it prints the payload, closes and returns [nil]. *)
Lemma Legacy_SendUDP_run (p : Packet) (ip port : string) (nw : Network) :
  exists prints,
    Forall is_print prints
    /\ Legacy.SendUDP p ip port nw
       = let raddr := mkUDPAddr (fst (Legacy.getRAddr ip))
                        (fst (fst (Legacy.getPort port nw))) in
         match dial_error nw "udp4" raddr with
         | Some e => (Panicked e, prints ++ [EvDial "udp4" raddr])
         | None =>
             (Returned None,
              prints ++ [EvDial "udp4" raddr;
                         EvPrint [PStr "The payload: %X.\n"; PBytes (payload p)];
                         EvClose raddr])
         end.
Proof.
  pose proof (Legacy_getPort_prints port nw) as Hp.
  unfold Legacy.SendUDP.
  destruct (Legacy.getRAddr ip) as [remoteIP e1].
  unfold bind at 1. unfold bind at 1.
  destruct (Legacy.getPort port nw) as [[remotePort e2] t2]. cbn [fst snd] in *.
  exists ((snd (Legacy.print_if_error e1 nw) ++ t2)
          ++ snd (Legacy.print_if_error e2 nw)).
  split.
  - apply Forall_app. split; [apply Forall_app; split|]; try assumption.
    + destruct e1; cbn; repeat constructor.
    + destruct e2; cbn; repeat constructor.
  - destruct (Legacy.print_if_error e1 nw) as [[] t1].
    unfold bind, DialUDP, defer_Close, bind, emit, ret. cbn [fst snd].
    destruct (Legacy.print_if_error e2 nw) as [[] t3]. cbn [fst snd].
    destruct (dial_error nw "udp4" (mkUDPAddr remoteIP remotePort));
      cbn; now rewrite <- ?app_assoc.
Qed.

(** The earlier [SendMagic] is what it prints while it builds the packet,
    and then the earlier [SendUDP] on some packet. *)
Lemma Legacy_SendMagic_run (macAddr passwd ip port : string) (nw : Network) :
  exists prints pk,
    Forall is_print prints
    /\ Legacy.SendMagic macAddr passwd ip port nw
       = (fst (Legacy.SendUDP pk ip port nw),
          prints ++ snd (Legacy.SendUDP pk ip port nw))
    /\ (passwd <> "" -> pk = newPacket)
    /\ (passwd = "" -> payload pk = payload (fst (Legacy.WriteMAC (writeHeader newPacket) macAddr))).
Proof.
  unfold Legacy.SendMagic.
  destruct (String.eqb_spec passwd "") as [-> | Hpw].
  - unfold bind at 1. unfold bind at 1. rewrite Legacy_writeHeader_run.
    destruct (Legacy.WriteMAC (writeHeader newPacket) macAddr) as [pk err].
    exists (repeat (EvPrint [PBytes [255]]) 6
            ++ [match err with
                | Some e => EvPrint [PErr e]
                | None => EvPrint [PStr "Send magic packet without password..."]
                end]), pk.
    split; [destruct err; repeat constructor|].
    split; [| split; [intros H; now elim H | reflexivity]].
    unfold bind, ret, emit.
    destruct err; destruct (Legacy.SendUDP pk ip port nw) as [[[e'|]|v] tr];
      cbn; now rewrite ?app_nil_r.
  - exists [EvPrint [PStr "We don't support Wake-on-LAN password yet..."]], newPacket.
    split; [repeat constructor|].
    split; [| split; [reflexivity | intros H; contradiction]].
    unfold bind, ret, emit.
    destruct (Legacy.SendUDP newPacket ip port nw) as [[[e|]|v] tr];
      cbn; now rewrite ?app_nil_r.
Qed.

Lemma Legacy_destination (ip port : string) (nw : Network) :
  List.length (fst (Legacy.getRAddr ip)) = 16%nat
  /\ wol_port (fst (fst (Legacy.getPort port nw))).
Proof.
  split.
  - unfold Legacy.getRAddr.
    destruct (ParseIP_length ip) as [-> | Hl]; [reflexivity|].
    destruct (net.ParseIP ip); [discriminate Hl | exact Hl].
  - unfold Legacy.getPort, wol_port.
    destruct (strconv.Atoi port) as [ps [e|]]; unfold bind, ret, emit.
    + cbn. right. now right.
    + cbn [range_has].
      destruct (Z.eqb_spec ps 0); [cbn; now left|].
      destruct (Z.eqb_spec ps 7); [cbn; right; now left|].
      destruct (Z.eqb_spec ps 9); cbn; right; now right.
Qed.

(** X12: the earlier [SendMagic] never writes a datagram.  On every input,
    valid or not and with or without password, it dials once, on [udp4], an
    address of 16 bytes and a port among 0, 7 and 9, writes nothing, and
    leaves no connection open. *)
Theorem Legacy_SendMagic_never_writes (macAddr passwd ip port : string)
    (nw : Network) :
  let tr := snd (Legacy.SendMagic macAddr passwd ip port nw) in
  datagrams tr = []
  /\ unreleased nw tr [] = []
  /\ exists raddr,
       dialled tr = [("udp4", raddr)]
       /\ List.length (addr_IP raddr) = 16%nat
       /\ wol_port (addr_Port raddr).
Proof.
  cbv zeta.
  destruct (Legacy_SendMagic_run macAddr passwd ip port nw)
    as (prints1 & pk & Hp1 & -> & _).
  destruct (Legacy_SendUDP_run pk ip port nw) as (prints2 & Hp2 & ->).
  destruct (Legacy_destination ip port nw) as [Hip Hport].
  assert (Hp : Forall is_print (prints1 ++ prints2)) by (apply Forall_app; now split).
  pose proof (fun tr => prints_observed nw (prints1 ++ prints2) tr Hp) as Hobs.
  cbv zeta. set (raddr := mkUDPAddr _ _) in *.
  destruct (dial_error nw "udp4" raddr) eqn:Ed; cbn [snd]; rewrite app_assoc.
  - destruct (Hobs [EvDial "udp4" raddr]) as (-> & -> & ->).
    cbn. rewrite Ed. repeat split. now exists raddr.
  - destruct (Hobs [EvDial "udp4" raddr;
                    EvPrint [PStr "The payload: %X.\n"; PBytes (payload pk)];
                    EvClose raddr]) as (-> & -> & ->).
    cbn. rewrite Ed, UDPAddr_eqb_refl. repeat split. now exists raddr.
Qed.

(** X13: the earlier [SendMagic] never returns an error: it panics with the
    error of the dial when the dial fails, and returns [nil] otherwise,
    whatever the MAC address, the password, the IP address and the port. *)
Theorem Legacy_SendMagic_outcome (macAddr passwd ip port : string) (nw : Network) :
  (exists raddr,
     dialled (snd (Legacy.SendMagic macAddr passwd ip port nw)) = [("udp4", raddr)]
     /\ fst (Legacy.SendMagic macAddr passwd ip port nw)
        = match dial_error nw "udp4" raddr with
          | Some e => Panicked e
          | None => Returned None
          end)
  /\ forall e, fst (Legacy.SendMagic macAddr passwd ip port nw) <> Returned (Some e).
Proof.
  destruct (Legacy_SendMagic_run macAddr passwd ip port nw)
    as (prints1 & pk & Hp1 & -> & _).
  destruct (Legacy_SendUDP_run pk ip port nw) as (prints2 & Hp2 & ->).
  assert (Hp : Forall is_print (prints1 ++ prints2)) by (apply Forall_app; now split).
  pose proof (fun tr => prints_observed nw (prints1 ++ prints2) tr Hp) as Hobs.
  cbv zeta. set (raddr := mkUDPAddr _ _) in *.
  destruct (dial_error nw "udp4" raddr) eqn:Ed; cbn [fst snd]; rewrite app_assoc.
  - destruct (Hobs [EvDial "udp4" raddr]) as (_ & -> & _).
    split; [| discriminate]. exists raddr. now rewrite Ed.
  - destruct (Hobs [EvDial "udp4" raddr;
                    EvPrint [PStr "The payload: %X.\n"; PBytes (payload pk)];
                    EvClose raddr]) as (_ & -> & _).
    split; [| discriminate]. exists raddr. now rewrite Ed.
Qed.

(** X14: with a password the earlier [SendMagic] does not stop: it prints
    that passwords are not supported and runs [SendUDP] on the empty packet,
    so that its result does not depend on the MAC address; unless the dial
    panics, the payload that it prints is empty. *)
Theorem Legacy_SendMagic_password_dials (macAddr passwd ip port : string)
    (nw : Network) :
  passwd <> "" ->
  Legacy.SendMagic macAddr passwd ip port nw
  = (fst (Legacy.SendUDP newPacket ip port nw),
     EvPrint [PStr "We don't support Wake-on-LAN password yet..."]
     :: snd (Legacy.SendUDP newPacket ip port nw))
  /\ (In (EvPrint [PStr "The payload: %X.\n"; PBytes []])
         (snd (Legacy.SendMagic macAddr passwd ip port nw))
      \/ exists e, fst (Legacy.SendMagic macAddr passwd ip port nw) = Panicked e).
Proof.
  intros Hpw.
  assert (E : Legacy.SendMagic macAddr passwd ip port nw
              = (fst (Legacy.SendUDP newPacket ip port nw),
                 EvPrint [PStr "We don't support Wake-on-LAN password yet..."]
                 :: snd (Legacy.SendUDP newPacket ip port nw))).
  { unfold Legacy.SendMagic.
    destruct (String.eqb_spec passwd ""); [contradiction|].
    unfold bind, ret, emit.
    destruct (Legacy.SendUDP newPacket ip port nw) as [[[e|]|v] tr];
      cbn; now rewrite ?app_nil_r. }
  split; [exact E|].
  rewrite E. cbn [fst snd].
  destruct (Legacy_SendUDP_run newPacket ip port nw) as (prints & _ & ->).
  cbv zeta. set (raddr := mkUDPAddr _ _).
  destruct (dial_error nw "udp4" raddr) as [e|]; cbn [fst snd].
  - right. now exists e.
  - left. right. apply in_or_app. right. right. left. reflexivity.
Qed.

Lemma Legacy_SendMagic_password_dials_witness :
  Legacy.SendMagic "00:11:22:33:44:55" "password" "255.255.255.255" "9"
    reliable_network
  = (fst (Legacy.SendUDP newPacket "255.255.255.255" "9" reliable_network),
     EvPrint [PStr "We don't support Wake-on-LAN password yet..."]
     :: snd (Legacy.SendUDP newPacket "255.255.255.255" "9" reliable_network)).
Proof.
  refine (proj1 (Legacy_SendMagic_password_dials "00:11:22:33:44:55" "password"
                   "255.255.255.255" "9" reliable_network _)).
  discriminate.
Defined.

(** ** The command-line tool *)

Lemma net_events_app (l r : list cmd.output) :
  net_events (l ++ r) = net_events l ++ net_events r.
Proof.
  induction l as [|o l IH]; [reflexivity|].
  destruct o; cbn; now rewrite IH.
Qed.

Lemma net_events_Net (tr : list event) : net_events (map cmd.Net tr) = tr.
Proof. induction tr as [|ev tr IH]; cbn; [reflexivity | now rewrite IH]. Qed.

(** What [main] does once the help and the missing address are out of the
    way. *)
Lemma main_sends (f : cmd.Flags) (nw : Network) :
  cmd.helpFlag f = false -> cmd.macAddr f <> "" ->
  net_events (snd (cmd.main f nw))
  = snd (SendMagic (cmd.macAddr f) "" (cmd.ip f) (cmd.port f) nw)
  /\ fst (cmd.main f nw)
     = match fst (SendMagic (cmd.macAddr f) "" (cmd.ip f) (cmd.port f) nw) with
       | Some _ => 1
       | None => 0
       end.
Proof.
  intros Hh Hm. unfold cmd.main. rewrite Hh.
  destruct (String.eqb_spec (cmd.macAddr f) ""); [contradiction|].
  destruct (SendMagic (cmd.macAddr f) "" (cmd.ip f) (cmd.port f) nw) as [[e|] tr];
    cbn [fst snd]; (split; [|reflexivity]);
    rewrite !net_events_app, net_events_Net; cbn; now rewrite app_nil_r.
Qed.

(** X15: with [-help], or without a MAC address, [main] prints the usage
    and the flags on the standard error and exits, with status 0 for the
    help and 1 for the missing address; the IP address and the port are not
    looked at and nothing happens on the network. *)
Theorem main_usage (f : cmd.Flags) (nw : Network) :
  cmd.helpFlag f = true \/ cmd.macAddr f = "" ->
  cmd.main f nw
  = (if cmd.helpFlag f then 0 else 1,
     (if cmd.helpFlag f then []
      else [cmd.Stderr "Error: MAC address is required\n\n" []])
     ++ [cmd.Stderr cmd.usage []; cmd.PrintDefaults])
  /\ net_events (snd (cmd.main f nw)) = [].
Proof.
  intros H. unfold cmd.main.
  destruct (cmd.helpFlag f); [now split|].
  destruct H as [H | ->]; [discriminate H | now split].
Qed.

Lemma main_usage_witness :
  cmd.main (cmd.mkFlags "" "255.255.255.255" "9" false) reliable_network
  = (1, [cmd.Stderr "Error: MAC address is required\n\n" [];
         cmd.Stderr cmd.usage []; cmd.PrintDefaults]).
Proof.
  refine (proj1 (main_usage (cmd.mkFlags "" "255.255.255.255" "9" false)
                   reliable_network _)).
  right. reflexivity.
Defined.

(** X16: given a MAC address and no [-help], [main] calls [SendMagic] with
    the empty password: what happens on the network is what [SendMagic]
    does, the exit status is 0 when [SendMagic] returns [nil] and 1 when it
    returns an error, and the last thing printed is the line of the success
    on the standard output or the error on the standard error. *)
Theorem main_exit_status (f : cmd.Flags) (nw : Network) :
  cmd.helpFlag f = false -> cmd.macAddr f <> "" ->
  let r := SendMagic (cmd.macAddr f) "" (cmd.ip f) (cmd.port f) nw in
  net_events (snd (cmd.main f nw)) = snd r
  /\ (fst (cmd.main f nw) = 0 <-> fst r = None)
  /\ (fst (cmd.main f nw) = 1 <-> fst r <> None)
  /\ last (snd (cmd.main f nw)) cmd.PrintDefaults
     = match fst r with
       | Some e => cmd.Stderr "Error: %v\n" [PErr e]
       | None => cmd.Stdout "✓ Magic packet sent successfully\n" []
       end.
Proof.
  intros Hh Hm. cbv zeta.
  destruct (main_sends f nw Hh Hm) as [Hn Hs].
  split; [exact Hn|]. rewrite Hs. clear Hn Hs.
  unfold cmd.main. rewrite Hh.
  destruct (String.eqb_spec (cmd.macAddr f) ""); [contradiction|].
  destruct (SendMagic (cmd.macAddr f) "" (cmd.ip f) (cmd.port f) nw) as [[e|] tr];
    cbn [fst snd].
  - split; [split; discriminate|]. split; [split; [discriminate | reflexivity]|].
    rewrite app_assoc. apply last_last.
  - split; [split; reflexivity|].
    split; [split; [discriminate | intros H; now elim H]|].
    rewrite app_assoc. apply last_last.
Qed.

Lemma main_exit_status_witness :
  fst (cmd.main (cmd.mkFlags "00:11:22:33:44:55" "999.1.1.1" "9" false)
         reliable_network) = 1.
Proof.
  apply (proj2 (proj1 (proj2 (proj2
           (main_exit_status (cmd.mkFlags "00:11:22:33:44:55" "999.1.1.1" "9" false)
              reliable_network eq_refl ltac:(discriminate)))))).
  discriminate.
Defined.

(** X17: given a MAC address in the 6-octet colon or hyphen notation and
    the default destination, on a network where the dial and the write
    succeed, [main] exits with status 0 after one datagram of 102 bytes, the
    header and sixteen copies of the address, written to
    255.255.255.255:9. *)
Theorem main_wakes (f : cmd.Flags) (nw : Network) (hw : list Z) :
  let bcast := mkUDPAddr (net.IPv4 255 255 255 255) 9 in
  let datagram := repeat 0xFF 6 ++ List.concat (repeat hw 16) in
  cmd.helpFlag f = false ->
  Spec.mac48 (cmd.macAddr f) = Some hw ->
  cmd.ip f = "255.255.255.255" -> cmd.port f = "9" ->
  dial_error nw "udp4" bcast = None ->
  write_error nw bcast datagram = None ->
  fst (cmd.main f nw) = 0
  /\ net_events (snd (cmd.main f nw))
     = [EvDial "udp4" bcast; EvWrite bcast datagram; EvClose bcast]
  /\ List.length datagram = 102%nat.
Proof.
  intros bcast datagram Hh Hm Hip Hport Hd Hw.
  assert (Hne : cmd.macAddr f <> "").
  { intros E. rewrite E in Hm. discriminate Hm. }
  destruct (main_sends f nw Hh Hne) as [Hn Hs]. rewrite Hn, Hs. clear Hn Hs.
  pose proof (SendMagic_error_stages (cmd.macAddr f) (cmd.ip f) (cmd.port f) nw) as H.
  rewrite (ParseMAC_mac48 _ _ Hm), Hip, Hport in H.
  change (getRAddr "255.255.255.255") with (net.IPv4 255 255 255 255, @None error) in H.
  change (getPort "9") with (9, @None error) in H.
  cbv zeta in H. fold bcast in H. fold datagram in H.
  rewrite Hip, Hport.
  destruct (SendMagic (cmd.macAddr f) "" "255.255.255.255" "9" nw) as [err tr].
  unfold bcast, datagram in *. rewrite Hd in H. destruct H as [-> ->].
  cbn [fst snd].
  replace (write_error nw _ _) with (@None error) by (symmetry; exact Hw).
  repeat split.
  pose proof (mac48_length _ _ Hm) as Hl.
  rewrite length_app, repeat_length. cbn [repeat List.concat].
  rewrite !length_app, Hl. reflexivity.
Qed.

Lemma main_wakes_witness :
  fst (cmd.main (cmd.mkFlags "00-11-22-33-44-55" "255.255.255.255" "9" false)
         reliable_network) = 0.
Proof.
  exact (proj1 (main_wakes (cmd.mkFlags "00-11-22-33-44-55" "255.255.255.255" "9" false)
                  reliable_network [0x00; 0x11; 0x22; 0x33; 0x44; 0x55]
                  eq_refl eq_refl eq_refl eq_refl eq_refl eq_refl)).
Defined.

(** ** More on the addresses that [WriteMAC] accepts *)

Lemma lower_char_hex (c : ascii) :
  Spec.hex_value (lower_char c) = Spec.hex_value c
  /\ Spec.is_delimiter (lower_char c) = Spec.is_delimiter c
  /\ (Spec.is_delimiter c = true -> lower_char c = c).
Proof.
  destruct c as [[] [] [] [] [] [] [] []]; vm_compute;
    (split; [reflexivity | split; [reflexivity | intros H; (reflexivity || discriminate H)]]).
Qed.

Lemma mac48_to_lower (s : string) (hw : list Z) :
  Spec.mac48 s = Some hw -> Spec.mac48 (to_lower s) = Some hw.
Proof.
  unfold Spec.mac48. intros H.
  do 17 (destruct s as [|? s]; [discriminate H|]).
  destruct s; [|discriminate H].
  cbn [list_ascii_of_string to_lower] in *.
  destruct (Spec.is_delimiter a1 && (a4 =? a1)%char && (a7 =? a1)%char
            && (a10 =? a1)%char && (a13 =? a1)%char) eqn:Hsep; [|discriminate H].
  repeat (apply andb_prop in Hsep; destruct Hsep as [Hsep ?]).
  repeat match goal with
         | E : (_ =? _)%char = true |- _ => apply Ascii.eqb_eq in E; subst
         end.
  destruct (lower_char_hex a1) as (_ & _ & Hd). rewrite (Hd Hsep), Hsep.
  rewrite !Ascii.eqb_refl. cbn [andb].
  unfold Spec.hex_pair in *.
  repeat match goal with
         | |- context [Spec.hex_value (lower_char ?c)] =>
             rewrite (proj1 (lower_char_hex c))
         end.
  exact H.
Qed.

(** X18: [WriteMAC] does not tell upper case from lower case: on an address
    in the 6-octet colon or hyphen notation it does the same as on the
    address in lower case. *)
Theorem WriteMAC_case_insensitive (p : Packet) (addr : string) (hw : list Z) :
  Spec.mac48 addr = Some hw ->
  WriteMAC p (to_lower addr) = WriteMAC p addr
  /\ net.ParseMAC (to_lower addr) = (hw, None).
Proof.
  intros H. pose proof (mac48_to_lower _ _ H) as Hl.
  apply ParseMAC_mac48 in H, Hl.
  split; [|exact Hl]. unfold WriteMAC. now rewrite H, Hl.
Qed.

Lemma WriteMAC_case_insensitive_witness :
  WriteMAC newPacket (to_lower "AA:BB:CC:DD:EE:FF") = WriteMAC newPacket "AA:BB:CC:DD:EE:FF".
Proof.
  exact (proj1 (WriteMAC_case_insensitive newPacket "AA:BB:CC:DD:EE:FF"
                  [0xAA; 0xBB; 0xCC; 0xDD; 0xEE; 0xFF] eq_refl)).
Defined.

(** X19: on the addresses of 17 characters [WriteMAC] succeeds exactly on
    the 6-octet notation with one delimiter, colon or hyphen, throughout;
    it then appends sixteen copies of the six octets that the notation
    denotes. *)
Theorem WriteMAC_17_characters (p : Packet) (addr : string) :
  len addr = 17%nat ->
  (snd (WriteMAC p addr) = None <-> Spec.mac48 addr <> None)
  /\ forall hw, Spec.mac48 addr = Some hw ->
       payload (fst (WriteMAC p addr)) = payload p ++ List.concat (repeat hw 16).
Proof.
  intros Hlen. split.
  - split.
    + intros H. destruct (WriteMAC p addr) as [p' err] eqn:E. cbn in H. subst err.
      destruct (WriteMAC_inv _ _ _ E) as (hw & Ep & _).
      now rewrite (ParseMAC_17 _ hw Hlen Ep).
    + intros H. destruct (Spec.mac48 addr) as [hw|] eqn:E; [|now elim H].
      apply ParseMAC_mac48 in E. unfold WriteMAC. now rewrite E.
  - intros hw H. apply ParseMAC_mac48 in H.
    destruct (WriteMAC_ok p addr hw H) as (p' & -> & Hp). exact Hp.
Qed.

Lemma WriteMAC_17_characters_witness :
  snd (WriteMAC newPacket "00:11-22:33:44:55") <> None.
Proof.
  intros H.
  apply (proj1 (proj1 (WriteMAC_17_characters newPacket "00:11-22:33:44:55" eq_refl)))
    in H.
  apply H. reflexivity.
Defined.

(** ** The two versions side by side *)

Lemma Legacy_getPort_agrees (port : string) (nw : Network) (n : Z) :
  getPort port = (n, None) -> fst (fst (Legacy.getPort port nw)) = n.
Proof.
  unfold getPort, Legacy.getPort.
  destruct (String.eqb_spec port "") as [-> | _].
  - intros H. now injection H as <-.
  - destruct (strconv.Atoi port) as [portNum [e|]]; [discriminate|].
    unfold bind, ret.
    destruct (range_has portNum [0; 7; 9]); [|discriminate].
    intros H. now injection H as <-.
Qed.

Lemma Legacy_getRAddr_agrees (ip : string) (a : net.IP) :
  getRAddr ip = (a, None) -> fst (Legacy.getRAddr ip) = a.
Proof.
  unfold getRAddr, Legacy.getRAddr.
  destruct (String.eqb_spec ip "") as [-> | _].
  - intros H. now injection H as <-.
  - destruct (net.ParseIP ip); [discriminate|].
    intros H. now injection H as <-.
Qed.

(** X20: wherever the current [SendMagic] dials, the earlier one dials the
    same destination, with any password; but the current one writes the
    datagram when the dial succeeds and the earlier one never does. *)
Theorem versions_dial_alike (macAddr passwd ip port : string) (nw : Network)
    (raddr : UDPAddr) :
  dialled (snd (SendMagic macAddr "" ip port nw)) = [("udp4", raddr)] ->
  dialled (snd (Legacy.SendMagic macAddr passwd ip port nw)) = [("udp4", raddr)]
  /\ datagrams (snd (Legacy.SendMagic macAddr passwd ip port nw)) = []
  /\ (dial_error nw "udp4" raddr = None ->
      exists datagram,
        datagrams (snd (SendMagic macAddr "" ip port nw)) = [datagram]).
Proof.
  intros Hd.
  pose proof (SendMagic_error_stages macAddr ip port nw) as H.
  destruct (SendMagic macAddr "" ip port nw) as [err tr]. cbn [snd] in *.
  destruct (net.ParseMAC macAddr) as [hw [e|]];
    [destruct H as [_ ->]; discriminate Hd|].
  destruct (getRAddr ip) as [a [e|]] eqn:Ea;
    [destruct H as [_ ->]; discriminate Hd|].
  destruct (getPort port) as [n [e|]] eqn:En;
    [destruct H as [_ ->]; discriminate Hd|].
  cbv zeta in H.
  assert (Hr : raddr = mkUDPAddr a n).
  { destruct (dial_error nw "udp4" (mkUDPAddr a n)); destruct H as [H1 H2];
      subst; cbn in Hd; now injection Hd as <-. }
  subst raddr.
  destruct (Legacy_SendMagic_run macAddr passwd ip port nw)
    as (prints1 & pk & Hp1 & -> & _).
  destruct (Legacy_SendUDP_run pk ip port nw) as (prints2 & Hp2 & ->).
  rewrite (Legacy_getRAddr_agrees _ _ Ea), (Legacy_getPort_agrees _ nw _ En).
  assert (Hp : Forall is_print (prints1 ++ prints2)) by (apply Forall_app; now split).
  pose proof (fun tr => prints_observed nw (prints1 ++ prints2) tr Hp) as Hobs.
  cbv zeta.
  destruct (dial_error nw "udp4" (mkUDPAddr a n)) eqn:Ed; cbn [snd];
    rewrite app_assoc.
  - destruct (Hobs [EvDial "udp4" (mkUDPAddr a n)]) as (-> & -> & _).
    repeat split. discriminate.
  - destruct (Hobs [EvDial "udp4" (mkUDPAddr a n);
                    EvPrint [PStr "The payload: %X.\n"; PBytes (payload pk)];
                    EvClose (mkUDPAddr a n)]) as (-> & -> & _).
    repeat split. intros _. destruct H as [-> _]. now eexists.
Qed.

Lemma versions_dial_alike_witness :
  dialled (snd (Legacy.SendMagic "00:11:22:33:44:55" "" "192.168.1.255" "7"
                  reliable_network))
  = [("udp4", mkUDPAddr (net.IPv4 192 168 1 255) 7)].
Proof.
  exact (proj1 (versions_dial_alike "00:11:22:33:44:55" "" "192.168.1.255" "7"
                  reliable_network (mkUDPAddr (net.IPv4 192 168 1 255) 7) eq_refl)).
Defined.
